(** * voice-runner: phrase normalisation, matching and script supervision

    A shallow embedding of [src/voice_runner/runner.py] and
    [src/voice_runner/voice.py], and the properties of the specification
    checked against it.

    Python strings are lists of code points.  The embedding covers the code
    points 0..255 (ASCII and Latin-1), for which the character classes of
    [str.isspace], [str.lower] and the [re] module's [\s], [\w] are written
    out below; code points above 255 are outside the model. *)

From Stdlib Require Import List Bool Arith ZArith NArith Lia.
From Stdlib Require Import Ascii String.
From Stdlib Require Import Permutation Sorted.
Import ListNotations.

(** ** Strings *)

Definition str := list ascii.

Notation "$ x" := (list_ascii_of_string x%string)
  (at level 9, x at level 0, only parsing).

Definition str_eqb (a b : str) : bool :=
  if list_eq_dec ascii_dec a b then true else false.

(** [x in l] for a list of strings. *)
Definition mem (x : str) (l : list str) : bool := existsb (str_eqb x) l.

(** ** Character classes (code points 0..255) *)

Definition code (c : ascii) : N := N_of_ascii c.

Definition between (lo hi : N) (c : ascii) : bool :=
  ((lo <=? code c) && (code c <=? hi))%N.

(** [str.isspace], which is also what [\s], [str.strip] and [str.split]
    use: TAB..CR, FS..US, space, NEL and NBSP. *)
Definition is_space (c : ascii) : bool :=
  between 9 13 c || between 28 32 c
  || (code c =? 133)%N || (code c =? 160)%N.

(** [\w] on [str] patterns: alphanumeric code points and the underscore. *)
Definition is_word (c : ascii) : bool :=
  between 48 57 c || between 65 90 c || (code c =? 95)%N
  || between 97 122 c
  || (code c =? 170)%N || between 178 179 c || (code c =? 181)%N
  || between 185 186 c || between 188 190 c
  || between 192 214 c || between 216 246 c || between 248 255 c.

(** [str.lower] on one code point: A..Z and the Latin-1 capitals. *)
Definition lower_char (c : ascii) : ascii :=
  if between 65 90 c || between 192 214 c || between 216 222 c
  then ascii_of_N (code c + 32)
  else c.

Definition lower (p : str) : str := map lower_char p.

Definition space : ascii := " "%char.
Definition newline : ascii := ascii_of_N 10.
Definition dquote : ascii := ascii_of_N 34.

(** ** [str.strip]

    [str.strip(chars)] removes from both ends the characters of a set;
    without an argument the set is the whitespace. *)

Fixpoint lstrip_by (f : ascii -> bool) (p : str) : str :=
  match p with
  | [] => []
  | c :: t => if f c then lstrip_by f t else p
  end.

Fixpoint rstrip_by (f : ascii -> bool) (p : str) : str :=
  match p with
  | [] => []
  | c :: t =>
      match rstrip_by f t with
      | [] => if f c then [] else [c]
      | r => c :: r
      end
  end.

Definition strip_by (f : ascii -> bool) (p : str) : str :=
  rstrip_by f (lstrip_by f p).

Definition strip (p : str) : str := strip_by is_space p.

(** ** [re.sub] of a word alternation between two [\b]

    [re.sub(r"\b(w1|w2|...)\b", " ", p)] scans [p] from the left.  At each
    position it tries the pattern: the assertion [\b], the alternatives in
    the order written (backtracking into the next one when the closing [\b]
    fails), and the closing [\b].  A match is replaced by one space and the
    scan resumes after it; without a match the character is copied.  The
    assertions look at the subject string, so the scan carries whether the
    previous character of [p] is a word character. *)

Definition head_word (p : str) : bool :=
  match p with
  | [] => false
  | c :: _ => is_word c
  end.

(** [\b] between a previous character (word or not) and the rest. *)
Definition boundary (prevw : bool) (p : str) : bool :=
  xorb prevw (head_word p).

(** Matching the literal [w]: the rest of the subject, and whether the last
    character consumed is a word character. *)
Fixpoint lit (w : str) (prevw : bool) (p : str) : option (bool * str) :=
  match w with
  | [] => Some (prevw, p)
  | a :: w' =>
      match p with
      | [] => None
      | c :: t => if Ascii.eqb a c then lit w' (is_word c) t else None
      end
  end.

(** [(w1|w2|...)\b]: the number of characters of the first alternative
    that matches and is followed by a boundary. *)
Fixpoint alt_b (ws : list str) (prevw : bool) (p : str) : option nat :=
  match ws with
  | [] => None
  | w :: ws' =>
      match lit w prevw p with
      | Some (pw, rest) =>
          if boundary pw rest then Some (List.length w) else alt_b ws' prevw p
      | None => alt_b ws' prevw p
      end
  end.

Definition match_here (ws : list str) (prevw : bool) (p : str) : option nat :=
  if boundary prevw p then alt_b ws prevw p else None.

(** The scan.  [skip] counts the characters of [p] still inside the match
    found last, which are consumed without output.  The alternatives are
    non-empty words, so a match consumes at least one character and none is
    found at the end of the string. *)
Fixpoint sub_scan (ws : list str) (prevw : bool) (skip : nat) (p : str) : str :=
  match p with
  | [] => []
  | c :: t =>
      match skip with
      | S k => sub_scan ws (is_word c) k t
      | O =>
          match match_here ws prevw p with
          | Some n => space :: sub_scan ws (is_word c) (pred n) t
          | None => c :: sub_scan ws (is_word c) 0 t
          end
      end
  end.

Definition sub_words (ws : list str) (p : str) : str := sub_scan ws false 0 p.

(** [re.sub(r"\s+", " ", p)]: every maximal run of whitespace becomes one
    space; [inrun] tells that the run at hand was already replaced. *)
Fixpoint sub_spaces (inrun : bool) (p : str) : str :=
  match p with
  | [] => []
  | c :: t =>
      if is_space c
      then (if inrun then sub_spaces true t else space :: sub_spaces true t)
      else c :: sub_spaces false t
  end.

(** ** [normalize_phrase] *)

Definition articles : list str := [$"the"; $"a"; $"an"].
Definition nouns : list str := [$"program"; $"script"; $"app"].
Definition fillers : list str := articles ++ nouns.

Definition normalize_phrase (p : str) : str :=
  let p := lower (strip p) in
  let p := sub_words articles p in
  let p := sub_words nouns p in
  strip (sub_spaces false p).


(** ** [str.split], token sets, substrings *)

(** [p.split()]: the maximal runs of characters that are not whitespace. *)
Fixpoint split (p : str) : list str :=
  match p with
  | [] => []
  | c :: t =>
      if is_space c then split t
      else
        match t with
        | [] => [[c]]
        | c' :: _ =>
            if is_space c' then [c] :: split t
            else
              match split t with
              | r :: rs => (c :: r) :: rs
              | [] => [[c]]
              end
        end
  end.

(** [set(l)]: the elements of [l], each once. *)
Fixpoint set_of (l : list str) : list str :=
  match l with
  | [] => []
  | x :: l' => if mem x l' then set_of l' else x :: set_of l'
  end.

(** [a & b] on sets. *)
Definition set_inter (a b : list str) : list str :=
  filter (fun x => mem x b) a.

(** [a.startswith(w)]. *)
Fixpoint starts_with (w a : str) : bool :=
  match w, a with
  | [], _ => true
  | _ :: _, [] => false
  | x :: w', y :: a' => Ascii.eqb x y && starts_with w' a'
  end.

(** [w in a] on strings: [w] occurs in [a] at some position. *)
Fixpoint substr (w a : str) : bool :=
  starts_with w a ||
  match a with
  | [] => false
  | _ :: a' => substr w a'
  end.

(** ** Dictionaries

    A Python [dict] keeps its keys in insertion order: an association list
    without repeated keys.  Assigning to a key that is present keeps its
    place; a new key goes last. *)

Definition dict := list (str * str).

Definition keys (d : dict) : list str := map fst d.

Fixpoint dict_get (k : str) (d : dict) : option str :=
  match d with
  | [] => None
  | (k', v) :: d' => if str_eqb k k' then Some v else dict_get k d'
  end.

Definition dict_mem (k : str) (d : dict) : bool :=
  match dict_get k d with
  | Some _ => true
  | None => false
  end.

Fixpoint dict_set (k v : str) (d : dict) : dict :=
  match d with
  | [] => [(k, v)]
  | (k', v') :: d' =>
      if str_eqb k k' then (k, v) :: d' else (k', v') :: dict_set k v d'
  end.

Fixpoint dict_del (k : str) (d : dict) : dict :=
  match d with
  | [] => []
  | (k', v') :: d' => if str_eqb k k' then d' else (k', v') :: dict_del k d'
  end.

(** ** Results of calls

    A call returns a value, raises, or never returns. *)

Inductive exn : Type :=
| KeyError (k : str)
| IndexError
| FileNotFoundError (text : str)
| IsADirectoryError (text : str)
| OSError (text : str)
| ValueError (text : str)
| AttributeError
| RuntimeError (text : str)
| TimeoutExpired
| EOFError
| KeyboardInterrupt.

(** [except Exception] catches all of these but [KeyboardInterrupt], which
    derives from [BaseException] only. *)
Definition is_Exception (e : exn) : bool :=
  match e with
  | KeyboardInterrupt => false
  | _ => true
  end.

Inductive res (A : Type) : Type :=
| Ok (a : A)
| Raise (e : exn)
| Hang.

Arguments Ok {A} a.
Arguments Raise {A} e.
Arguments Hang {A}.

Definition rbind {A B} (r : res A) (f : A -> res B) : res B :=
  match r with
  | Ok a => f a
  | Raise e => Raise e
  | Hang => Hang
  end.

(** [d[k]] *)
Definition getitem (k : str) (d : dict) : res str :=
  match dict_get k d with
  | Some v => Ok v
  | None => Raise (KeyError k)
  end.

(** ** [best_match] *)

(** The key of [candidates.sort]: [(t[0], -t[1])], compared as tuples. *)
Definition cand := (Z * Z * str)%type.

Definition sort_key (t : cand) : Z * Z := (fst (fst t), - snd (fst t))%Z.

Definition key_ltb (a b : Z * Z) : bool :=
  ((fst a <? fst b) || ((fst a =? fst b) && (snd a <? snd b)))%Z.

(** [list.sort(key=..., reverse=True)] is stable: the keys descend and
    elements with equal keys keep the order they had.  An element is
    inserted in front of what comes after it in the list, past the elements
    with a strictly greater key only. *)
Fixpoint insert_desc (x : cand) (l : list cand) : list cand :=
  match l with
  | [] => [x]
  | y :: l' =>
      if key_ltb (sort_key x) (sort_key y) then y :: insert_desc x l'
      else x :: l
  end.

Fixpoint sort_desc (l : list cand) : list cand :=
  match l with
  | [] => []
  | x :: l' => insert_desc x (sort_desc l')
  end.

(** [{normalize_phrase(k): k for k in aliases.keys()}] *)
Definition norm_to_key_of (ks : list str) : dict :=
  fold_left (fun d k => dict_set (normalize_phrase k) k d) ks [].

Definition overlap_of (norm_raw k : str) : Z :=
  let tokens := set_of (split norm_raw) in
  let ktokens := set_of (split (normalize_phrase k)) in
  Z.of_nat (List.length (set_inter tokens ktokens)).

(** The loop of lines 59-64. *)
Fixpoint candidates_of (norm_raw : str) (ks : list str) : list cand :=
  match ks with
  | [] => []
  | k :: ks' =>
      let overlap := overlap_of norm_raw k in
      if (0 <? overlap)%Z
      then (overlap, Z.of_nat (List.length (normalize_phrase k)), k)
             :: candidates_of norm_raw ks'
      else candidates_of norm_raw ks'
  end.

(** The loop of lines 71-73. *)
Fixpoint first_substr (aliases : dict) (norm_raw : str) (ks : list str)
  : res (option (str * str)) :=
  match ks with
  | [] => Ok None
  | k :: ks' =>
      if substr (normalize_phrase k) norm_raw
         || substr norm_raw (normalize_phrase k)
      then rbind (getitem k aliases) (fun v => Ok (Some (k, v)))
      else first_substr aliases norm_raw ks'
  end.

(** Lines 49-75: the three tiers, on a table that is not empty. *)
Definition match_tiers (aliases : dict) (raw_phrase : str)
  : res (option (str * str)) :=
  let norm_to_key := norm_to_key_of (keys aliases) in
  let norm_raw := normalize_phrase raw_phrase in
  if dict_mem norm_raw norm_to_key then
    rbind (getitem norm_raw norm_to_key) (fun key =>
    rbind (getitem key aliases) (fun v => Ok (Some (key, v))))
  else
    let candidates := candidates_of norm_raw (keys aliases) in
    match candidates with
    | _ :: _ =>
        match sort_desc candidates with
        | t :: _ =>
            let key := snd t in
            rbind (getitem key aliases) (fun v => Ok (Some (key, v)))
        | [] => Raise IndexError
        end
    | [] => first_substr aliases norm_raw (keys aliases)
    end.

Definition best_match (aliases : dict) (raw_phrase : str)
  : res (option (str * str)) :=
  match aliases with
  | [] => Ok None
  | _ :: _ => match_tiers aliases raw_phrase
  end.

(** ** The environment

    What the program obtains from the operating system and from the
    libraries [os], [pathlib], [subprocess] and [json] is a parameter of
    the embedding. *)

(** What [json.loads] returns: an object, whose values are strings or
    other values (given by the text [str] makes of them), or a value that
    is not an object. *)
Inductive jvalue : Type :=
| VString (v : str)
| VOther (text : str).

Inductive json : Type :=
| JObject (items : list (str * jvalue))
| JNotObject.

(** How a child process behaves.  Times are in seconds.  The child is
    taken to leave the input of the session and the stored file alone:
    [Popen] is called without [stdin=], so a script that reads its
    standard input, or that writes the file, does more than is modelled
    here. *)
Record Child : Type := {
  child_pid : Z;
  (** the time after which it exits by itself, if it ever does *)
  runs_for : option nat;
  exit_code : Z;
  (** [Some (d, c)]: on SIGINT it exits after [d] with status [c];
      [None]: it ignores the signal *)
  on_sigint : option (nat * Z);
  (** [send_signal] raises (the platform does not support the signal) *)
  sigint_raises : bool
}.

Inductive spawn_flags : Type :=
| Plain
| NewSession
| DetachedNT.

(** The file at [CONFIG_PATH]. *)
Inductive file : Type :=
| Absent
| Unreadable
| Text (t : str).

Record Env : Type := {
  expanduser : str -> str;
  resolve : str -> str;
  path_exists : str -> bool;
  path_is_dir : str -> bool;
  path_suffix : str -> str;
  path_name : str -> str;
  path_parent : str -> str;
  sys_executable : str;
  os_name_nt : bool;
  popen : list str -> str -> spawn_flags -> res Child;
  json_dumps : dict -> str;
  json_loads : str -> res json;
  (** [CONFIG_PATH.write_text(text)] on a file: [None] when the text is
      written, [Some (e, f)] when it raises [e] and leaves the file as
      [f] *)
  write_text : file -> str -> option (exn * file)
}.

(** ** The state *)

(** What [print] writes, one constructor for each format string of the
    source, with the values interpolated. *)
Inductive msg : Type :=
| WarnParse
| WarnNotPy (p : str)
| ErrExn (e : exn)
| ErrRequired
| ErrUsageMap
| ErrUsageUnmap
| OkMapped (phrase real : str)
| OkRemoved (key : str)
| WarnNoMapping (phrase : str)
| ErrNothingToRun
| WarnNoMatch (phrase : str)
| InfoLaunching (key script : str)
| ErrScriptNotFound (script : str)
| ErrFailedToRun (e : exn)
| OkFinished (name : str)
| ErrExited (name : str) (return_code : Z)
| InfoSentSigint
| BgStarted (name : str) (pid : Z)
| VoiceHeard (text : str).

Inductive event : Type :=
| Print (m : msg)
| Input (prompt : str)
| Popen (cmd : list str) (cwd : str) (flags : spawn_flags)
| ThreadStart (label : str) (pid : Z)
| Join
| Wait (timeout : option nat)
| SendSigint
| Kill.

(** The child of the attached launch at hand: running, to exit at a time
    (if ever) with a status, or waited for. *)
Inductive pstate : Type :=
| Running (exit_at : option nat) (code : Z)
| Reaped (code : Z).

Record State : Type := {
  aliases : dict;
  config_file : file;
  stdin : list str;
  out : list event;
  clock : nat;
  (** the times at which Ctrl-C is pressed, those that are yet to be
      raised as [KeyboardInterrupt], in order *)
  interrupt_at : list nat;
  proc : pstate
}.

Definition M (A : Type) : Type := State -> res A * State.

Definition ret {A} (a : A) : M A := fun st => (Ok a, st).

Definition bind {A B} (m : M A) (f : A -> M B) : M B :=
  fun st =>
    match m st with
    | (Ok a, st') => f a st'
    | (Raise e, st') => (Raise e, st')
    | (Hang, st') => (Hang, st')
    end.

Notation "x <- m ;; k" := (bind m (fun x => k))
  (at level 61, m at next level, right associativity).
Notation "m ;; k" := (bind m (fun _ => k))
  (at level 61, right associativity).

Definition raise {A} (e : exn) : M A := fun st => (Raise e, st).

(** [try: m  except <class>: h], the class given by [catches]. *)
Definition try_except {A} (catches : exn -> bool) (m : M A) (h : exn -> M A)
  : M A :=
  fun st =>
    match m st with
    | (Raise e, st') => if catches e then h e st' else (Raise e, st')
    | r => r
    end.

Definition is_KeyboardInterrupt (e : exn) : bool :=
  match e with
  | KeyboardInterrupt => true
  | _ => false
  end.

Definition add_out (e : event) (st : State) : State :=
  {| aliases := aliases st; config_file := config_file st;
     stdin := stdin st; out := out st ++ [e]; clock := clock st;
     interrupt_at := interrupt_at st; proc := proc st |}.

Definition emit (e : event) : M unit := fun st => (Ok tt, add_out e st).

Definition print (m : msg) : M unit := emit (Print m).

Definition get_aliases : M dict := fun st => (Ok (aliases st), st).

Definition set_aliases (d : dict) : M unit :=
  fun st =>
    (Ok tt,
     {| aliases := d; config_file := config_file st;
        stdin := stdin st; out := out st; clock := clock st;
        interrupt_at := interrupt_at st; proc := proc st |}).

Definition set_config_file (f : file) (st : State) : State :=
  {| aliases := aliases st; config_file := f;
     stdin := stdin st; out := out st; clock := clock st;
     interrupt_at := interrupt_at st; proc := proc st |}.

Definition write_config (E : Env) (t : str) : M unit :=
  fun st =>
    match write_text E (config_file st) t with
    | None => (Ok tt, set_config_file (Text t) st)
    | Some (e, f) => (Raise e, set_config_file f st)
    end.

(** [input(prompt)]: the prompt is written, then a line is read. *)
Definition input (prompt : str) : M str :=
  fun st =>
    match stdin st with
    | [] => (Raise EOFError, add_out (Input prompt) st)
    | l :: rest =>
        (Ok l,
         {| aliases := aliases st; config_file := config_file st;
            stdin := rest; out := out st ++ [Input prompt]; clock := clock st;
            interrupt_at := interrupt_at st; proc := proc st |})
    end.

(** The process: time, the pending interrupts and the child. *)
Definition at_time (t : nat) (i : list nat) (p : pstate) (st : State)
  : State :=
  {| aliases := aliases st; config_file := config_file st;
     stdin := stdin st; out := out st; clock := t;
     interrupt_at := i; proc := p |}.

(** ** [load_config], [save_config] *)

Definition py_str (v : jvalue) : str :=
  match v with
  | VString x => x
  | VOther text => text
  end.

(** [{str(k): str(v) for k, v in data.items()}] *)
Definition config_of_json (data : json) : res dict :=
  match data with
  | JObject items =>
      Ok (fold_left (fun d kv => dict_set (fst kv) (py_str (snd kv)) d)
                    items [])
  | JNotObject => Raise AttributeError
  end.

Definition read_config (E : Env) : M dict :=
  fun st =>
    match config_file st with
    | Text t => (rbind (json_loads E t) config_of_json, st)
    | _ => (Raise (OSError $"read_text"), st)
    end.

Definition config_exists : M bool :=
  fun st =>
    (Ok match config_file st with Absent => false | _ => true end, st).

Definition load_config (E : Env) : M dict :=
  ex <- config_exists ;;
  if ex then
    try_except is_Exception (read_config E)
      (fun _ => print WarnParse ;; ret [])
  else ret [].

Definition save_config (E : Env) : M unit :=
  a <- get_aliases ;;
  write_config E (json_dumps E a).

(** ** [ensure_python_script] *)

Definition ensure_python_script (E : Env) (path : str) : M str :=
  let p := resolve E (expanduser E path) in
  if negb (path_exists E p) then
    raise (FileNotFoundError ($"Script not found: " ++ p))
  else if path_is_dir E p then
    raise (IsADirectoryError ($"Expected a file, got directory: " ++ p))
  else
    (if str_eqb (lower (path_suffix E p)) $".py" then ret tt
     else print (WarnNotPy p)) ;;
    ret p.

(** ** The [Popen] object *)

Definition before (a : nat) (b : option nat) : bool :=
  match b with
  | Some y => a <? y
  | None => true
  end.

Definition le_opt (a : nat) (b : option nat) : bool :=
  match b with
  | Some y => a <=? y
  | None => true
  end.

(** [Popen(cmd, cwd=cwd, ...)] *)
Definition spawn (E : Env) (cmd : list str) (cwd : str) (flags : spawn_flags)
  : M Child :=
  emit (Popen cmd cwd flags) ;;
  match popen E cmd cwd flags with
  | Ok ch => ret ch
  | Raise e => raise e
  | Hang => fun st => (Hang, st)
  end.

(** The child of an attached launch is the one the supervisor follows. *)
Definition track (ch : Child) : M unit :=
  fun st =>
    (Ok tt,
     at_time (clock st) (interrupt_at st)
       (Running (option_map (fun d => clock st + d) (runs_for ch))
                (exit_code ch)) st).

(** Does the next Ctrl-C come before the child exits and before the
    deadline? *)
Definition interrupted (st : State) (exit_at deadline : option nat) : bool :=
  match interrupt_at st with
  | ti :: _ => before ti exit_at && before ti deadline
  | [] => false
  end.

Definition interrupt_time (st : State) : nat :=
  match interrupt_at st with
  | ti :: _ => Nat.max (clock st) ti
  | [] => clock st
  end.

(** [proc.wait(timeout)] blocks until the first of: the next Ctrl-C (raised
    as [KeyboardInterrupt] in the waiting thread, the later ones staying
    pending), the exit of the child, the end of the timeout.  Without a
    timeout and with a child that never exits, it does not return. *)
Definition proc_wait (timeout : option nat) : M Z :=
  emit (Wait timeout) ;;
  fun st =>
    match proc st with
    | Reaped c => (Ok c, st)
    | Running exit_at c =>
        let deadline := option_map (fun d => clock st + d) timeout in
        if interrupted st exit_at deadline then
          (Raise KeyboardInterrupt,
           at_time (interrupt_time st) (tl (interrupt_at st)) (proc st) st)
        else
          match exit_at, deadline with
          | Some T, Some D =>
              if T <=? D then
                (Ok c, at_time (Nat.max (clock st) T) (interrupt_at st)
                         (Reaped c) st)
              else
                (Raise TimeoutExpired,
                 at_time D (interrupt_at st) (proc st) st)
          | Some T, None =>
              (Ok c, at_time (Nat.max (clock st) T) (interrupt_at st)
                       (Reaped c) st)
          | None, Some D =>
              (Raise TimeoutExpired,
               at_time D (interrupt_at st) (proc st) st)
          | None, None => (Hang, st)
          end
    end.

(** [Popen.poll]: a child that has exited is reaped. *)
Definition poll (st : State) : State :=
  match proc st with
  | Running (Some T) c =>
      if T <=? clock st
      then at_time (clock st) (interrupt_at st) (Reaped c) st
      else st
  | _ => st
  end.

(** [proc.send_signal(signal.SIGINT)]: nothing is sent to a child that has
    exited; a child that handles the signal exits after its delay, unless it
    exits by itself before. *)
Definition proc_send_sigint (ch : Child) : M unit :=
  emit SendSigint ;;
  fun st =>
    let st := poll st in
    match proc st with
    | Reaped _ => (Ok tt, st)
    | Running exit_at c =>
        if sigint_raises ch then (Raise (ValueError $"Unsupported signal"), st)
        else
          match on_sigint ch with
          | Some (d, c') =>
              if le_opt (clock st + d) exit_at
              then (Ok tt, at_time (clock st) (interrupt_at st)
                             (Running (Some (clock st + d)) c') st)
              else (Ok tt, st)
          | None => (Ok tt, st)
          end
    end.

(** [proc.kill()]: SIGKILL is not handled; the child is gone at once. *)
Definition proc_kill : M unit :=
  emit Kill ;;
  fun st =>
    let st := poll st in
    match proc st with
    | Reaped _ => (Ok tt, st)
    | Running _ _ =>
        (Ok tt, at_time (clock st) (interrupt_at st)
                  (Running (Some (clock st)) (-9)%Z) st)
    end.

(** ** [run_script] *)

(** The handler of [KeyboardInterrupt], lines 122-129. *)
Definition on_interrupt (proc : Child) : M Z :=
  try_except is_Exception
    (proc_send_sigint proc ;;
     print InfoSentSigint ;;
     proc_wait (Some 5))
    (fun _ =>
       proc_kill ;;
       proc_wait None).

Definition run_script (E : Env) (script_path : str) (attach : bool) : M Z :=
  let py_exe := sys_executable E in
  let cmd := [py_exe; script_path] in
  let cwd := path_parent E (resolve E script_path) in
  if attach then
    proc <- spawn E cmd cwd Plain ;;
    track proc ;;
    emit (ThreadStart (path_name E script_path) (child_pid proc)) ;;
    try_except is_KeyboardInterrupt
      (return_code <- proc_wait None ;;
       emit Join ;;
       (if (return_code =? 0)%Z
        then print (OkFinished (path_name E script_path))
        else print (ErrExited (path_name E script_path) return_code)) ;;
       ret return_code)
      (fun _ => on_interrupt proc)
  else
    let flags := if os_name_nt E then DetachedNT else NewSession in
    proc <- spawn E cmd cwd flags ;;
    print (BgStarted (path_name E script_path) (child_pid proc)) ;;
    ret (child_pid proc).

(** ** [interactive_map], [handle_map], [handle_unmap] *)

(** [aliases[phrase] = real; save_config(aliases); print(...)] *)
Definition register (E : Env) (phrase real : str) : M unit :=
  a <- get_aliases ;;
  set_aliases (dict_set phrase real a) ;;
  save_config E ;;
  print (OkMapped phrase real).

(** [try: real = ensure_python_script(path)] with its handler, which
    prints and returns. *)
Definition validated (E : Env) (path : str) : M (option str) :=
  try_except is_Exception
    (real <- ensure_python_script E path ;; ret (Some real))
    (fun e => print (ErrExn e) ;; ret None).

Definition is_empty (p : str) : bool :=
  match p with
  | [] => true
  | _ :: _ => false
  end.

Definition interactive_map (E : Env) : M unit :=
  l1 <- input $"Phrase (e.g., Scrape Program): " ;;
  let phrase := strip l1 in
  l2 <- input $"Full path to script (e.g., ~/scripts/scrape.py): " ;;
  let path := strip l2 in
  if is_empty phrase || is_empty path then print ErrRequired
  else
    r <- validated E path ;;
    match r with
    | None => ret tt
    | Some real => register E phrase real
    end.

Definition handle_map (E : Env) (args : list str) : M unit :=
  match args with
  | [] => interactive_map E
  | [_] => print ErrUsageMap
  | phrase :: path :: _ =>
      r <- validated E path ;;
      match r with
      | None => ret tt
      | Some real => register E phrase real
      end
  end.

(** [del aliases[key]; save_config(aliases); print(...)] *)
Definition remove (E : Env) (key : str) : M unit :=
  a <- get_aliases ;;
  (if dict_mem key a then set_aliases (dict_del key a)
   else raise (KeyError key)) ;;
  save_config E ;;
  print (OkRemoved key).

Definition lift {A} (r : res A) : M A := fun st => (r, st).

Definition handle_unmap (E : Env) (args : list str) : M unit :=
  match args with
  | [] => print ErrUsageUnmap
  | phrase :: _ =>
      a <- get_aliases ;;
      if dict_mem phrase a then remove E phrase
      else
        bm <- lift (best_match a phrase) ;;
        match bm with
        | Some (key, _) => remove E key
        | None => print (WarnNoMapping phrase)
        end
  end.

(** ** [parse_run_command], [handle_run] *)

(** [p.endswith(suf)], [p.removesuffix(suf)] *)
Definition ends_with (suf p : str) : bool := starts_with (rev suf) (rev p).

Definition removesuffix (suf p : str) : str :=
  if ends_with suf p
  then firstn (List.length p - List.length suf) p
  else p.

(** [$]: at the end of the string, or before a newline that ends it. *)
Definition at_end (p : str) : bool :=
  match p with
  | [] => true
  | [c] => Ascii.eqb c newline
  | _ => false
  end.

(** [\s+] followed by [k], greedy: as many spaces as possible first, one
    fewer when what follows fails. *)
Fixpoint spaces_plus {A} (k : str -> option A) (p : str) : option A :=
  match p with
  | [] => None
  | c :: t =>
      if is_space c then
        match spaces_plus k t with
        | Some r => Some r
        | None => k t
        end
      else None
  end.

(** The group [.*] in front of [$].  [.] is any character but the newline; giving a
    character back leaves it in front of [$], which then fails. *)
Fixpoint dot_star_end (p : str) : option str :=
  match p with
  | [] => Some []
  | c :: t =>
      if Ascii.eqb c newline then (if at_end p then Some [] else None)
      else
        match dot_star_end t with
        | Some g => Some (c :: g)
        | None => None
        end
  end.

(** [(.+)$] *)
Definition dot_plus_end (p : str) : option str :=
  match dot_star_end p with
  | Some (c :: g) => Some (c :: g)
  | _ => None
  end.

(** A literal under [re.I]. *)
Fixpoint lit_ci (w p : str) : option str :=
  match w with
  | [] => Some p
  | a :: w' =>
      match p with
      | [] => None
      | c :: t => if Ascii.eqb a (lower_char c) then lit_ci w' t else None
      end
  end.

(** [re.match] of [^run\s+], a group [.*] and [$], under [re.I]: the
    group. *)
Definition match_run (p : str) : option str :=
  match lit_ci $"run" p with
  | Some rest => spaces_plus dot_star_end rest
  | None => None
  end.

Definition is_quote (c : ascii) : bool :=
  Ascii.eqb c dquote || Ascii.eqb c "'"%char.

Definition parse_run_command (user_input : str) : str * bool :=
  let bg := ends_with $"&" (strip user_input) in
  let s := strip (removesuffix $"&" (strip user_input)) in
  let phrase :=
    match match_run s with
    | Some g => g
    | None => s
    end in
  (strip_by is_quote (strip phrase), bg).

Definition handle_run (E : Env) (rest : str) : M unit :=
  let (phrase, bg) := parse_run_command rest in
  if is_empty phrase then print ErrNothingToRun
  else
    a <- get_aliases ;;
    bm <- lift (best_match a phrase) ;;
    match bm with
    | None => print (WarnNoMatch phrase)
    | Some (key, script) =>
        print (InfoLaunching key script) ;;
        try_except is_Exception
          (run_script E script (negb bg) ;; ret tt)
          (fun e =>
             match e with
             | FileNotFoundError _ => print (ErrScriptNotFound script)
             | _ => print (ErrFailedToRun e)
             end)
    end.

(** ** [_maybe_run_from_voice] *)

(** [re.search(r"\brun\s+(.+)$", text)]: the group of the leftmost match. *)
Definition run_here (prevw : bool) (p : str) : option str :=
  if boundary prevw p then
    match lit $"run" prevw p with
    | Some (_, rest) => spaces_plus dot_plus_end rest
    | None => None
    end
  else None.

Fixpoint search_run (prevw : bool) (p : str) : option str :=
  match p with
  | [] => None
  | c :: t =>
      match run_here prevw p with
      | Some g => Some g
      | None => search_run (is_word c) t
      end
  end.

(** [(w1|w2|...)$] at the start of [p]: what follows the match. *)
Fixpoint alt_end (ws : list str) (p : str) : option str :=
  match ws with
  | [] => None
  | w :: ws' =>
      match lit w false p with
      | Some (_, rest) => if at_end rest then Some rest else alt_end ws' p
      | None => alt_end ws' p
      end
  end.

(** [re.sub(r"(w1|w2|...)$", "", p)]: the leftmost match is removed; what
    follows it is the end of the string, where no word matches again. *)
Fixpoint sub_end (ws : list str) (p : str) : str :=
  match p with
  | [] => []
  | c :: t =>
      match alt_end ws p with
      | Some rest => rest
      | None => c :: sub_end ws t
      end
  end.

Definition bg_words : list str := [$"and"; $"ampersand"; $"background"].

(** Lines 113-129: the phrase and the background flag heard in [text]. *)
Definition voice_request (text : str) : option (str * bool) :=
  if is_empty text then None
  else
    match search_run false text with
    | None => None
    | Some g =>
        let phrase_raw := strip g in
        if ends_with $"and" phrase_raw
           || ends_with $"ampersand" phrase_raw
           || ends_with $"background" phrase_raw
        then Some (strip (sub_end bg_words phrase_raw), true)
        else Some (phrase_raw, false)
    end.

Definition _maybe_run_from_voice (E : Env) (text : str) : M unit :=
  match voice_request text with
  | None => ret tt
  | Some (phrase_raw, bg) =>
      print (VoiceHeard text) ;;
      let phrase := $"run " ++ phrase_raw ++ (if bg then $" &" else []) in
      handle_run E phrase
  end.


(** ** Two threads on one table

    [main] gives the one dictionary [aliases] both to the listener thread
    ([start_voice_listener], whose worker resolves what it hears with
    [best_match]) and to [repl], which runs the commands.  Neither takes a
    lock.  The interpreter switches threads between bytecodes, so between
    two accesses of one thread to the dictionary the other thread may run.
    A resolve is therefore a sequence of steps, one for each access to the
    shared dictionary. *)

(** An iterator over [aliases.keys()]: the size of the dictionary when it
    was made, and the position reached. *)
Record iterator : Type := { it_len : nat; it_pos : nat }.

Definition iter_start (d : dict) : iterator :=
  {| it_len := List.length d; it_pos := 0 |}.

(** [next(it)]: the next key, or the end; the iterator refuses to go on
    over a dictionary whose size has changed.  The position is the one in
    the list of the keys, which is the position in the entries of the
    dictionary as long as no key has been deleted since the iterator was
    made; what the iterator of the interpreter does after a deletion
    followed by an insertion (it goes by the entries, where a deleted key
    leaves a hole) is not modelled. *)
Definition iter_next (it : iterator) (d : dict)
  : res (option (str * iterator)) :=
  if List.length d =? it_len it then
    match nth_error (keys d) (it_pos it) with
    | Some k => Ok (Some (k, {| it_len := it_len it; it_pos := S (it_pos it) |}))
    | None => Ok None
    end
  else Raise (RuntimeError $"dictionary changed size during iteration").

(** Where a resolve is: before line 47, in one of the three iterations,
    at the final [aliases[key]], or done. *)
Inductive vstate : Type :=
| VStart
| VNorm (it : iterator) (norm_to_key : dict)
| VCand (it : iterator) (candidates : list cand)
| VSub (it : iterator)
| VGet (key : str)
| VDone (r : res (option (str * str))).

(** Lines 50-57, after the comprehension. *)
Definition after_norm (raw_phrase : str) (d norm_to_key : dict) : vstate :=
  let norm_raw := normalize_phrase raw_phrase in
  if dict_mem norm_raw norm_to_key then
    match getitem norm_raw norm_to_key with
    | Ok key => VGet key
    | Raise e => VDone (Raise e)
    | Hang => VDone Hang
    end
  else VCand (iter_start d) [].

(** Lines 66-71, after the loop that collects the candidates. *)
Definition after_cand (d : dict) (candidates : list cand) : vstate :=
  match candidates with
  | _ :: _ =>
      match sort_desc candidates with
      | t :: _ => VGet (snd t)
      | [] => VDone (Raise IndexError)
      end
  | [] => VSub (iter_start d)
  end.

(** One step of [best_match (aliases, raw_phrase)] on the dictionary as it
    is at that moment. *)
Definition step_resolve (raw_phrase : str) (vs : vstate) (d : dict) : vstate :=
  let norm_raw := normalize_phrase raw_phrase in
  match vs with
  | VStart =>
      match d with
      | [] => VDone (Ok None)
      | _ :: _ => VNorm (iter_start d) []
      end
  | VNorm it norm_to_key =>
      match iter_next it d with
      | Ok (Some (k, it')) =>
          VNorm it' (dict_set (normalize_phrase k) k norm_to_key)
      | Ok None => after_norm raw_phrase d norm_to_key
      | Raise e => VDone (Raise e)
      | Hang => VDone Hang
      end
  | VCand it candidates =>
      match iter_next it d with
      | Ok (Some (k, it')) =>
          let overlap := overlap_of norm_raw k in
          VCand it'
            (if (0 <? overlap)%Z
             then candidates
                    ++ [(overlap,
                         Z.of_nat (List.length (normalize_phrase k)), k)]
             else candidates)
      | Ok None => after_cand d candidates
      | Raise e => VDone (Raise e)
      | Hang => VDone Hang
      end
  | VSub it =>
      match iter_next it d with
      | Ok (Some (k, it')) =>
          if substr (normalize_phrase k) norm_raw
             || substr norm_raw (normalize_phrase k)
          then VGet k
          else VSub it'
      | Ok None => VDone (Ok None)
      | Raise e => VDone (Raise e)
      | Hang => VDone Hang
      end
  | VGet key => VDone (rbind (getitem key d) (fun v => Ok (Some (key, v))))
  | VDone r => VDone r
  end.

(** What a command of the interactive loop does to the table: the
    assignment of [handle_map], the [del] of [handle_unmap], and
    [save_config]. *)
Inductive table_op : Type :=
| Assign (phrase real : str)
| Delete (key : str)
| Save.

Record World : Type := {
  table : dict;
  saved : option dict;
  listener : vstate;
  loop : list table_op
}.

Inductive thread : Type :=
| Listener
| Loop.

Definition step_world (raw_phrase : str) (w : World) (t : thread) : World :=
  match t with
  | Listener =>
      {| table := table w; saved := saved w;
         listener := step_resolve raw_phrase (listener w) (table w);
         loop := loop w |}
  | Loop =>
      match loop w with
      | [] => w
      | Assign phrase real :: ops =>
          {| table := dict_set phrase real (table w); saved := saved w;
             listener := listener w; loop := ops |}
      | Delete key :: ops =>
          {| table := dict_del key (table w); saved := saved w;
             listener := listener w; loop := ops |}
      | Save :: ops =>
          {| table := table w; saved := Some (table w);
             listener := listener w; loop := ops |}
      end
  end.

(** A schedule: which thread runs at each step. *)
Definition run_world (raw_phrase : str) (schedule : list thread) (w : World)
  : World :=
  fold_left (step_world raw_phrase) schedule w.

(** The listener resolves [raw_phrase] while the loop runs the table
    operations [ops] on the table [d]. *)
Definition start_world (d : dict) (ops : list table_op) : World :=
  {| table := d; saved := None; listener := VStart; loop := ops |}.

(** The operations of [map phrase path] with a path that is accepted. *)
Definition map_ops (phrase real : str) : list table_op :=
  [Assign phrase real; Save].

(** ** [handle_list]

    The lines it prints, in order. *)

(** [a < b] on strings: by code points, the first difference decides and a
    proper prefix is smaller. *)
Fixpoint str_ltb (a b : str) : bool :=
  match a, b with
  | _, [] => false
  | [], _ :: _ => true
  | x :: a', y :: b' =>
      (code x <? code y)%N || ((code x =? code y)%N && str_ltb a' b')
  end.

(** The key of the sort: [kv[0].lower()]. *)
Definition list_key (kv : str * str) : str := lower (fst kv).

(** [sorted(items, key=...)] is stable: an item is put in front of what
    comes after it in the table, past the items with a strictly smaller
    key only. *)
Fixpoint insert_asc (x : str * str) (l : list (str * str))
  : list (str * str) :=
  match l with
  | [] => [x]
  | y :: l' =>
      if str_ltb (list_key y) (list_key x) then y :: insert_asc x l'
      else x :: l
  end.

Fixpoint sorted_items (l : list (str * str)) : list (str * str) :=
  match l with
  | [] => []
  | x :: l' => insert_asc x (sorted_items l')
  end.

(** [k.ljust(width)] *)
Definition ljust (width : nat) (k : str) : str :=
  k ++ repeat space (width - List.length k).

(** [max(len(k) for k in aliases.keys())] *)
Definition widest_key (aliases : dict) : nat :=
  fold_right (fun kv m => Nat.max (List.length (fst kv)) m) 0 aliases.

Definition list_line (widest : nat) (kv : str * str) : str :=
  ljust widest (fst kv) ++ $"  ->  " ++ snd kv.

Definition handle_list (aliases : dict) : list str :=
  match aliases with
  | [] =>
      [$"(no mappings yet) Use: map " ++ [dquote] ++ $"<phrase>"
        ++ [dquote] ++ $" <path>"]
  | _ :: _ =>
      let widest := widest_key aliases in
      map (list_line widest) (sorted_items aliases)
  end.

(** ** [repl] *)

(** What the loop itself prints: the two lines of the banner, the two
    farewells (the one after an end of input or a Ctrl-C at the prompt
    starts with a newline), the help text, the lines of [handle_list] and
    the unknown-command line. *)
Inductive shell_msg : Type :=
| Banner
| ConfigLine
| ByeAtEndOfInput
| Bye
| HelpText
| Listing (lines : list str)
| UnknownCommand (cmd : str).

(** The state of a session: the state of the handlers, and the lines of the
    loop, each with the number of events of the handlers that come before
    it. *)
Record Session : Type := {
  core : State;
  shell_out : list (nat * shell_msg)
}.

Definition say (m : shell_msg) (s : Session) : Session :=
  {| core := core s;
     shell_out := shell_out s ++ [(List.length (out (core s)), m)] |}.

(** [continue] (or the end of the body) and [break]. *)
Inductive control : Type :=
| Continue
| Break.

(** A handler called from the loop. *)
Definition command (m : M unit) (s : Session) : res control * Session :=
  match m (core s) with
  | (Ok _, st) => (Ok Continue, {| core := st; shell_out := shell_out s |})
  | (Raise e, st) => (Raise e, {| core := st; shell_out := shell_out s |})
  | (Hang, st) => (Hang, {| core := st; shell_out := shell_out s |})
  end.

Definition is_EOFError (e : exn) : bool :=
  match e with
  | EOFError => true
  | _ => false
  end.

(** The body of the loop from [cmd = parts[0].lower()] on. *)
Definition repl_command (E : Env) (raw : str) (parts : list str)
           (s : Session) : res control * Session :=
  match parts with
  | [] => (Raise IndexError, s)
  | p0 :: args =>
      let cmd := lower p0 in
      if mem cmd [$"exit"; $"quit"; $":q"] then (Ok Break, say Bye s)
      else if str_eqb cmd $"help" then (Ok Continue, say HelpText s)
      else if str_eqb cmd $"map" then command (handle_map E args) s
      else if str_eqb cmd $"unmap" then command (handle_unmap E args) s
      else if str_eqb cmd $"list" then
        (Ok Continue, say (Listing (handle_list (aliases (core s)))) s)
      else if str_eqb cmd $"run" || starts_with $"run " (lower raw) then
        command (handle_run E (if str_eqb cmd $"run" then skipn 4 raw
                               else raw)) s
      else if starts_with $"run " (lower raw) then
        command (handle_run E raw) s
      else (Ok Continue, say (UnknownCommand cmd) s)
  end.

(** One turn of the loop.  [shlex_split] is [shlex.split], [None] when it
    raises [ValueError]. *)
Definition repl_turn (E : Env) (shlex_split : str -> option (list str))
           (s : Session) : res control * Session :=
  match input $"> " (core s) with
  | (Ok line, st) =>
      let s1 := {| core := st; shell_out := shell_out s |} in
      let raw := strip line in
      if is_empty raw then (Ok Continue, s1)
      else
        let parts :=
          match shlex_split raw with
          | Some ps => ps
          | None => split raw
          end in
        repl_command E raw parts s1
  | (Raise e, st) =>
      let s1 := {| core := st; shell_out := shell_out s |} in
      if is_EOFError e || is_KeyboardInterrupt e
      then (Ok Break, say ByeAtEndOfInput s1)
      else (Raise e, s1)
  | (Hang, st) => (Hang, {| core := st; shell_out := shell_out s |})
  end.

(** [while True]: at most [fuel] turns, [None] when they do not suffice. *)
Fixpoint repl_loop (E : Env) (shlex_split : str -> option (list str))
         (fuel : nat) (s : Session) : option (res unit * Session) :=
  match fuel with
  | O => None
  | S fuel' =>
      match repl_turn E shlex_split s with
      | (Ok Continue, s') => repl_loop E shlex_split fuel' s'
      | (Ok Break, s') => Some (Ok tt, s')
      | (Raise e, s') => Some (Raise e, s')
      | (Hang, s') => Some (Hang, s')
      end
  end.

Definition repl (E : Env) (shlex_split : str -> option (list str))
           (fuel : nat) (st : State) : option (res unit * Session) :=
  repl_loop E shlex_split fuel
    (say ConfigLine (say Banner {| core := st; shell_out := [] |})).

(** ** [main] *)

(** [main] when neither [--list-devices] nor [--voice] is given:
    [aliases = load_config()], then [repl(aliases)]. *)
Definition main (E : Env) (shlex_split : str -> option (list str))
           (fuel : nat) (st : State) : option (res unit * Session) :=
  match (d <- load_config E ;; set_aliases d) st with
  | (Ok _, st') => repl E shlex_split fuel st'
  | (Raise e, st') => Some (Raise e, {| core := st'; shell_out := [] |})
  | (Hang, st') => Some (Hang, {| core := st'; shell_out := [] |})
  end.

(** ** Notions used to state the properties *)

(** The words of a string in the sense of [\b]: its maximal runs of word
    characters. *)
Fixpoint word_runs (p : str) : list str :=
  match p with
  | [] => []
  | c :: t =>
      if is_word c then
        if head_word t then
          match word_runs t with
          | r :: rs => (c :: r) :: rs
          | [] => [[c]]
          end
        else [c] :: word_runs t
      else word_runs t
  end.

(** The word at the start of a string and what follows it. *)
Fixpoint take_word (p : str) : str :=
  match p with
  | [] => []
  | c :: t => if is_word c then c :: take_word t else []
  end.

Fixpoint drop_word (p : str) : str :=
  match p with
  | [] => []
  | c :: t => if is_word c then drop_word t else p
  end.

(** All whitespace is single spaces; [prev] tells that a space precedes. *)
Fixpoint spaced (prev : bool) (p : str) : bool :=
  match p with
  | [] => true
  | c :: t =>
      if is_space c then Ascii.eqb c space && negb prev && spaced true t
      else spaced false t
  end.

(** The alternatives of a pattern are words: not empty, of word characters
    only. *)
Definition words_only (ws : list str) : Prop :=
  Forall (fun w => w <> [] /\ forallb is_word w = true) ws.

Definition not_in (ws : list str) (w : str) : bool := negb (mem w ws).

(** The test of the substring tier for a registered phrase [k]. *)
Definition substr_test (norm_raw k : str) : bool :=
  substr (normalize_phrase k) norm_raw || substr norm_raw (normalize_phrase k).

(** A candidate that no other candidate beats in the order of the sort. *)
Definition is_max (h : cand) (l : list cand) : Prop :=
  In h l /\ forall t, In t l -> key_ltb (sort_key h) (sort_key t) = false.

(** Tables used as examples. *)
Definition backups : dict :=
  [($"full backup", $"/b/full.py"); ($"fast backup", $"/b/fast.py");
   ($"old backup", $"/b/old.py")].

Definition twins : dict :=
  [($"the backup", $"/b/first.py"); ($"backup", $"/b/second.py")].

Definition with_empty : dict :=
  [($"backup", $"/b/backup.py"); ($"the app", $"/b/app.py")].

Definition back_first : dict :=
  [($"back", $"/b/back.py"); ($"the app", $"/b/app.py")].


(** A path that registration refuses. *)
Definition refused (E : Env) (path : str) : Prop :=
  path_exists E (resolve E (expanduser E path)) = false
  \/ path_is_dir E (resolve E (expanduser E path)) = true.

(** An environment used as an example: the directory [/scripts] with its
    files.  The interpreter ends at once with status 2 on a script that is
    missing; [forever.py] never ends and ignores SIGINT; the other scripts
    run for three seconds.  No text parses as JSON. *)
Fixpoint take_to_slash (p : str) : str :=
  match p with
  | [] => []
  | c :: t => if Ascii.eqb c "/"%char then [] else c :: take_to_slash t
  end.

Fixpoint drop_to_slash (p : str) : str :=
  match p with
  | [] => []
  | c :: t => if Ascii.eqb c "/"%char then t else drop_to_slash t
  end.

Definition basename (p : str) : str := rev (take_to_slash (rev p)).
Definition dirname (p : str) : str := rev (drop_to_slash (rev p)).

Definition scripts : list str :=
  [$"/scripts/scrape.py"; $"/scripts/comm.py"; $"/scripts/command.py";
   $"/scripts/forever.py"; $"/scripts/notes.txt"].

Definition demo_child (script : str) : Child :=
  {| child_pid := 4242;
     runs_for := if str_eqb script $"/scripts/forever.py" then None
                 else if mem script scripts then Some 3 else Some 0;
     exit_code := if mem script scripts then 0%Z else 2%Z;
     on_sigint := None;
     sigint_raises := false |}.

Definition demo_env : Env :=
  {| expanduser := fun p => p;
     resolve := fun p => p;
     path_exists := fun p => mem p scripts || str_eqb p $"/scripts";
     path_is_dir := fun p => str_eqb p $"/scripts";
     path_suffix := fun p => if ends_with $".py" p then $".py"
                             else if ends_with $".txt" p then $".txt" else [];
     path_name := basename;
     path_parent := dirname;
     sys_executable := $"/usr/bin/python3";
     os_name_nt := false;
     popen := fun cmd _ _ => Ok (demo_child (nth 1 cmd []));
     json_dumps :=
       fun d => List.concat (map (fun kv => fst kv ++ $"=" ++ snd kv ++ [newline])
                            d);
     json_loads := fun _ => Raise (ValueError $"Expecting value");
     write_text :=
       fun f _ =>
         match f with
         | Unreadable =>
             Some (IsADirectoryError $"Is a directory: ~/.script_aliases.json",
                   Unreadable)
         | _ => None
         end |}.

Definition demo_state (a : dict) (f : file) (lines : list str)
           (ctrl_c : option nat) : State :=
  {| aliases := a; config_file := f; stdin := lines; out := [];
     clock := 0;
     interrupt_at := match ctrl_c with Some t => [t] | None => [] end;
     proc := Reaped 0 |}.


(** The steps of a resolve on a table that does not change. *)
Fixpoint run_resolve (raw_phrase : str) (d : dict) (n : nat) (vs : vstate)
  : vstate :=
  match n with
  | O => vs
  | S n' => run_resolve raw_phrase d n' (step_resolve raw_phrase vs d)
  end.

Definition reaches (raw_phrase : str) (d : dict) (vs vs' : vstate) : Prop :=
  exists n, run_resolve raw_phrase d n vs = vs'.

(** The first of the candidates with the greatest key. *)
Fixpoint first_max (l : list cand) : option cand :=
  match l with
  | [] => None
  | x :: l' =>
      match first_max l' with
      | None => Some x
      | Some y => if key_ltb (sort_key x) (sort_key y) then Some y else Some x
      end
  end.

(** The candidate of a registered phrase. *)
Definition cand_of (norm_raw k : str) : cand :=
  (overlap_of norm_raw k, Z.of_nat (List.length (normalize_phrase k)), k).

(** A path that registration accepts, and the state after the warning
    that goes with an extension other than [.py]. *)
Definition accepted (E : Env) (path : str) : Prop :=
  path_exists E (resolve E (expanduser E path)) = true
  /\ path_is_dir E (resolve E (expanduser E path)) = false.

Definition warned (E : Env) (p : str) (st : State) : State :=
  if str_eqb (lower (path_suffix E p)) $".py" then st
  else add_out (Print (WarnNotPy p)) st.

(** The items of the JSON object that stands for a table. *)
Definition json_of_dict (d : dict) : json :=
  JObject (map (fun kv => (fst kv, VString (snd kv))) d).

(** An environment whose [json_loads] reads back what the [json_dumps] of
    the example environment writes: a line [phrase=path] for each entry. *)
Fixpoint demo_parse (t k v : str) (in_value : bool) : list (str * jvalue) :=
  match t with
  | [] => []
  | c :: t' =>
      if in_value then
        if Ascii.eqb c newline
        then (rev k, VString (rev v)) :: demo_parse t' [] [] false
        else demo_parse t' k (c :: v) true
      else if Ascii.eqb c "="%char then demo_parse t' k [] true
           else demo_parse t' (c :: k) [] false
  end.

Definition json_env : Env :=
  {| expanduser := expanduser demo_env; resolve := resolve demo_env;
     path_exists := path_exists demo_env; path_is_dir := path_is_dir demo_env;
     path_suffix := path_suffix demo_env; path_name := path_name demo_env;
     path_parent := path_parent demo_env;
     sys_executable := sys_executable demo_env;
     os_name_nt := os_name_nt demo_env; popen := popen demo_env;
     json_dumps := json_dumps demo_env;
     json_loads := fun t => Ok (JObject (demo_parse t [] [] false));
     write_text := write_text demo_env |}.

(** The table, the stored file and the pending input are the same in two
    states. *)
Definition same_table (st st' : State) : Prop :=
  aliases st' = aliases st /\ config_file st' = config_file st
  /\ stdin st' = stdin st.

(** A computation relates each state to the state it ends in. *)
Definition keeps {A} (R : State -> State -> Prop) (m : M A) : Prop :=
  forall st, R st (snd (m st)).

(** The example environment without an interpreter: no process can be
    created. *)
Definition no_python_env : Env :=
  {| expanduser := expanduser demo_env; resolve := resolve demo_env;
     path_exists := path_exists demo_env; path_is_dir := path_is_dir demo_env;
     path_suffix := path_suffix demo_env; path_name := path_name demo_env;
     path_parent := path_parent demo_env;
     sys_executable := sys_executable demo_env;
     os_name_nt := os_name_nt demo_env;
     popen := fun _ _ _ =>
                Raise (FileNotFoundError $"No such file: /usr/bin/python3");
     json_dumps := json_dumps demo_env;
     json_loads := json_loads demo_env;
     write_text := write_text demo_env |}.

(** The flags of the launch of a [run] command. *)
Definition launch_flags (E : Env) (bg : bool) : spawn_flags :=
  if bg then (if os_name_nt E then DetachedNT else NewSession) else Plain.

(** A string without a newline. *)
Definition plain (p : str) : Prop := Forall (fun c => c <> newline) p.

(** Not after, in the order of the listing. *)
Definition list_le (a b : str * str) : Prop :=
  str_ltb (list_key b) (list_key a) = false.

(** The table and the stored file are the same in two states. *)
Definition untouched (st st' : State) : Prop :=
  aliases st' = aliases st /\ config_file st' = config_file st.

(** The state when the wizard has asked its two questions, [lines] being
    the input that is left. *)
Definition answered (lines : list str) (st : State) : State :=
  {| aliases := aliases st; config_file := config_file st; stdin := lines;
     out := out st ++ [Input $"Phrase (e.g., Scrape Program): ";
                       Input $"Full path to script (e.g., ~/scripts/scrape.py): "];
     clock := clock st; interrupt_at := interrupt_at st; proc := proc st |}.


(** The outcome [r], [st'] of a command that, from the state [st], has
    changed the table and then saved it: the file is written with the new
    table and the command returns, or the write raises, its exception
    leaves the command and the file is as the write left it. *)
Definition saved_or_raised (E : Env) (st : State) (r : res unit)
           (st' : State) : Prop :=
  match write_text E (config_file st) (json_dumps E (aliases st')) with
  | None => r = Ok tt /\ config_file st' = Text (json_dumps E (aliases st'))
  | Some (e, f) => r = Raise e /\ config_file st' = f
  end.





(** A [shlex.split] for lines without quotes or backslashes, on which it
    splits at whitespace. *)
Definition plain_split (raw : str) : option (list str) := Some (split raw).



(** The stored file is there and does not load: it cannot be read, or
    its text does not parse, or parses to something that is no object. *)
Definition fails_to_load (E : Env) (st : State) : Prop :=
  config_file st = Unreadable
  \/ exists t e,
       config_file st = Text t
       /\ rbind (json_loads E t) config_of_json = Raise e
       /\ is_Exception e = true.

(** The events from one state to a later one, every process created
    among them being created as [P] says and every line printed being as
    [L] says. *)
Definition event_as (P : list str -> str -> spawn_flags -> Prop)
           (L : msg -> Prop) (e : event) : Prop :=
  match e with
  | Popen cmd cwd flags => P cmd cwd flags
  | Print m => L m
  | _ => True
  end.

Definition emits (P : list str -> str -> spawn_flags -> Prop)
           (L : msg -> Prop) (st st' : State) : Prop :=
  exists evs, out st' = out st ++ evs /\ Forall (event_as P L) evs.

(** Any line. *)
Definition any_line (m : msg) : Prop := True.

(** Any line but the warning of [ensure_python_script]. *)
Definition no_warning (m : msg) : Prop := forall p, m <> WarnNotPy p.


(** The interpreter on a script, in the directory of the script. *)
Definition launch_of (E : Env) (script : str) (cmd : list str) (cwd : str)
           (flags : spawn_flags) : Prop :=
  cmd = [sys_executable E; script]
  /\ cwd = path_parent E (resolve E script).

(** The write of the table [d] onto the stored file of [st] succeeds. *)
Definition writable (E : Env) (d : dict) (st : State) : Prop :=
  write_text E (config_file st) (json_dumps E d) = None.

(** * Properties *)

(** ** Strings and characters *)

Lemma str_eqb_eq (a b : str) : str_eqb a b = true <-> a = b.
Proof.
  unfold str_eqb; destruct (list_eq_dec ascii_dec a b); split; congruence.
Qed.

Lemma str_eqb_refl (a : str) : str_eqb a a = true.
Proof. now apply str_eqb_eq. Qed.

Lemma str_eqb_neq (a b : str) : str_eqb a b = false <-> a <> b.
Proof.
  unfold str_eqb; destruct (list_eq_dec ascii_dec a b); split; congruence.
Qed.

Lemma str_eqb_sym (a b : str) : str_eqb a b = str_eqb b a.
Proof.
  unfold str_eqb.
  destruct (list_eq_dec ascii_dec a b), (list_eq_dec ascii_dec b a);
    congruence.
Qed.

Lemma str_eqb_cons (a c : ascii) (x y : str) :
  str_eqb (a :: x) (c :: y) = Ascii.eqb a c && str_eqb x y.
Proof.
  destruct (Ascii.eqb a c) eqn:Hac; simpl.
  - apply Ascii.eqb_eq in Hac; subst c.
    destruct (str_eqb x y) eqn:Hxy.
    + apply str_eqb_eq in Hxy; subst; apply str_eqb_refl.
    + apply str_eqb_neq in Hxy; apply str_eqb_neq; congruence.
  - apply Ascii.eqb_neq in Hac; apply str_eqb_neq; congruence.
Qed.

Lemma mem_In (x : str) (l : list str) : mem x l = true <-> In x l.
Proof.
  unfold mem; rewrite existsb_exists; split.
  - intros [y [Hy He]]; apply str_eqb_eq in He; now subst.
  - intros H; exists x; split; [assumption | apply str_eqb_refl].
Qed.

Ltac all_chars c :=
  destruct c as [[] [] [] [] [] [] [] []]; try discriminate; reflexivity.

Lemma space_not_word (c : ascii) : is_space c = true -> is_word c = false.
Proof. all_chars c. Qed.

Lemma lower_char_idem (c : ascii) : lower_char (lower_char c) = lower_char c.
Proof. all_chars c. Qed.

Lemma is_word_lower (c : ascii) : is_word (lower_char c) = is_word c.
Proof. all_chars c. Qed.

Lemma is_space_lower (c : ascii) : is_space (lower_char c) = is_space c.
Proof. all_chars c. Qed.

Lemma lower_idem (p : str) : lower (lower p) = lower p.
Proof.
  unfold lower; rewrite map_map; apply map_ext; intros; apply lower_char_idem.
Qed.

Lemma lower_fixed (p : str) :
  Forall (fun c => lower_char c = c) p -> lower p = p.
Proof.
  induction 1 as [|c t Hc _ IH]; simpl; [reflexivity | now rewrite Hc, IH].
Qed.

(** ** [strip] *)

Section Strip.

Variable f : ascii -> bool.

Lemma rstrip_by_idem (p : str) :
  rstrip_by f (rstrip_by f p) = rstrip_by f p.
Proof.
  induction p as [|c t IH]; simpl; [reflexivity|].
  destruct (rstrip_by f t) as [|c' r] eqn:Hr.
  - destruct (f c) eqn:Hc; simpl; [reflexivity | now rewrite Hc].
  - simpl in *. now rewrite IH.
Qed.

Lemma rstrip_by_head (c : ascii) (t : str) :
  f c = false -> exists r, rstrip_by f (c :: t) = c :: r.
Proof.
  intros Hc; simpl.
  destruct (rstrip_by f t); [rewrite Hc|]; eauto.
Qed.

Lemma lstrip_by_head (p : str) :
  match lstrip_by f p with
  | [] => True
  | c :: _ => f c = false
  end.
Proof.
  induction p as [|c t IH]; simpl; [exact I|].
  destruct (f c) eqn:Hc; [exact IH | exact Hc].
Qed.

Lemma strip_by_idem (p : str) : strip_by f (strip_by f p) = strip_by f p.
Proof.
  unfold strip_by.
  pose proof (lstrip_by_head p) as H.
  destruct (lstrip_by f p) as [|c t]; [reflexivity|].
  destruct (rstrip_by_head c t H) as [r Hr].
  rewrite Hr; simpl lstrip_by; rewrite H, <- Hr.
  apply rstrip_by_idem.
Qed.

Lemma Forall_lstrip_by (Q : ascii -> Prop) (p : str) :
  Forall Q p -> Forall Q (lstrip_by f p).
Proof.
  induction 1 as [|c t Hc Ht IH]; simpl; [constructor|].
  destruct (f c); [assumption | now constructor].
Qed.

Lemma Forall_rstrip_by (Q : ascii -> Prop) (p : str) :
  Forall Q p -> Forall Q (rstrip_by f p).
Proof.
  induction 1 as [|c t Hc Ht IH]; simpl; [constructor|].
  destruct (rstrip_by f t); [destruct (f c)|]; auto.
Qed.

End Strip.

Lemma strip_idem (p : str) : strip (strip p) = strip p.
Proof. apply strip_by_idem. Qed.

Lemma Forall_strip (Q : ascii -> Prop) (p : str) :
  Forall Q p -> Forall Q (strip p).
Proof. intros; now apply Forall_rstrip_by, Forall_lstrip_by. Qed.

(** ** Words *)

Lemma head_word_app (a b : str) :
  a <> [] -> head_word (a ++ b) = head_word a.
Proof. destruct a; [congruence | reflexivity]. Qed.

Lemma word_runs_nonword (c : ascii) (t : str) :
  is_word c = false -> word_runs (c :: t) = word_runs t.
Proof. intros H; simpl; now rewrite H. Qed.

Lemma word_runs_run (run rest : str) :
  run <> [] -> forallb is_word run = true -> head_word rest = false ->
  word_runs (run ++ rest) = run :: word_runs rest.
Proof.
  induction run as [|c r IH]; [congruence|]; intros _ Hw Hr.
  simpl in Hw; apply andb_prop in Hw as [Hc Hw].
  destruct r as [|c' r'].
  - simpl; now rewrite Hc, Hr.
  - change ((c :: c' :: r') ++ rest) with (c :: (c' :: r') ++ rest).
    cbn [word_runs]; rewrite Hc, IH by (congruence || assumption).
    simpl in Hw; apply andb_prop in Hw as [Hc' _].
    simpl; now rewrite Hc'.
Qed.

Lemma take_drop_word (p : str) : take_word p ++ drop_word p = p.
Proof.
  induction p as [|c t IH]; simpl; [reflexivity|].
  destruct (is_word c); simpl; [now rewrite IH | reflexivity].
Qed.

Lemma take_word_all (p : str) : forallb is_word (take_word p) = true.
Proof.
  induction p as [|c t IH]; simpl; [reflexivity|].
  destruct (is_word c) eqn:Hc; simpl; [now rewrite Hc | reflexivity].
Qed.

Lemma drop_word_head (p : str) : head_word (drop_word p) = false.
Proof.
  induction p as [|c t IH]; simpl; [reflexivity|].
  destruct (is_word c) eqn:Hc; simpl; assumption.
Qed.

Lemma drop_word_length (p : str) : List.length (drop_word p) <= List.length p.
Proof.
  induction p as [|c t IH]; simpl; [lia|].
  destruct (is_word c); simpl; lia.
Qed.

(** Induction over a string by its words: a character that is not a word
    character, or a whole word followed by one. *)
Lemma word_induction (P : str -> Prop) :
  P [] ->
  (forall c t, is_word c = false -> P t -> P (c :: t)) ->
  (forall run rest,
      run <> [] -> forallb is_word run = true -> head_word rest = false ->
      P rest -> P (run ++ rest)) ->
  forall p, P p.
Proof.
  intros Hnil Hnon Hrun p.
  remember (List.length p) as n eqn:Hn.
  revert p Hn; induction n as [n IH] using lt_wf_ind; intros p Hn.
  destruct p as [|c t]; [exact Hnil|].
  destruct (is_word c) eqn:Hc.
  - rewrite <- (take_drop_word t).
    change (c :: take_word t ++ drop_word t)
      with ((c :: take_word t) ++ drop_word t).
    apply Hrun.
    + congruence.
    + simpl; now rewrite Hc, take_word_all.
    + apply drop_word_head.
    + apply (IH (List.length (drop_word t))); [|reflexivity].
      pose proof (drop_word_length t); simpl in Hn; lia.
  - apply Hnon; [assumption|].
    apply (IH (List.length t)); [simpl in Hn; lia | reflexivity].
Qed.

(** ** [re.sub] of a word alternation *)

Section SubWords.

Variable ws : list str.
Hypothesis Hws : words_only ws.

(** Inside a word, and in front of a character that is not a word
    character, nothing matches. *)
Lemma lit_nonword (w : str) (pw : bool) (p : str) :
  w <> [] -> forallb is_word w = true -> head_word p = false ->
  lit w pw p = None.
Proof.
  destruct w as [|a w]; [congruence|]; intros _ Hw Hp.
  simpl in Hw; apply andb_prop in Hw as [Ha _].
  destruct p as [|c t]; [reflexivity|]; simpl in *.
  destruct (Ascii.eqb a c) eqn:Hac; [|reflexivity].
  apply Ascii.eqb_eq in Hac; congruence.
Qed.

Lemma alt_b_nonword (pw : bool) (p : str) :
  head_word p = false -> alt_b ws pw p = None.
Proof.
  intros Hp; pose proof Hws as H; clear Hws.
  induction H as [|w l [Hne Hw] _ IH]; simpl; [reflexivity|].
  rewrite lit_nonword by assumption; exact IH.
Qed.

Lemma match_here_inside (p : str) : match_here ws true p = None.
Proof.
  unfold match_here, boundary.
  destruct (head_word p) eqn:Hp; simpl; [reflexivity|].
  now apply alt_b_nonword.
Qed.

Lemma match_here_nonword (p : str) :
  head_word p = false -> match_here ws false p = None.
Proof. intros Hp; unfold match_here, boundary; now rewrite Hp. Qed.

(** An alternative followed by [\b] matches at the start of a word when
    it is that word. *)
Lemma lit_run (w run rest : str) :
  forallb is_word w = true -> forallb is_word run = true ->
  head_word rest = false ->
  match lit w true (run ++ rest) with
  | Some (pw, r) => boundary pw r
  | None => false
  end = str_eqb w run.
Proof.
  revert run; induction w as [|a w IH]; intros run Hw Hrun Hrest.
  - simpl; unfold boundary; simpl.
    destruct run as [|c r]; simpl.
    + now rewrite Hrest.
    + simpl in Hrun; apply andb_prop in Hrun as [Hc _]; now rewrite Hc.
  - simpl in Hw; apply andb_prop in Hw as [Ha Hw].
    destruct run as [|c r].
    + simpl app; rewrite lit_nonword; try assumption; try congruence.
      * symmetry; apply str_eqb_neq; congruence.
      * simpl; now rewrite Ha.
    + simpl in Hrun; apply andb_prop in Hrun as [Hc Hr].
      rewrite str_eqb_cons; simpl.
      destruct (Ascii.eqb a c); simpl; [|reflexivity].
      rewrite Hc; now apply IH.
Qed.

Lemma lit_prev (w : str) (pw pw' : bool) (p : str) :
  w <> [] -> lit w pw p = lit w pw' p.
Proof. destruct w; [congruence | reflexivity]. Qed.

Lemma alt_b_run (run rest : str) :
  run <> [] -> forallb is_word run = true -> head_word rest = false ->
  alt_b ws false (run ++ rest) =
  if mem run ws then Some (List.length run) else None.
Proof.
  intros Hne Hrun Hrest; pose proof Hws as H0; clear Hws.
  induction H0 as [|w l [Hwne Hw] _ IH]; simpl; [reflexivity|].
  pose proof (lit_run w run rest Hw Hrun Hrest) as H.
  rewrite (lit_prev w false true _ Hwne).
  rewrite (str_eqb_sym run w).
  destruct (lit w true (run ++ rest)) as [[pw r]|].
  - rewrite H; destruct (str_eqb w run) eqn:He; simpl; [|exact IH].
    apply str_eqb_eq in He; now subst.
  - rewrite <- H; simpl; exact IH.
Qed.

Lemma match_here_run (run rest : str) :
  run <> [] -> forallb is_word run = true -> head_word rest = false ->
  match_here ws false (run ++ rest) =
  if mem run ws then Some (List.length run) else None.
Proof.
  intros Hne Hrun Hrest; unfold match_here, boundary.
  rewrite head_word_app by assumption.
  destruct run as [|c r]; [congruence|].
  simpl in Hrun; apply andb_prop in Hrun as [Hc Hr].
  cbn [head_word xorb]; rewrite Hc.
  apply alt_b_run; [congruence | simpl; now rewrite Hc | assumption].
Qed.

(** The scan over a word. *)
Lemma sub_scan_skip (a rest : str) :
  forallb is_word a = true ->
  sub_scan ws true (List.length a) (a ++ rest) = sub_scan ws true 0 rest.
Proof.
  induction a as [|c a IH]; intros Ha; [reflexivity|].
  simpl in Ha; apply andb_prop in Ha as [Hc Ha].
  simpl; rewrite Hc; now apply IH.
Qed.

Lemma sub_scan_inside (a rest : str) :
  forallb is_word a = true ->
  sub_scan ws true 0 (a ++ rest) = a ++ sub_scan ws true 0 rest.
Proof.
  induction a as [|c a IH]; intros Ha; [reflexivity|].
  simpl in Ha; apply andb_prop in Ha as [Hc Ha].
  change ((c :: a) ++ rest) with (c :: a ++ rest).
  cbn [sub_scan]; rewrite match_here_inside, Hc, IH by assumption.
  reflexivity.
Qed.

Lemma sub_scan_after (p : str) :
  head_word p = false -> sub_scan ws true 0 p = sub_scan ws false 0 p.
Proof.
  intros Hp; destruct p as [|c t]; [reflexivity|].
  cbn [sub_scan]; now rewrite match_here_inside, match_here_nonword.
Qed.

Lemma sub_words_nonword (c : ascii) (t : str) :
  is_word c = false -> sub_words ws (c :: t) = c :: sub_words ws t.
Proof.
  intros Hc; unfold sub_words; cbn [sub_scan].
  rewrite match_here_nonword by exact Hc; now rewrite Hc.
Qed.

Lemma sub_words_run (run rest : str) :
  run <> [] -> forallb is_word run = true -> head_word rest = false ->
  sub_words ws (run ++ rest) =
  (if mem run ws then [space] else run) ++ sub_words ws rest.
Proof.
  intros Hne Hrun Hrest; unfold sub_words.
  pose proof (match_here_run run rest Hne Hrun Hrest) as Hm.
  destruct run as [|c r]; [congruence|].
  simpl in Hrun; apply andb_prop in Hrun as [Hc Hr].
  change ((c :: r) ++ rest) with (c :: r ++ rest) in *.
  cbn [sub_scan]; rewrite Hm, Hc.
  destruct (mem (c :: r) ws).
  - cbn [List.length pred]; rewrite sub_scan_skip by assumption.
    now rewrite sub_scan_after.
  - rewrite sub_scan_inside by assumption.
    now rewrite sub_scan_after.
Qed.

Lemma sub_words_head (p : str) :
  head_word p = false -> head_word (sub_words ws p) = false.
Proof.
  intros Hp; destruct p as [|c t]; [reflexivity|].
  simpl in Hp; now rewrite sub_words_nonword.
Qed.

(** The words of the result: those of the subject outside the
    alternation. *)
Lemma word_runs_sub_words (p : str) :
  word_runs (sub_words ws p) = filter (not_in ws) (word_runs p).
Proof.
  induction p as [|c t Hc IH|run rest Hne Hrun Hrest IH]
    using word_induction.
  - reflexivity.
  - rewrite sub_words_nonword, !word_runs_nonword by assumption.
    exact IH.
  - rewrite sub_words_run, (word_runs_run _ _ Hne Hrun Hrest) by assumption.
    cbn [filter]; unfold not_in at 1.
    destruct (mem run ws); cbn [negb].
    + cbn [app]; now rewrite word_runs_nonword.
    + rewrite word_runs_run;
        [now rewrite IH | assumption | assumption |].
      now apply sub_words_head.
Qed.

(** A subject without a word of the alternation is left as it is. *)
Lemma sub_words_fixed (p : str) :
  Forall (fun w => not_in ws w = true) (word_runs p) -> sub_words ws p = p.
Proof.
  induction p as [|c t Hc IH|run rest Hne Hrun Hrest IH]
    using word_induction; intros H.
  - reflexivity.
  - rewrite sub_words_nonword by assumption.
    rewrite word_runs_nonword in H by assumption; now rewrite IH.
  - rewrite sub_words_run by assumption.
    rewrite word_runs_run in H by assumption.
    inversion H as [|? ? Hin Hrest']; subst.
    unfold not_in in Hin; apply negb_true_iff in Hin; rewrite Hin.
    now rewrite IH.
Qed.

End SubWords.

Lemma Forall_sub_scan (Q : ascii -> Prop) (ws : list str) (p : str) :
  Q space -> Forall Q p ->
  forall pw k, Forall Q (sub_scan ws pw k p).
Proof.
  intros Hs; induction 1 as [|c t Hc Ht IH]; intros pw k; simpl.
  - constructor.
  - destruct k; [destruct (match_here ws pw (c :: t))|]; auto.
Qed.

(** ** Whitespace *)

Lemma space_is_space : is_space space = true.
Proof. reflexivity. Qed.

Lemma head_word_sub_spaces (p : str) :
  head_word (sub_spaces false p) = head_word p.
Proof.
  destruct p as [|c t]; [reflexivity|]; simpl.
  destruct (is_space c) eqn:Hc; [|reflexivity].
  simpl; symmetry; now apply space_not_word.
Qed.

Lemma word_runs_sub_spaces (p : str) (b : bool) :
  word_runs (sub_spaces b p) = word_runs p.
Proof.
  revert b; induction p as [|c t IH]; intros b; [reflexivity|].
  cbn [sub_spaces]; destruct (is_space c) eqn:Hc.
  - rewrite (word_runs_nonword c t (space_not_word c Hc)).
    destruct b; [apply IH|].
    rewrite word_runs_nonword by reflexivity; apply IH.
  - cbn [word_runs]; now rewrite head_word_sub_spaces, IH.
Qed.

Lemma word_runs_lstrip (p : str) :
  word_runs (lstrip_by is_space p) = word_runs p.
Proof.
  induction p as [|c t IH]; [reflexivity|]; cbn [lstrip_by].
  destruct (is_space c) eqn:Hc; [|reflexivity].
  now rewrite IH, (word_runs_nonword c t (space_not_word c Hc)).
Qed.

Lemma head_word_rstrip (p : str) :
  head_word (rstrip_by is_space p) = head_word p.
Proof.
  destruct p as [|c t]; [reflexivity|]; simpl.
  destruct (rstrip_by is_space t); [|reflexivity].
  destruct (is_space c) eqn:Hc; [|reflexivity].
  simpl; symmetry; now apply space_not_word.
Qed.

Lemma word_runs_cons (c : ascii) (a b : str) :
  head_word a = head_word b -> word_runs a = word_runs b ->
  word_runs (c :: a) = word_runs (c :: b).
Proof. intros Hh Hw; cbn [word_runs]; now rewrite Hh, Hw. Qed.

Lemma word_runs_rstrip (p : str) :
  word_runs (rstrip_by is_space p) = word_runs p.
Proof.
  induction p as [|c t IH]; [reflexivity|].
  pose proof (head_word_rstrip t) as Hh.
  cbn [rstrip_by].
  destruct (rstrip_by is_space t) as [|c' r] eqn:Hr.
  - destruct (is_space c) eqn:Hc.
    + now rewrite (word_runs_nonword c t (space_not_word c Hc)), <- IH.
    + now apply word_runs_cons.
  - now apply word_runs_cons.
Qed.

Lemma word_runs_strip (p : str) : word_runs (strip p) = word_runs p.
Proof.
  unfold strip, strip_by; now rewrite word_runs_rstrip, word_runs_lstrip.
Qed.

Lemma word_runs_lower (p : str) :
  word_runs (lower p) = map lower (word_runs p).
Proof.
  induction p as [|c t IH]; [reflexivity|].
  assert (Hh : head_word (lower t) = head_word t)
    by (destruct t; [reflexivity | apply is_word_lower]).
  cbn [lower map word_runs]; fold (lower t).
  rewrite is_word_lower, Hh, IH.
  destruct (is_word c); [|reflexivity].
  destruct (head_word t); [|reflexivity].
  destruct (word_runs t); reflexivity.
Qed.

Lemma spaced_sub_spaces (p : str) (b : bool) :
  spaced b (sub_spaces b p) = true.
Proof.
  revert b; induction p as [|c t IH]; intros b; [reflexivity|]; simpl.
  destruct (is_space c) eqn:Hc.
  - destruct b; [apply IH|].
    simpl; apply IH.
  - simpl; rewrite Hc; apply IH.
Qed.

Lemma sub_spaces_fixed (p : str) (b : bool) :
  spaced b p = true -> sub_spaces b p = p.
Proof.
  revert b; induction p as [|c t IH]; intros b H; [reflexivity|].
  simpl in *; destruct (is_space c).
  - apply andb_prop in H as [H Ht]; apply andb_prop in H as [Hc Hb].
    apply negb_true_iff in Hb; subst b.
    apply Ascii.eqb_eq in Hc; subst c.
    now rewrite IH.
  - now rewrite IH.
Qed.

Lemma spaced_lstrip (p : str) (b : bool) :
  spaced b p = true -> spaced false (lstrip_by is_space p) = true.
Proof.
  revert b; induction p as [|c t IH]; intros b H; [reflexivity|].
  simpl in *; destruct (is_space c) eqn:Hc.
  - apply andb_prop in H as [_ Ht]; now apply (IH true).
  - simpl; now rewrite Hc.
Qed.

Lemma spaced_rstrip (p : str) (b : bool) :
  spaced b p = true -> spaced b (rstrip_by is_space p) = true.
Proof.
  revert b; induction p as [|c t IH]; intros b H; [reflexivity|].
  simpl in *; destruct (is_space c) eqn:Hc.
  - apply andb_prop in H as [H Ht]; apply IH in Ht.
    destruct (rstrip_by is_space t); [reflexivity|].
    simpl in *; rewrite Hc, H; exact Ht.
  - apply IH in H.
    destruct (rstrip_by is_space t); simpl in *; now rewrite Hc.
Qed.

Lemma Forall_sub_spaces (Q : ascii -> Prop) (p : str) :
  Q space -> Forall Q p -> forall b, Forall Q (sub_spaces b p).
Proof.
  intros Hs; induction 1 as [|c t Hc Ht IH]; intros b; simpl.
  - constructor.
  - destruct (is_space c); [destruct b|]; auto.
Qed.

(** ** [normalize_phrase] *)

Lemma articles_words : words_only articles.
Proof. repeat constructor; discriminate. Qed.

Lemma nouns_words : words_only nouns.
Proof. repeat constructor; discriminate. Qed.

Lemma not_in_fillers (w : str) :
  not_in fillers w = not_in articles w && not_in nouns w.
Proof.
  unfold not_in, fillers, mem; rewrite existsb_app; apply negb_orb.
Qed.

Lemma filter_filter {A} (f g : A -> bool) (l : list A) :
  filter g (filter f l) = filter (fun x => f x && g x) l.
Proof.
  induction l as [|x l IH]; [reflexivity|]; simpl.
  destruct (f x); simpl; [destruct (g x)|]; now rewrite IH.
Qed.

(** The words left by [normalize_phrase]: those of the phrase, in lower
    case, that are not fillers. *)
Lemma word_runs_normalize (x : str) :
  word_runs (normalize_phrase x) =
  filter (not_in fillers) (map lower (word_runs x)).
Proof.
  unfold normalize_phrase.
  rewrite word_runs_strip, word_runs_sub_spaces.
  rewrite (word_runs_sub_words nouns nouns_words).
  rewrite (word_runs_sub_words articles articles_words).
  rewrite word_runs_lower, word_runs_strip, filter_filter.
  apply filter_ext; intros w; symmetry; apply not_in_fillers.
Qed.

Lemma normalize_lower (x : str) :
  Forall (fun c => lower_char c = c) (normalize_phrase x).
Proof.
  unfold normalize_phrase.
  apply Forall_strip, Forall_sub_spaces; [reflexivity|].
  apply Forall_sub_scan; [reflexivity|].
  apply Forall_sub_scan; [reflexivity|].
  unfold lower; apply Forall_forall; intros c Hc.
  apply in_map_iff in Hc as [c' [Hc' _]]; subst c.
  apply lower_char_idem.
Qed.

Lemma normalize_spaced (x : str) : spaced false (normalize_phrase x) = true.
Proof.
  unfold normalize_phrase, strip, strip_by.
  apply spaced_rstrip, (spaced_lstrip _ false), spaced_sub_spaces.
Qed.

Lemma normalize_not_in (x : str) :
  Forall (fun w => not_in articles w = true) (word_runs (normalize_phrase x))
  /\ Forall (fun w => not_in nouns w = true) (word_runs (normalize_phrase x)).
Proof.
  rewrite word_runs_normalize; split; apply Forall_forall; intros w Hw;
    apply filter_In in Hw as [_ Hw]; rewrite not_in_fillers in Hw;
    apply andb_prop in Hw; tauto.
Qed.

Lemma normalize_idem (x : str) :
  normalize_phrase (normalize_phrase x) = normalize_phrase x.
Proof.
  destruct (normalize_not_in x) as [Ha Hn].
  pose proof (normalize_lower x) as Hl.
  pose proof (normalize_spaced x) as Hs.
  assert (Hstrip : strip (normalize_phrase x) = normalize_phrase x)
    by (unfold normalize_phrase; apply strip_idem).
  remember (normalize_phrase x) as r eqn:Hr.
  unfold normalize_phrase.
  rewrite Hstrip, (lower_fixed r Hl).
  rewrite (sub_words_fixed articles articles_words r Ha).
  rewrite (sub_words_fixed nouns nouns_words r Hn).
  rewrite (sub_spaces_fixed r false Hs).
  exact Hstrip.
Qed.


(** ** Dictionaries *)

Lemma dict_get_set_same (k v : str) (d : dict) :
  dict_get k (dict_set k v d) = Some v.
Proof.
  induction d as [|[k' v'] d IH]; simpl.
  - now rewrite str_eqb_refl.
  - destruct (str_eqb k k') eqn:He; simpl.
    + now rewrite str_eqb_refl.
    + now rewrite He.
Qed.

Lemma dict_get_set_other (k k' v : str) (d : dict) :
  k <> k' -> dict_get k (dict_set k' v d) = dict_get k d.
Proof.
  intros Hne; induction d as [|[k2 v2] d IH]; simpl.
  - apply str_eqb_neq in Hne; now rewrite Hne.
  - destruct (str_eqb k' k2) eqn:He; simpl.
    + apply str_eqb_eq in He; subst k2.
      apply str_eqb_neq in Hne; now rewrite Hne.
    + now rewrite IH.
Qed.

Lemma dict_get_In (k : str) (d : dict) :
  In k (keys d) -> exists v, dict_get k d = Some v.
Proof.
  induction d as [|[k' v'] d IH]; simpl; [tauto|].
  intros [H|H]; destruct (str_eqb k k') eqn:He; eauto.
  subst k'; now rewrite str_eqb_refl in He.
Qed.

Lemma getitem_In (k : str) (d : dict) :
  In k (keys d) -> exists v, dict_get k d = Some v /\ getitem k d = Ok v.
Proof.
  intros H; destruct (dict_get_In k d H) as [v Hv].
  exists v; unfold getitem; now rewrite Hv.
Qed.

(** The dictionary of normalized forms holds, for a normalized form, the
    last phrase that has it. *)
Lemma norm_to_key_none (n : str) (ks : list str) (d : dict) :
  (forall k, In k ks -> normalize_phrase k <> n) ->
  dict_get n (fold_left (fun d k => dict_set (normalize_phrase k) k d) ks d)
  = dict_get n d.
Proof.
  revert d; induction ks as [|k ks IH]; intros d H; [reflexivity|].
  simpl; rewrite IH by (intros; apply H; now right).
  apply dict_get_set_other; intros He; apply (H k); [now left | now symmetry].
Qed.

Lemma norm_to_key_last (n : str) (l1 l2 : list str) (K : str) :
  normalize_phrase K = n ->
  (forall k, In k l2 -> normalize_phrase k <> n) ->
  dict_get n (norm_to_key_of (l1 ++ K :: l2)) = Some K.
Proof.
  intros HK H; unfold norm_to_key_of.
  rewrite fold_left_app; simpl.
  rewrite norm_to_key_none by assumption.
  rewrite HK; apply dict_get_set_same.
Qed.

Lemma last_with (n : str) (ks : list str) :
  (exists k, In k ks /\ normalize_phrase k = n) ->
  exists l1 K l2,
    ks = l1 ++ K :: l2 /\ normalize_phrase K = n
    /\ forall k, In k l2 -> normalize_phrase k <> n.
Proof.
  induction ks as [|k ks IH]; intros [k0 [Hin Hk0]]; [contradiction|].
  destruct (existsb (fun k' => str_eqb (normalize_phrase k') n) ks) eqn:Hex.
  - apply existsb_exists in Hex as [k1 [Hin1 He]]; apply str_eqb_eq in He.
    destruct IH as [l1 [K [l2 [Hks [HK Hl2]]]]]; [eauto|].
    exists (k :: l1), K, l2; subst ks; auto.
  - assert (Hnone : forall k', In k' ks -> normalize_phrase k' <> n).
    { intros k' Hk' He.
      assert (existsb (fun k' => str_eqb (normalize_phrase k') n) ks = true)
        by (apply existsb_exists; exists k'; split;
            [assumption | now apply str_eqb_eq]).
      congruence. }
    destruct Hin as [->|Hin]; [|now apply Hnone in Hin].
    exists [], k0, ks; auto.
Qed.

(** ** The sort *)

Lemma key_ltb_irrefl (a : Z * Z) : key_ltb a a = false.
Proof. unfold key_ltb; destruct a; simpl; lia. Qed.

Lemma key_ltb_asym (a b : Z * Z) : key_ltb a b = true -> key_ltb b a = false.
Proof. unfold key_ltb; destruct a, b; simpl; lia. Qed.

Lemma key_ltb_negtrans (a b c : Z * Z) :
  key_ltb a b = false -> key_ltb b c = false -> key_ltb a c = false.
Proof. unfold key_ltb; destruct a, b, c; simpl; lia. Qed.

Lemma insert_desc_not_nil (x : cand) (l : list cand) : insert_desc x l <> [].
Proof.
  destruct l; simpl; [discriminate|].
  destruct (key_ltb (sort_key x) (sort_key c)); discriminate.
Qed.

(** The first element after the sort is a maximum. *)
Lemma sort_desc_head (l : list cand) (h : cand) (r : list cand) :
  sort_desc l = h :: r -> is_max h l.
Proof.
  revert h r; induction l as [|x l IH]; intros h r H; [discriminate|].
  simpl in H; destruct (sort_desc l) as [|y r'] eqn:Hs.
  - destruct l as [|z l]; [|simpl in Hs; now apply insert_desc_not_nil in Hs].
    simpl in H; injection H as <- _; split; [now left|].
    intros t [<-|[]]; apply key_ltb_irrefl.
  - destruct (IH y r' eq_refl) as [Hin Hmax]; simpl in H.
    destruct (key_ltb (sort_key x) (sort_key y)) eqn:Hxy;
      injection H as <- _; split.
    + now right.
    + intros t [<-|Ht]; [now apply key_ltb_asym | now apply Hmax].
    + now left.
    + intros t [<-|Ht]; [apply key_ltb_irrefl|].
      eapply key_ltb_negtrans; [exact Hxy | now apply Hmax].
Qed.

Lemma candidates_of_In (n : str) (ks : list str) (t : cand) :
  In t (candidates_of n ks) <->
  exists k, In k ks /\ (0 < overlap_of n k)%Z
            /\ t = (overlap_of n k,
                    Z.of_nat (List.length (normalize_phrase k)), k).
Proof.
  induction ks as [|k ks IH]; simpl.
  - split; [tauto | intros [k [[] _]]].
  - destruct (0 <? overlap_of n k)%Z eqn:Ho; simpl; rewrite IH; split.
    + intros [<-|[k' [Hin H]]]; [|exists k'; tauto].
      exists k; repeat split; [now left | lia].
    + intros [k' [[<-|Hin] [Hpos Ht]]]; [now left | right; eauto].
    + intros [k' [Hin H]]; exists k'; tauto.
    + intros [k' [[<-|Hin] [Hpos Ht]]]; [lia | eauto].
Qed.

(** ** [best_match] *)

Lemma keys_not_nil (aliases : dict) (k : str) :
  In k (keys aliases) -> exists e rest, aliases = e :: rest.
Proof. destruct aliases; [contradiction | eauto]. Qed.

Lemma dict_mem_norm_to_key_false (ks : list str) (n : str) :
  (forall k, In k ks -> normalize_phrase k <> n) ->
  dict_mem n (norm_to_key_of ks) = false.
Proof.
  intros H; unfold dict_mem, norm_to_key_of.
  now rewrite norm_to_key_none.
Qed.

(** The exact tier: the last phrase with the normalized form of the raw
    phrase. *)
Lemma best_match_tier1 (aliases : dict) (raw : str)
      (l1 l2 : list str) (K v : str) :
  keys aliases = l1 ++ K :: l2 ->
  normalize_phrase K = normalize_phrase raw ->
  (forall k, In k l2 -> normalize_phrase k <> normalize_phrase raw) ->
  dict_get K aliases = Some v ->
  best_match aliases raw = Ok (Some (K, v)).
Proof.
  intros Hk HK Hl2 Hv.
  destruct aliases as [|e rest]; [now destruct l1|].
  unfold best_match, match_tiers, dict_mem.
  rewrite Hk, (norm_to_key_last _ l1 l2 K HK Hl2).
  unfold getitem at 1; rewrite (norm_to_key_last _ l1 l2 K HK Hl2).
  unfold rbind at 1, getitem; now rewrite Hv.
Qed.

(** The substring tier: the first phrase, in insertion order, that passes
    the test. *)
Lemma first_substr_first (aliases : dict) (n : str)
      (l1 l2 : list str) (K v : str) :
  (forall k, In k l1 -> substr_test n k = false) ->
  substr_test n K = true ->
  dict_get K aliases = Some v ->
  first_substr aliases n (l1 ++ K :: l2) = Ok (Some (K, v)).
Proof.
  intros Hl1 HK Hv; induction l1 as [|k l1 IH]; simpl.
  - unfold substr_test in HK; rewrite HK.
    unfold getitem; now rewrite Hv.
  - pose proof (Hl1 k (or_introl eq_refl)) as Hk.
    unfold substr_test in Hk; rewrite Hk.
    apply IH; intros; apply Hl1; now right.
Qed.

Lemma first_substr_none (aliases : dict) (n : str) (ks : list str) :
  (forall k, In k ks -> substr_test n k = false) ->
  first_substr aliases n ks = Ok None.
Proof.
  induction ks as [|k ks IH]; intros H; [reflexivity|]; simpl.
  pose proof (H k (or_introl eq_refl)) as Hk.
  unfold substr_test in Hk; rewrite Hk.
  apply IH; intros; apply H; now right.
Qed.

Lemma candidates_of_nil (n : str) (ks : list str) :
  (forall k, In k ks -> overlap_of n k = 0%Z) -> candidates_of n ks = [].
Proof.
  induction ks as [|k ks IH]; intros H; [reflexivity|]; simpl.
  rewrite (H k (or_introl eq_refl)); simpl.
  apply IH; intros; apply H; now right.
Qed.

(** A raw phrase that passes the first two tiers is decided by the third. *)
Lemma best_match_tier3 (aliases : dict) (raw : str) :
  aliases <> [] ->
  (forall k, In k (keys aliases) ->
             normalize_phrase k <> normalize_phrase raw) ->
  (forall k, In k (keys aliases) ->
             overlap_of (normalize_phrase raw) k = 0%Z) ->
  best_match aliases raw
  = first_substr aliases (normalize_phrase raw) (keys aliases).
Proof.
  intros Hne H1 H2; destruct aliases as [|e rest]; [congruence|].
  unfold best_match, match_tiers.
  rewrite (dict_mem_norm_to_key_false _ _ H1).
  now rewrite (candidates_of_nil _ _ H2).
Qed.

Lemma substr_nil (a : str) : substr [] a = true.
Proof. destruct a; reflexivity. Qed.

Lemma overlap_of_nil (k : str) : overlap_of [] k = 0%Z.
Proof. reflexivity. Qed.

(** C1. In the token-overlap tier (no registered phrase has the normalized
    form of the raw phrase, and some registered phrase shares a token with
    it), [best_match] returns a registered phrase, with its path, whose
    count of tokens shared with the normalized raw phrase is positive and
    the highest of the table, and whose normalized form is, among the
    phrases with that count, of the smallest length. *)
Theorem best_match_token_overlap (aliases : dict) (raw : str) :
  (forall k, In k (keys aliases) ->
             normalize_phrase k <> normalize_phrase raw) ->
  (exists k, In k (keys aliases)
             /\ (0 < overlap_of (normalize_phrase raw) k)%Z) ->
  exists key v,
    best_match aliases raw = Ok (Some (key, v))
    /\ In key (keys aliases) /\ dict_get key aliases = Some v
    /\ (0 < overlap_of (normalize_phrase raw) key)%Z
    /\ forall k', In k' (keys aliases) ->
         (overlap_of (normalize_phrase raw) k'
          <= overlap_of (normalize_phrase raw) key)%Z
         /\ (overlap_of (normalize_phrase raw) k'
             = overlap_of (normalize_phrase raw) key ->
             List.length (normalize_phrase key)
             <= List.length (normalize_phrase k')).
Proof.
  intros H1 [k0 [Hin0 Hpos0]].
  destruct (keys_not_nil aliases k0 Hin0) as [e [rest Ha]].
  set (n := normalize_phrase raw) in *.
  assert (Hc0 : In (overlap_of n k0,
                    Z.of_nat (List.length (normalize_phrase k0)), k0)
                   (candidates_of n (keys aliases)))
    by (apply candidates_of_In; eauto).
  destruct (sort_desc (candidates_of n (keys aliases))) as [|h r] eqn:Hs.
  { destruct (candidates_of n (keys aliases)) as [|c l]; [contradiction|].
    simpl in Hs; now apply insert_desc_not_nil in Hs. }
  destruct (sort_desc_head _ h r Hs) as [Hh Hmax].
  apply candidates_of_In in Hh as [key [Hkey [Hpos Hh]]].
  destruct (getitem_In key aliases Hkey) as [v [Hv Hg]].
  exists key, v; repeat split; try assumption.
  - unfold best_match; rewrite Ha; rewrite <- Ha; unfold match_tiers; fold n.
    rewrite (dict_mem_norm_to_key_false _ _ H1).
    destruct (candidates_of n (keys aliases)) as [|c l] eqn:Hc;
      [contradiction|].
    rewrite Hs, Hh; simpl snd; now rewrite Hg.
  - assert (Hle : (overlap_of n k' <= overlap_of n key)%Z
                  \/ (overlap_of n k' = 0)%Z).
    { destruct (Z.ltb_spec 0 (overlap_of n k')); [left | right].
      - assert (Hc : In (overlap_of n k',
                         Z.of_nat (List.length (normalize_phrase k')), k')
                        (candidates_of n (keys aliases)))
          by (apply candidates_of_In; eauto).
        apply Hmax in Hc; rewrite Hh in Hc.
        unfold key_ltb, sort_key in Hc; simpl in Hc; lia.
      - unfold overlap_of in *; lia. }
    destruct Hle; lia.
  - intros He.
    assert (Hc : In (overlap_of n k',
                     Z.of_nat (List.length (normalize_phrase k')), k')
                    (candidates_of n (keys aliases))).
    { apply candidates_of_In; exists k'; repeat split; [assumption|lia]. }
    apply Hmax in Hc; rewrite Hh in Hc.
    unfold key_ltb, sort_key in Hc; simpl in Hc; lia.
Qed.

Lemma best_match_token_overlap_witness :
  exists key v,
    best_match backups $"backup now" = Ok (Some (key, v))
    /\ In key (keys backups) /\ dict_get key backups = Some v
    /\ (0 < overlap_of (normalize_phrase $"backup now") key)%Z
    /\ forall k', In k' (keys backups) ->
         (overlap_of (normalize_phrase $"backup now") k'
          <= overlap_of (normalize_phrase $"backup now") key)%Z
         /\ (overlap_of (normalize_phrase $"backup now") k'
             = overlap_of (normalize_phrase $"backup now") key ->
             List.length (normalize_phrase key)
             <= List.length (normalize_phrase k')).
Proof.
  apply (best_match_token_overlap backups $"backup now").
  - intros k [<- | [<- | [<- | [ ] ] ] ]; vm_compute; discriminate.
  - exists ($"old backup"); split; [simpl; tauto | reflexivity].
Defined.

(** The examples of the specification: the phrase with the higher overlap,
    and the shorter normalized form on equal overlap. *)
Example best_match_scrape :
  best_match [($"scrape program", $"/a.py"); ($"scrape the data", $"/b.py")]
             $"run the scrape program"
  = Ok (Some ($"scrape program", $"/a.py")).
Proof. reflexivity. Qed.

Example best_match_shorter :
  best_match backups $"backup now" = Ok (Some ($"old backup", $"/b/old.py")).
Proof. reflexivity. Qed.

(** C2, as stated, fails: with two phrases of the same normalized form,
    the phrase registered first resolves to the one registered last. *)
Lemma best_match_twin_not_itself :
  In $"the backup" (keys twins)
  /\ best_match twins $"the backup" = Ok (Some ($"backup", $"/b/second.py"))
  /\ ~ (forall (aliases : dict) (P : str),
          In P (keys aliases) ->
          exists v, best_match aliases P = Ok (Some (P, v))).
Proof.
  split; [simpl; tauto|]; split; [reflexivity|].
  intros H; destruct (H twins $"the backup") as [v Hv]; [simpl; tauto|].
  vm_compute in Hv; discriminate.
Qed.

(** C2, amended.  For a table that contains the phrase [P], [best_match]
    answers in the exact tier, with the phrase registered last among those
    whose normalized form is that of [P], and its path; the answer is [P]
    itself when no phrase registered after [P] has its normalized form. *)
Theorem best_match_registered (aliases : dict) (P : str) :
  In P (keys aliases) ->
  (exists l1 K l2 v,
      keys aliases = l1 ++ K :: l2
      /\ normalize_phrase K = normalize_phrase P
      /\ (forall k, In k l2 -> normalize_phrase k <> normalize_phrase P)
      /\ dict_get K aliases = Some v
      /\ best_match aliases P = Ok (Some (K, v)))
  /\ (forall l1 l2,
        keys aliases = l1 ++ P :: l2 ->
        (forall k, In k l2 -> normalize_phrase k <> normalize_phrase P) ->
        exists v, dict_get P aliases = Some v
                  /\ best_match aliases P = Ok (Some (P, v))).
Proof.
  intros Hin; split.
  - destruct (last_with (normalize_phrase P) (keys aliases))
      as [l1 [K [l2 [Hk [HK Hl2]]]]]; [eauto|].
    assert (HinK : In K (keys aliases))
      by (rewrite Hk; apply in_or_app; right; now left).
    destruct (dict_get_In K aliases HinK) as [v Hv].
    exists l1, K, l2, v; repeat split; try assumption.
    now apply (best_match_tier1 aliases P l1 l2 K v).
  - intros l1 l2 Hk Hl2.
    destruct (dict_get_In P aliases Hin) as [v Hv].
    exists v; split; [assumption|].
    now apply (best_match_tier1 aliases P l1 l2 P v).
Qed.

Lemma best_match_registered_witness :
  (exists l1 K l2 v,
      keys twins = l1 ++ K :: l2
      /\ normalize_phrase K = normalize_phrase $"backup"
      /\ (forall k, In k l2 -> normalize_phrase k <> normalize_phrase $"backup")
      /\ dict_get K twins = Some v
      /\ best_match twins $"backup" = Ok (Some (K, v)))
  /\ (forall l1 l2,
        keys twins = l1 ++ $"backup" :: l2 ->
        (forall k, In k l2 ->
                   normalize_phrase k <> normalize_phrase $"backup") ->
        exists v, dict_get $"backup" twins = Some v
                  /\ best_match twins $"backup" = Ok (Some ($"backup", v))).
Proof.
  apply (best_match_registered twins $"backup").
  simpl; tauto.
Defined.

Lemma dict_get_pair (k v : str) (d : dict) :
  dict_get k d = Some v -> In (k, v) d.
Proof.
  induction d as [|[k' v'] d IH]; simpl; [discriminate|].
  destruct (str_eqb k k') eqn:He; intros H.
  - apply str_eqb_eq in He; left; congruence.
  - right; now apply IH.
Qed.

Lemma first_substr_some (aliases : dict) (n : str)
      (l1 l2 : list str) (K : str) :
  (forall k, In k (l1 ++ [K]) -> exists v, dict_get k aliases = Some v) ->
  substr_test n K = true ->
  exists k v,
    first_substr aliases n (l1 ++ K :: l2) = Ok (Some (k, v))
    /\ In k (l1 ++ [K]) /\ substr_test n k = true.
Proof.
  intros Hv HK; induction l1 as [|k l1 IH]; simpl.
  - destruct (Hv K) as [v HvK]; [now left|].
    exists K, v; unfold substr_test in HK; rewrite HK.
    unfold getitem; rewrite HvK; auto.
  - destruct (substr_test n k) eqn:Hk.
    + destruct (Hv k) as [v Hvk]; [now left|].
      exists k, v; pose proof Hk as Hk'.
      unfold substr_test in Hk; rewrite Hk.
      unfold getitem; rewrite Hvk; auto.
    + destruct IH as [k' [v [Hf [Hin Ht]]]];
        [intros; apply Hv; now right|].
      exists k', v; unfold substr_test in Hk; rewrite Hk; auto.
Qed.

(** The outcome of the substring tier. *)
Lemma first_substr_cases (aliases : dict) (n : str) (ks : list str) :
  (forall k, In k ks -> In k (keys aliases)) ->
  ((forall k, In k ks -> substr_test n k = false)
   /\ first_substr aliases n ks = Ok None)
  \/ (exists l1 K l2 v,
         ks = l1 ++ K :: l2
         /\ (forall k, In k l1 -> substr_test n k = false)
         /\ substr_test n K = true
         /\ dict_get K aliases = Some v
         /\ first_substr aliases n ks = Ok (Some (K, v))).
Proof.
  induction ks as [|k ks IH]; intros Hin.
  - left; split; [intros k [] | reflexivity].
  - destruct (substr_test n k) eqn:Hk.
    + right; destruct (dict_get_In k aliases (Hin k (or_introl eq_refl)))
        as [v Hv].
      exists [], k, ks, v; repeat split; try assumption; [intros ? []|].
      apply (first_substr_first aliases n [] ks k v); auto; intros ? [].
    + destruct IH as [[Hall Hn]|[l1 [K [l2 [v [Hks [Hl1 [HK [Hv Hf]]]]]]]]].
      * intros k' Hk'; apply Hin; now right.
      * left; split; [intros k' [<-|Hk']; auto|].
        simpl; unfold substr_test in Hk; now rewrite Hk.
      * right; exists (k :: l1), K, l2, v; subst ks.
        repeat split; try assumption; [intros k' [<-|Hk']; auto|].
        apply (first_substr_first aliases n (k :: l1) l2 K v); auto.
        intros k' [<-|Hk']; auto.
Qed.

(** C10, as stated, fails twice.  A raw phrase of fillers only resolves
    in the exact tier, to a phrase that is not the first of the table, when
    a registered phrase is of fillers only; and a registered phrase with an
    empty normalized form is not returned in the substring tier when an
    earlier phrase passes the test. *)
Lemma best_match_empty_forms_not_as_stated :
  normalize_phrase $"the" = []
  /\ best_match with_empty $"the" = Ok (Some ($"the app", $"/b/app.py"))
  /\ normalize_phrase $"the app" = []
  /\ dict_mem (normalize_phrase $"backup") (norm_to_key_of (keys back_first))
     = false
  /\ candidates_of (normalize_phrase $"backup") (keys back_first) = []
  /\ best_match back_first $"backup" = Ok (Some ($"back", $"/b/back.py")).
Proof. repeat split. Qed.

(** C10, amended.  In a table that is not empty, a raw phrase whose
    normalized form is empty never resolves to none: it resolves to the
    first phrase of the table when no registered phrase has an empty
    normalized form, and otherwise, in the exact tier, to the last
    registered phrase that has one.  A raw phrase that reaches the substring
    tier of a table with a phrase [K] of empty normalized form never
    resolves to none either: it resolves to the first phrase in insertion
    order that passes the substring test - every phrase before it fails
    the test -, which is [K] or a phrase before [K], and is [K] when no
    earlier phrase passes the test. *)
Theorem best_match_empty_forms (aliases : dict) (raw : str) :
  aliases <> [] ->
  (normalize_phrase raw = [] ->
   (exists k v, best_match aliases raw = Ok (Some (k, v))
                /\ In (k, v) aliases)
   /\ ((forall k, In k (keys aliases) -> normalize_phrase k <> []) ->
       best_match aliases raw = Ok (hd_error aliases))
   /\ (forall l1 K l2 v,
         keys aliases = l1 ++ K :: l2 -> normalize_phrase K = [] ->
         (forall k, In k l2 -> normalize_phrase k <> []) ->
         dict_get K aliases = Some v ->
         best_match aliases raw = Ok (Some (K, v))))
  /\ ((forall k, In k (keys aliases) ->
                 normalize_phrase k <> normalize_phrase raw) ->
      (forall k, In k (keys aliases) ->
                 overlap_of (normalize_phrase raw) k = 0%Z) ->
      forall l1 K l2,
        keys aliases = l1 ++ K :: l2 -> normalize_phrase K = [] ->
        (exists before k after v,
            keys aliases = before ++ k :: after
            /\ (forall k', In k' before ->
                           substr_test (normalize_phrase raw) k' = false)
            /\ substr_test (normalize_phrase raw) k = true
            /\ In k (l1 ++ [K])
            /\ In (k, v) aliases
            /\ best_match aliases raw = Ok (Some (k, v)))
        /\ ((forall k, In k l1 ->
                       substr_test (normalize_phrase raw) k = false) ->
            forall v, dict_get K aliases = Some v ->
                      best_match aliases raw = Ok (Some (K, v)))).
Proof.
  intros Hne; split.
  - intros Hn.
    assert (H2 : forall k, In k (keys aliases) ->
                           overlap_of (normalize_phrase raw) k = 0%Z)
      by (intros; rewrite Hn; apply overlap_of_nil).
    assert (Hfirst : (forall k, In k (keys aliases) -> normalize_phrase k <> [])
                     -> best_match aliases raw = Ok (hd_error aliases)).
    { intros H1; rewrite best_match_tier3; try assumption.
      - destruct aliases as [|[k0 v0] rest]; [congruence|].
        rewrite Hn; simpl; rewrite substr_nil, orb_true_r.
        unfold getitem; simpl; now rewrite str_eqb_refl.
      - now rewrite Hn. }
    assert (Hlast : forall l1 K l2 v,
               keys aliases = l1 ++ K :: l2 -> normalize_phrase K = [] ->
               (forall k, In k l2 -> normalize_phrase k <> []) ->
               dict_get K aliases = Some v ->
               best_match aliases raw = Ok (Some (K, v))).
    { intros l1 K l2 v Hk HK Hl2 Hv.
      apply (best_match_tier1 aliases raw l1 l2 K v); rewrite ?Hn; auto. }
    split; [|split; assumption].
    destruct (existsb (fun k => str_eqb (normalize_phrase k) [])
                      (keys aliases)) eqn:Hex.
    + apply existsb_exists in Hex as [k1 [Hin1 He]]; apply str_eqb_eq in He.
      destruct (last_with [] (keys aliases))
        as [l1 [K [l2 [Hk [HK Hl2]]]]]; [eauto|].
      assert (HinK : In K (keys aliases))
        by (rewrite Hk; apply in_or_app; right; now left).
      destruct (dict_get_In K aliases HinK) as [v Hv].
      exists K, v; split; [now apply (Hlast l1 K l2 v)|].
      now apply dict_get_pair.
    + destruct aliases as [|[k0 v0] rest]; [congruence|].
      exists k0, v0; split; [|now left].
      apply Hfirst; intros k Hin He.
      assert (existsb (fun k => str_eqb (normalize_phrase k) [])
                      (keys ((k0, v0) :: rest)) = true)
        by (apply existsb_exists; exists k; split;
            [assumption | now apply str_eqb_eq]).
      congruence.
  - intros H1 H2 l1 K l2 Hk HK.
    rewrite best_match_tier3 by assumption.
    assert (HtK : substr_test (normalize_phrase raw) K = true)
      by (unfold substr_test; now rewrite HK, substr_nil).
    split.
    + destruct (first_substr_cases aliases (normalize_phrase raw)
                  (keys aliases))
        as [[Hall _]|[a [k [b [v [Hks [Ha [Hkt [Hv Hf]]]]]]]]]; [auto | |].
      * assert (HinK : In K (keys aliases))
          by (rewrite Hk; apply in_or_app; right; now left).
        rewrite (Hall K HinK) in HtK; discriminate.
      * exists a, k, b, v; repeat split; try assumption;
          [|now apply dict_get_pair].
        destruct (first_substr_some aliases (normalize_phrase raw) l1 l2 K)
          as [k' [v' [Hf' [Hin' _]]]]; [|exact HtK|].
        { intros k0 Hin; apply dict_get_In; rewrite Hk.
          apply in_app_or in Hin as [Hin|[<-|[]]]; apply in_or_app;
            [now left | right; now left]. }
        rewrite <- Hk, Hf in Hf'; now injection Hf' as -> _.
    + rewrite Hk; intros Hl1 v Hv; now apply first_substr_first.
Qed.

Lemma best_match_empty_forms_witness :
  best_match backups $"the" = Ok (hd_error backups)
  /\ best_match with_empty $"zzz" = Ok (Some ($"the app", $"/b/app.py"))
  /\ exists before k after v,
       keys back_first = before ++ k :: after
       /\ (forall k', In k' before ->
                      substr_test (normalize_phrase $"backup") k' = false)
       /\ substr_test (normalize_phrase $"backup") k = true
       /\ In k ([$"back"] ++ [$"the app"])
       /\ In (k, v) back_first
       /\ best_match back_first $"backup" = Ok (Some (k, v)).
Proof.
  split; [|split].
  - assert (Hne : backups <> []) by discriminate.
    destruct (best_match_empty_forms backups $"the" Hne) as [H _].
    destruct (H eq_refl) as [_ [H2 _]]; apply H2.
    intros k [<- | [<- | [<- | [ ] ] ] ]; vm_compute; discriminate.
  - assert (Hne : with_empty <> []) by discriminate.
    destruct (best_match_empty_forms with_empty $"zzz" Hne) as [_ H].
    apply (H (fun k Hk => ltac:(
                 destruct Hk as [<- | [<- | [ ] ] ];
                 vm_compute; discriminate))
             (fun k Hk => ltac:(
                 destruct Hk as [<- | [<- | [ ] ] ]; reflexivity))
             [$"backup"] $"the app" [] eq_refl eq_refl).
    + intros k [<- | [ ] ]; reflexivity.
    + reflexivity.
  - assert (Hne : back_first <> []) by discriminate.
    destruct (best_match_empty_forms back_first $"backup" Hne) as [_ H].
    exact (proj1 (H (fun k Hk => ltac:(
                       destruct Hk as [<- | [<- | [ ] ] ];
                       vm_compute; discriminate))
                    (fun k Hk => ltac:(
                       destruct Hk as [<- | [<- | [ ] ] ]; reflexivity))
                    [$"back"] $"the app" [] eq_refl eq_refl)).
Defined.

(** ** Registration and removal *)

Lemma ensure_python_script_refused (E : Env) (path : str) (st : State) :
  refused E path ->
  exists e, is_Exception e = true
            /\ ensure_python_script E path st = (Raise e, st).
Proof.
  unfold refused, ensure_python_script, raise; intros [H|H].
  - rewrite H; simpl; eexists; split; [|reflexivity]; reflexivity.
  - destruct (path_exists E (resolve E (expanduser E path))); simpl.
    + rewrite H; eexists; split; [|reflexivity]; reflexivity.
    + eexists; split; [|reflexivity]; reflexivity.
Qed.

Lemma validated_refused (E : Env) (path : str) (st : State) :
  refused E path ->
  exists e, validated E path st = (Ok None, add_out (Print (ErrExn e)) st).
Proof.
  intros H; destruct (ensure_python_script_refused E path st H)
    as [e [He Hr]].
  exists e; unfold validated, try_except, bind at 1.
  now rewrite Hr, He.
Qed.

(** C7. Registration and removal change nothing when they fail.  A [map]
    command whose path is missing or is a directory ends after printing
    the error, with the state, table and stored file included, otherwise
    as it was; so does the interactive registration, apart from the lines
    it has read; and an [unmap] of a phrase that is no key and that
    [best_match] does not resolve prints the warning and leaves the state
    otherwise as it was. *)
Theorem failed_map_unmap_change_nothing (E : Env) (st : State) :
  (forall phrase path rest,
      refused E path ->
      exists e,
        handle_map E (phrase :: path :: rest) st
        = (Ok tt, add_out (Print (ErrExn e)) st))
  /\ ((forall l1 l2 rest, stdin st = l1 :: l2 :: rest -> refused E (strip l2))
      -> aliases (snd (handle_map E [] st)) = aliases st
         /\ config_file (snd (handle_map E [] st)) = config_file st)
  /\ (forall phrase rest,
         dict_mem phrase (aliases st) = false ->
         best_match (aliases st) phrase = Ok None ->
         handle_unmap E (phrase :: rest) st
         = (Ok tt, add_out (Print (WarnNoMapping phrase)) st)).
Proof.
  split; [|split].
  - intros phrase path rest H.
    destruct (validated_refused E path st H) as [e He].
    exists e; unfold handle_map, bind; now rewrite He.
  - intros H; unfold handle_map, interactive_map, bind, input.
    destruct (stdin st) as [|l1 [|l2 rest]] eqn:Hin; simpl;
      [auto | rewrite ?Hin; simpl; auto |].
    destruct (is_empty (strip l1) || is_empty (strip l2)); [simpl; auto|].
    match goal with
    | |- context [validated E ?p ?s] =>
        destruct (validated_refused E p s (H l1 l2 rest eq_refl)) as [e He];
        rewrite He
    end.
    simpl; auto.
  - intros phrase rest Hm Hb.
    unfold handle_unmap, bind, get_aliases, lift; simpl.
    now rewrite Hm, Hb.
Qed.

Lemma failed_map_unmap_change_nothing_witness :
  (exists e,
      handle_map demo_env [$"notes"; $"/scripts/missing.py"]
                 (demo_state backups (Text $"old") [] None)
      = (Ok tt, add_out (Print (ErrExn e))
                        (demo_state backups (Text $"old") [] None)))
  /\ (exists e,
      handle_map demo_env [$"all"; $"/scripts"]
                 (demo_state backups (Text $"old") [] None)
      = (Ok tt, add_out (Print (ErrExn e))
                        (demo_state backups (Text $"old") [] None)))
  /\ aliases (snd (handle_map demo_env []
                     (demo_state backups (Text $"old")
                                 [$" notes "; $" /scripts "] None)))
     = backups
  /\ handle_unmap demo_env [$"zzz"]
                  (demo_state backups (Text $"old") [] None)
     = (Ok tt, add_out (Print (WarnNoMapping $"zzz"))
                       (demo_state backups (Text $"old") [] None)).
Proof.
  pose proof (failed_map_unmap_change_nothing demo_env
                (demo_state backups (Text $"old") [] None)) as [H1 [_ H3]].
  pose proof (failed_map_unmap_change_nothing demo_env
                (demo_state backups (Text $"old")
                            [$" notes "; $" /scripts "] None)) as [_ [H2 _]].
  split; [|split; [|split]].
  - apply H1; left; reflexivity.
  - apply H1; right; reflexivity.
  - apply H2; intros l1 l2 rest Hs; injection Hs as <- <- <-.
    right; reflexivity.
  - apply H3; reflexivity.
Defined.

(** ** [load_config] *)

(** C8. A stored file whose content does not parse (or is not an object,
    or cannot be read) loads as the empty table, with the warning printed
    and the state, the stored file included, otherwise as it was; a missing
    file loads as the empty table, silently; and no load changes the stored
    file. *)
Theorem load_config_failure (E : Env) (st : State) :
  (forall t e,
      config_file st = Text t ->
      rbind (json_loads E t) config_of_json = Raise e ->
      is_Exception e = true ->
      load_config E st = (Ok [], add_out (Print WarnParse) st))
  /\ (config_file st = Unreadable ->
      load_config E st = (Ok [], add_out (Print WarnParse) st))
  /\ (config_file st = Absent -> load_config E st = (Ok [], st))
  /\ config_file (snd (load_config E st)) = config_file st.
Proof.
  unfold load_config, bind, config_exists, try_except, read_config.
  repeat split.
  - intros t e Ht Hr He; rewrite Ht; cbv beta iota.
    rewrite Ht; cbv beta iota; rewrite Hr, He; reflexivity.
  - intros Hu; rewrite Hu; cbv beta iota; rewrite Hu; reflexivity.
  - intros Ha; rewrite Ha; reflexivity.
  - destruct (config_file st) as [| |t] eqn:Hf; cbv beta iota;
      rewrite ?Hf; simpl; try assumption.
    destruct (rbind (json_loads E t) config_of_json) as [d|e|];
      simpl; try assumption.
    destruct (is_Exception e); simpl; assumption.
Qed.

Lemma load_config_failure_witness :
  load_config demo_env (demo_state [] (Text $"{not json") [] None)
  = (Ok [], add_out (Print WarnParse)
                    (demo_state [] (Text $"{not json") [] None))
  /\ load_config demo_env (demo_state [] Absent [] None)
     = (Ok [], demo_state [] Absent [] None).
Proof.
  pose proof (load_config_failure demo_env
                (demo_state [] (Text $"{not json") [] None)) as [H1 _].
  pose proof (load_config_failure demo_env
                (demo_state [] Absent [] None)) as [_ [_ [H3 _]]].
  split.
  - apply (H1 $"{not json" (ValueError $"Expecting value")); reflexivity.
  - apply H3; reflexivity.
Defined.

(** ** Validation and launch *)


(** *** The operations on the child *)










(** A launch that is not interrupted blocks for as long as the child runs:
    it does not return for a child that never exits. *)
Example attached_launch_blocks :
  fst (run_script demo_env $"/scripts/forever.py" true
                  (demo_state [] Absent [] None)) = Hang.
Proof. reflexivity. Qed.

(** ** The voice path *)

(** C6. After the first word "run" the rest of the utterance is the
    phrase, and a last word "and", "ampersand" or "background" asks for a
    detached launch and is removed.  The code tests the letters, not the
    word: "run command" is heard as the phrase "comm" with the background
    flag, and with the phrases "comm" and "command" registered it launches
    the script of "comm", detached.  The words said on their own set the
    flag and are removed; a phrase without them is launched attached. *)
Theorem voice_suffix_letters_taken_as_background :
  voice_request $"run command" = Some ($"comm", true)
  /\ parse_run_command ($"run " ++ $"comm" ++ $" &") = ($"comm", true)
  /\ out (snd (_maybe_run_from_voice demo_env $"run command"
                 (demo_state [($"comm", $"/scripts/comm.py");
                              ($"command", $"/scripts/command.py")]
                             Absent [] None)))
     = [Print (VoiceHeard $"run command");
        Print (InfoLaunching $"comm" $"/scripts/comm.py");
        Popen [$"/usr/bin/python3"; $"/scripts/comm.py"] $"/scripts"
              NewSession;
        Print (BgStarted $"comm.py" 4242%Z)]
  /\ voice_request $"please run the backup and" = Some ($"the backup", true)
  /\ voice_request $"run scrape program" = Some ($"scrape program", false).
Proof. repeat split. Qed.

(** ** Two threads on one table *)

Section Resolve.

Variable raw : str.
Variable d : dict.

Lemma run_resolve_add (a b : nat) (vs : vstate) :
  run_resolve raw d (a + b) vs = run_resolve raw d b (run_resolve raw d a vs).
Proof. revert vs; induction a as [|a IH]; intros vs; simpl; auto. Qed.

Lemma reaches_refl (vs : vstate) : reaches raw d vs vs.
Proof. now exists 0. Qed.

Lemma reaches_trans (a b c : vstate) :
  reaches raw d a b -> reaches raw d b c -> reaches raw d a c.
Proof.
  intros [n Hn] [m Hm]; exists (n + m).
  now rewrite run_resolve_add, Hn.
Qed.

Lemma reaches_step (a c : vstate) :
  reaches raw d (step_resolve raw a d) c -> reaches raw d a c.
Proof. intros [n Hn]; now exists (S n). Qed.

Lemma iter_next_same (i : nat) :
  iter_next {| it_len := List.length d; it_pos := i |} d
  = Ok match nth_error (keys d) i with
       | Some k => Some (k, {| it_len := List.length d; it_pos := S i |})
       | None => None
       end.
Proof.
  unfold iter_next; simpl; rewrite Nat.eqb_refl.
  now destruct (nth_error (keys d) i).
Qed.

Lemma skipn_cons_nth {A} (l : list A) (i : nat) (x : A) (r : list A) :
  skipn i l = x :: r -> nth_error l i = Some x /\ skipn (S i) l = r.
Proof.
  revert i; induction l as [|y l IH]; intros i H.
  - now destruct i.
  - destruct i as [|i]; simpl in *; [injection H as -> ->; auto|].
    now apply IH.
Qed.

Lemma skipn_nil_nth {A} (l : list A) (i : nat) :
  skipn i l = [] -> nth_error l i = None.
Proof.
  revert i; induction l as [|y l IH]; intros i H.
  - now destruct i.
  - destruct i as [|i]; simpl in *; [discriminate | now apply IH].
Qed.

(** The three iterations, run to their end. *)
Lemma norm_loop (l : list str) (i : nat) (acc : dict) :
  skipn i (keys d) = l ->
  reaches raw d (VNorm {| it_len := List.length d; it_pos := i |} acc)
          (after_norm raw d
             (fold_left (fun d k => dict_set (normalize_phrase k) k d) l acc)).
Proof.
  revert i acc; induction l as [|k l IH]; intros i acc H; apply reaches_step;
    cbn [step_resolve]; rewrite iter_next_same.
  - rewrite (skipn_nil_nth _ _ H); apply reaches_refl.
  - destruct (skipn_cons_nth _ _ _ _ H) as [Hn Hs]; rewrite Hn.
    now apply IH.
Qed.

Lemma candidates_of_app (n : str) (l : list str) (k : str) :
  candidates_of n (k :: l)
  = (if (0 <? overlap_of n k)%Z
     then [(overlap_of n k, Z.of_nat (List.length (normalize_phrase k)), k)]
     else []) ++ candidates_of n l.
Proof. simpl; now destruct (0 <? overlap_of n k)%Z. Qed.

Lemma cand_loop (l : list str) (i : nat) (acc : list cand) :
  skipn i (keys d) = l ->
  reaches raw d (VCand {| it_len := List.length d; it_pos := i |} acc)
          (after_cand d (acc ++ candidates_of (normalize_phrase raw) l)).
Proof.
  revert i acc; induction l as [|k l IH]; intros i acc H; apply reaches_step;
    cbn [step_resolve]; rewrite iter_next_same.
  - rewrite (skipn_nil_nth _ _ H); simpl; rewrite app_nil_r.
    apply reaches_refl.
  - destruct (skipn_cons_nth _ _ _ _ H) as [Hn Hs]; rewrite Hn.
    rewrite candidates_of_app, app_assoc.
    destruct (0 <? overlap_of (normalize_phrase raw) k)%Z;
      rewrite ?app_nil_r; now apply IH.
Qed.

Lemma sub_loop (l : list str) (i : nat) :
  skipn i (keys d) = l ->
  reaches raw d (VSub {| it_len := List.length d; it_pos := i |})
          (VDone (first_substr d (normalize_phrase raw) l)).
Proof.
  revert i; induction l as [|k l IH]; intros i H; apply reaches_step;
    cbn [step_resolve]; rewrite iter_next_same.
  - rewrite (skipn_nil_nth _ _ H); apply reaches_refl.
  - destruct (skipn_cons_nth _ _ _ _ H) as [Hn Hs]; rewrite Hn; simpl.
    destruct (substr (normalize_phrase k) (normalize_phrase raw)
              || substr (normalize_phrase raw) (normalize_phrase k)).
    + apply reaches_step; apply reaches_refl.
    + now apply IH.
Qed.

End Resolve.

(** Left alone, the steps of a resolve give what [best_match] gives. *)
Lemma resolve_alone (raw : str) (d : dict) :
  reaches raw d VStart (VDone (best_match d raw)).
Proof.
  apply reaches_step; cbn [step_resolve].
  destruct d as [|e rest]; [apply reaches_refl|].
  change (best_match (e :: rest) raw) with (match_tiers (e :: rest) raw).
  generalize (e :: rest); clear e rest; intros d.
  eapply reaches_trans; [apply (norm_loop raw d (keys d) 0 []); reflexivity|].
  unfold after_norm, match_tiers; fold (norm_to_key_of (keys d)).
  destruct (dict_mem (normalize_phrase raw) (norm_to_key_of (keys d))).
  - destruct (getitem (normalize_phrase raw) (norm_to_key_of (keys d)));
      simpl; try apply reaches_refl.
    apply reaches_step; apply reaches_refl.
  - eapply reaches_trans; [apply (cand_loop raw d (keys d) 0 []); reflexivity|].
    unfold after_cand; cbn [app].
    destruct (candidates_of (normalize_phrase raw) (keys d)) as [|c cs].
    + apply (sub_loop raw d (keys d) 0); reflexivity.
    + destruct (sort_desc (c :: cs)); [apply reaches_refl|].
      apply reaches_step; apply reaches_refl.
Qed.

Lemma run_world_listener (raw : str) (n : nat) (w : World) :
  run_world raw (repeat Listener n) w
  = {| table := table w; saved := saved w;
       listener := run_resolve raw (table w) n (listener w);
       loop := loop w |}.
Proof.
  revert w; induction n as [|n IH]; intros w; [now destruct w|].
  unfold run_world in *; simpl; now rewrite IH.
Qed.

Lemma dict_set_length_new (k v : str) (d : dict) :
  ~ In k (keys d) -> List.length (dict_set k v d) = S (List.length d).
Proof.
  induction d as [|[k' v'] d IH]; intros H; [reflexivity|]; simpl in *.
  destruct (str_eqb k k') eqn:He.
  - apply str_eqb_eq in He; subst; tauto.
  - simpl; rewrite IH; tauto.
Qed.

(** C9, as stated, fails: nothing guards the table.  A registration by the
    loop between two steps of the listener's iteration makes the resolve
    end in an error, which is the answer of [best_match] neither on the
    table before the registration nor on the table after it. *)
Lemma resolve_races_with_registration :
  listener (run_world $"backup now" [Listener; Listener; Loop; Listener]
              (start_world backups (map_ops $"notes" $"/scripts/notes.txt")))
  = VDone (Raise (RuntimeError $"dictionary changed size during iteration"))
  /\ best_match backups $"backup now"
     = Ok (Some ($"old backup", $"/b/old.py"))
  /\ best_match (dict_set $"notes" $"/scripts/notes.txt" backups)
                $"backup now"
     = Ok (Some ($"old backup", $"/b/old.py")).
Proof. repeat split. Qed.

(** C9, amended.  The table is shared by the loop and the listener
    without a lock.  Only the loop changes the table and saves it, so what
    it saves is the table as it is at that step; a resolve of the listener
    that is left alone gives what [best_match] gives; but its accesses are
    not guarded: a registration of a new phrase by the loop after the
    first step of the listener's iteration makes the iteration fail. *)
Theorem table_shared_without_lock (raw : str) (d : dict) :
  (exists n,
      listener (run_world raw (repeat Listener n) (start_world d []))
      = VDone (best_match d raw))
  /\ (forall w,
         table (step_world raw w Listener) = table w
         /\ saved (step_world raw w Listener) = saved w)
  /\ (forall w ops,
         loop w = Save :: ops ->
         saved (step_world raw w Loop) = Some (table w))
  /\ (forall phrase real,
         d <> [] -> ~ In phrase (keys d) ->
         listener (run_world raw [Listener; Listener; Loop; Listener]
                     (start_world d (map_ops phrase real)))
         = VDone (Raise (RuntimeError
                           $"dictionary changed size during iteration"))).
Proof.
  split; [|split; [|split]].
  - destruct (resolve_alone raw d) as [n Hn]; exists n.
    now rewrite run_world_listener.
  - intros w; split; reflexivity.
  - intros w ops H; simpl; now rewrite H.
  - intros phrase real Hne Hin.
    destruct d as [|[k0 v0] rest]; [congruence|].
    unfold run_world, start_world, map_ops; cbn [fold_left].
    cbn [step_world listener table saved loop step_resolve].
    unfold iter_start; rewrite iter_next_same.
    cbn [keys map fst nth_error].
    cbn [step_world listener table saved loop step_resolve].
    unfold iter_next; cbn [it_len it_pos].
    rewrite dict_set_length_new by exact Hin.
    replace (S (List.length ((k0, v0) :: rest))
             =? List.length ((k0, v0) :: rest)) with false; [reflexivity|].
    symmetry; apply Nat.eqb_neq; lia.
Qed.

Lemma table_shared_without_lock_witness :
  (exists n,
      listener (run_world $"backup now" (repeat Listener n)
                          (start_world backups []))
      = VDone (best_match backups $"backup now"))
  /\ listener (run_world $"backup now" [Listener; Listener; Loop; Listener]
                 (start_world backups
                              (map_ops $"notes" $"/scripts/notes.txt")))
     = VDone (Raise (RuntimeError
                       $"dictionary changed size during iteration")).
Proof.
  pose proof (table_shared_without_lock $"backup now" backups)
    as [H1 [_ [_ H4]]].
  split; [exact H1|].
  apply H4; [discriminate|].
  intros [H | [H | [H | [ ] ] ] ]; discriminate.
Defined.

(** * Further properties *)

(** ** The tiers of [best_match] *)

Lemma exact_dec (n : str) (ks : list str) :
  (exists k, In k ks /\ normalize_phrase k = n)
  \/ (forall k, In k ks -> normalize_phrase k <> n).
Proof.
  destruct (existsb (fun k => str_eqb (normalize_phrase k) n) ks) eqn:Hex.
  - left; apply existsb_exists in Hex as [k [Hin He]].
    apply str_eqb_eq in He; eauto.
  - right; intros k Hin He.
    assert (existsb (fun k => str_eqb (normalize_phrase k) n) ks = true)
      by (apply existsb_exists; exists k; split;
          [assumption | now apply str_eqb_eq]).
    congruence.
Qed.

Lemma sort_desc_not_nil (l : list cand) : l <> [] -> sort_desc l <> [].
Proof. destruct l; [congruence | intros _; apply insert_desc_not_nil]. Qed.

(** The overlap tier answers with the head of the sorted candidates. *)
Lemma best_match_tier2 (aliases : dict) (raw : str) (h : cand)
      (r : list cand) :
  (forall k, In k (keys aliases) ->
             normalize_phrase k <> normalize_phrase raw) ->
  sort_desc (candidates_of (normalize_phrase raw) (keys aliases)) = h :: r ->
  best_match aliases raw
  = rbind (getitem (snd h) aliases) (fun v => Ok (Some (snd h, v))).
Proof.
  intros H1 Hs.
  destruct aliases as [|e rest]; [discriminate|].
  unfold best_match, match_tiers.
  rewrite (dict_mem_norm_to_key_false _ _ H1).
  destruct (candidates_of (normalize_phrase raw) (keys (e :: rest)))
    as [|c l] eqn:Hc; [discriminate|].
  now rewrite Hs.
Qed.

(** Every resolve ends in one of the three tiers, or without a match. *)
Lemma best_match_tiers (aliases : dict) (raw : str) :
  (exists l1 K l2 v,
      keys aliases = l1 ++ K :: l2
      /\ normalize_phrase K = normalize_phrase raw
      /\ (forall k, In k l2 -> normalize_phrase k <> normalize_phrase raw)
      /\ dict_get K aliases = Some v
      /\ best_match aliases raw = Ok (Some (K, v)))
  \/ ((forall k, In k (keys aliases) ->
                 normalize_phrase k <> normalize_phrase raw)
      /\ exists h r v,
          sort_desc (candidates_of (normalize_phrase raw) (keys aliases))
          = h :: r
          /\ In h (candidates_of (normalize_phrase raw) (keys aliases))
          /\ dict_get (snd h) aliases = Some v
          /\ best_match aliases raw = Ok (Some (snd h, v)))
  \/ ((forall k, In k (keys aliases) ->
                 normalize_phrase k <> normalize_phrase raw)
      /\ candidates_of (normalize_phrase raw) (keys aliases) = []
      /\ best_match aliases raw
         = first_substr aliases (normalize_phrase raw) (keys aliases)).
Proof.
  destruct (exact_dec (normalize_phrase raw) (keys aliases)) as [Hex|Hno].
  - left; destruct (last_with _ _ Hex) as [l1 [K [l2 [Hk [HK Hl2]]]]].
    assert (HinK : In K (keys aliases))
      by (rewrite Hk; apply in_or_app; right; now left).
    destruct (dict_get_In K aliases HinK) as [v Hv].
    exists l1, K, l2, v; repeat split; try assumption.
    now apply (best_match_tier1 aliases raw l1 l2 K v).
  - right.
    destruct (sort_desc (candidates_of (normalize_phrase raw) (keys aliases)))
      as [|h r] eqn:Hs.
    + right; split; [assumption|].
      assert (Hc : candidates_of (normalize_phrase raw) (keys aliases) = []).
      { destruct (candidates_of (normalize_phrase raw) (keys aliases))
          as [|c l] eqn:Hc; [reflexivity|].
        simpl in Hs; now apply insert_desc_not_nil in Hs. }
      split; [assumption|].
      destruct aliases as [|e rest]; [reflexivity|].
      unfold best_match, match_tiers.
      now rewrite (dict_mem_norm_to_key_false _ _ Hno), Hc.
    + left; split; [assumption|].
      destruct (sort_desc_head _ h r Hs) as [Hh _].
      pose proof Hh as Hh'.
      apply candidates_of_In in Hh' as [key [Hkey [_ Hhk]]].
      destruct (getitem_In key aliases Hkey) as [v [Hv Hg]].
      exists h, r, v; subst h; simpl snd in *.
      repeat split; try assumption.
      rewrite (best_match_tier2 aliases raw _ r Hno Hs); simpl snd.
      now rewrite Hg.
Qed.

Lemma starts_with_refl (a : str) : starts_with a a = true.
Proof.
  induction a as [|c a IH]; [reflexivity|]; simpl.
  now rewrite IH, (proj2 (Ascii.eqb_eq c c) eq_refl).
Qed.

Lemma substr_refl (a : str) : substr a a = true.
Proof. destruct a; simpl; [reflexivity|]; now rewrite starts_with_refl, (proj2 (Ascii.eqb_eq a a) eq_refl). Qed.

Lemma best_match_returns (aliases : dict) (raw : str) :
  exists r, best_match aliases raw = Ok r.
Proof.
  destruct (best_match_tiers aliases raw)
    as [[l1 [K [l2 [v [_ [_ [_ [_ H]]]]]]]]
       |[[_ [h [r [v [_ [_ [_ H]]]]]]]|[_ [_ H]]]]; eauto.
  rewrite H.
  destruct (first_substr_cases aliases (normalize_phrase raw) (keys aliases))
    as [[_ Hn]|[l1 [K [l2 [v [_ [_ [_ [_ Hf]]]]]]]]]; eauto.
Qed.

(** X1. On a table that is not changed while it is looked up - as in
    every call made from the thread of the prompt, the only thread that
    writes the table - [best_match] never raises: the lookups
    [norm_to_key[norm_raw]], [candidates[0]] and [aliases[key]] always
    succeed, so the call returns a pair or [None], and the accesses to the
    table, taken one by one on the table as it stays, end in that
    result. *)
Theorem best_match_never_raises (aliases : dict) (raw : str) :
  exists r,
    best_match aliases raw = Ok r
    /\ reaches raw aliases VStart (VDone (Ok r)).
Proof.
  destruct (best_match_returns aliases raw) as [r Hr]; exists r.
  split; [exact Hr | rewrite <- Hr; apply resolve_alone].
Qed.

(** X2. What [best_match] returns is an entry of the table, and its phrase
    is related to the raw phrase in one of the three ways of the tiers:
    the same normalized form, a token in common, or one normalized form
    inside the other. *)
Theorem best_match_sound (aliases : dict) (raw k v : str) :
  best_match aliases raw = Ok (Some (k, v)) ->
  In (k, v) aliases
  /\ (normalize_phrase k = normalize_phrase raw
      \/ (0 < overlap_of (normalize_phrase raw) k)%Z
      \/ substr_test (normalize_phrase raw) k = true).
Proof.
  intros H.
  destruct (best_match_tiers aliases raw)
    as [[l1 [K [l2 [v' [_ [HK [_ [Hv Hb]]]]]]]]
       |[[_ [h [r [v' [_ [Hh [Hv Hb]]]]]]]|[_ [_ Hb]]]];
    rewrite Hb in H.
  - injection H as <- <-; split; [now apply dict_get_pair | now left].
  - injection H as <- <-; split; [now apply dict_get_pair|].
    apply candidates_of_In in Hh as [key [_ [Hpos ->]]]; simpl; auto.
  - destruct (first_substr_cases aliases (normalize_phrase raw)
                                 (keys aliases))
      as [[_ Hn]|[l1 [K [l2 [v' [_ [_ [HK [Hv Hf]]]]]]]]]; [auto | |];
      rewrite H in *; [discriminate|].
    injection Hf as <- <-; split; [now apply dict_get_pair | auto].
Qed.

Lemma best_match_sound_witness :
  In ($"old backup", $"/b/old.py") backups
  /\ (normalize_phrase $"old backup" = normalize_phrase $"backup now"
      \/ (0 < overlap_of (normalize_phrase $"backup now") $"old backup")%Z
      \/ substr_test (normalize_phrase $"backup now") $"old backup" = true).
Proof.
  apply (best_match_sound backups $"backup now"); reflexivity.
Defined.

(** X3. [best_match] returns [None] exactly when no registered phrase
    shares a token with the normalized raw phrase and none passes the
    substring test; on the empty table in particular. *)
Theorem best_match_none_iff (aliases : dict) (raw : str) :
  best_match aliases raw = Ok None
  <-> forall k, In k (keys aliases) ->
                overlap_of (normalize_phrase raw) k = 0%Z
                /\ substr_test (normalize_phrase raw) k = false.
Proof.
  split.
  - intros H.
    destruct (best_match_tiers aliases raw)
      as [[l1 [K [l2 [v' [_ [_ [_ [_ Hb]]]]]]]]
         |[[_ [h [r [v' [_ [_ [_ Hb]]]]]]]|[_ [Hc Hb]]]];
      rewrite Hb in H; try discriminate.
    destruct (first_substr_cases aliases (normalize_phrase raw)
                                 (keys aliases))
      as [[Hall _]|[l1 [K [l2 [v' [_ [_ [_ [_ Hf]]]]]]]]]; [auto | |];
      [|rewrite H in Hf; discriminate].
    intros k Hk; split; [|now apply Hall].
    destruct (Z.ltb_spec 0 (overlap_of (normalize_phrase raw) k)) as [Hp|Hp].
    + assert (Hin : In (overlap_of (normalize_phrase raw) k,
                        Z.of_nat (List.length (normalize_phrase k)), k)
                       (candidates_of (normalize_phrase raw) (keys aliases)))
        by (apply candidates_of_In; eauto).
      rewrite Hc in Hin; contradiction.
    + unfold overlap_of in *; lia.
  - intros H.
    destruct aliases as [|e rest] eqn:Ha; [reflexivity|]; rewrite <- Ha in *.
    rewrite best_match_tier3.
    + apply first_substr_none; intros k Hk; now apply H.
    + rewrite Ha; discriminate.
    + intros k Hk He; destruct (H k Hk) as [_ Ht].
      unfold substr_test in Ht; rewrite He, substr_refl in Ht; discriminate.
    + intros k Hk; now apply H.
Qed.

(** ** Case, whitespace and fillers of the raw phrase *)

Lemma lstrip_lower (p : str) :
  lstrip_by is_space (lower p) = lower (lstrip_by is_space p).
Proof.
  induction p as [|c t IH]; [reflexivity|]; simpl.
  rewrite is_space_lower; now destruct (is_space c).
Qed.

Lemma rstrip_lower (p : str) :
  rstrip_by is_space (lower p) = lower (rstrip_by is_space p).
Proof.
  induction p as [|c t IH]; [reflexivity|]; simpl.
  fold (lower t); rewrite IH, is_space_lower.
  destruct (rstrip_by is_space t); simpl; [now destruct (is_space c)|].
  reflexivity.
Qed.

Lemma strip_lower (p : str) : strip (lower p) = lower (strip p).
Proof. unfold strip, strip_by; now rewrite lstrip_lower, rstrip_lower. Qed.

Lemma normalize_of_lower (x : str) :
  normalize_phrase (lower x) = normalize_phrase x.
Proof. unfold normalize_phrase; now rewrite strip_lower, lower_idem. Qed.

Lemma normalize_of_strip (x : str) :
  normalize_phrase (strip x) = normalize_phrase x.
Proof. unfold normalize_phrase; now rewrite strip_idem. Qed.

Lemma best_match_same_normal (aliases : dict) (raw raw' : str) :
  normalize_phrase raw = normalize_phrase raw' ->
  best_match aliases raw = best_match aliases raw'.
Proof.
  intros H; unfold best_match, match_tiers; now rewrite H.
Qed.

(** X4. The answer of [best_match] depends on the raw phrase through its
    normalized form only: the case of its letters, the whitespace around
    it and its filler words do not matter, and resolving the normalized
    phrase gives the same answer. *)
Theorem best_match_ignores_case_and_fillers (aliases : dict) (raw : str) :
  best_match aliases (lower raw) = best_match aliases raw
  /\ best_match aliases (strip raw) = best_match aliases raw
  /\ best_match aliases (normalize_phrase raw) = best_match aliases raw
  /\ forall raw', normalize_phrase raw' = normalize_phrase raw ->
                  best_match aliases raw' = best_match aliases raw.
Proof.
  repeat split; try intros raw' H; apply best_match_same_normal;
    auto using normalize_of_lower, normalize_of_strip, normalize_idem.
Qed.

(** ** The order of the sort *)

Lemma key_ltb_trans (a b c : Z * Z) :
  key_ltb a b = true -> key_ltb b c = true -> key_ltb a c = true.
Proof. unfold key_ltb; destruct a, b, c; simpl; lia. Qed.

Lemma key_ltb_lt_le (a b c : Z * Z) :
  key_ltb a b = true -> key_ltb c b = false -> key_ltb c a = false.
Proof. unfold key_ltb; destruct a, b, c; simpl; lia. Qed.

Lemma sort_desc_first_max (l : list cand) :
  hd_error (sort_desc l) = first_max l.
Proof.
  induction l as [|x l IH]; [reflexivity|]; simpl.
  rewrite <- IH; destruct (sort_desc l) as [|y s]; [reflexivity|]; simpl.
  now destruct (key_ltb (sort_key x) (sort_key y)).
Qed.

Lemma first_max_none (l : list cand) : first_max l = None -> l = [].
Proof.
  destruct l as [|x l]; [reflexivity|]; simpl.
  destruct (first_max l); [|discriminate].
  destruct (key_ltb (sort_key x) (sort_key c)); discriminate.
Qed.

(** The first maximum: what stands before it is smaller, what stands
    after it is not greater. *)
Lemma first_max_split (l : list cand) (h : cand) :
  first_max l = Some h ->
  exists a b,
    l = a ++ h :: b
    /\ (forall t, In t a -> key_ltb (sort_key t) (sort_key h) = true)
    /\ (forall t, In t b -> key_ltb (sort_key h) (sort_key t) = false).
Proof.
  revert h; induction l as [|x l IH]; intros h H; [discriminate|].
  simpl in H; destruct (first_max l) as [y|] eqn:Hy.
  - destruct (IH y eq_refl) as [a [b [Hl [Ha Hb]]]].
    destruct (key_ltb (sort_key x) (sort_key y)) eqn:Hxy;
      injection H as <-.
    + exists (x :: a), b; subst l; repeat split; auto.
      intros t [<-|Ht]; auto.
    + exists [], l; repeat split; [intros t []|].
      intros t Ht; subst l; apply in_app_or in Ht as [Ht|[<-|Ht]].
      * eapply key_ltb_lt_le; [now apply Ha | exact Hxy].
      * exact Hxy.
      * eapply key_ltb_negtrans; [exact Hxy | now apply Hb].
  - injection H as <-; apply first_max_none in Hy; subst l.
    exists [], []; repeat split; intros t [].
Qed.

Lemma candidates_of_split (n : str) (ks : list str) (a b : list cand)
      (h : cand) :
  candidates_of n ks = a ++ h :: b ->
  exists l1 k l2,
    ks = l1 ++ k :: l2 /\ h = cand_of n k /\ (0 < overlap_of n k)%Z
    /\ a = candidates_of n l1 /\ b = candidates_of n l2.
Proof.
  revert a; induction ks as [|k ks IH]; intros a H.
  - now destruct a.
  - simpl in H; destruct (0 <? overlap_of n k)%Z eqn:Ho.
    + destruct a as [|c a]; simpl in H; injection H as Hc Hrest.
      * exists [], k, ks; repeat split; auto; lia.
      * destruct (IH a Hrest) as [l1 [k' [l2 [Hks [Hh [Hp [Ha Hb]]]]]]].
        exists (k :: l1), k', l2; subst; simpl; rewrite Ho; auto.
    + destruct (IH a H) as [l1 [k' [l2 [Hks [Hh [Hp [Ha Hb]]]]]]].
      exists (k :: l1), k', l2; subst; simpl; rewrite Ho; auto.
Qed.

(** X5. In the token-overlap tier the phrase returned is the first, in
    insertion order, of the best: every phrase registered before it has a
    smaller overlap, or the same overlap and a longer normalized form;
    no phrase registered after it is better. *)
Theorem best_match_first_of_the_best (aliases : dict) (raw : str) :
  (forall k, In k (keys aliases) ->
             normalize_phrase k <> normalize_phrase raw) ->
  (exists k, In k (keys aliases)
             /\ (0 < overlap_of (normalize_phrase raw) k)%Z) ->
  exists l1 key l2 v,
    keys aliases = l1 ++ key :: l2
    /\ best_match aliases raw = Ok (Some (key, v))
    /\ (forall k, In k l1 ->
          (overlap_of (normalize_phrase raw) k
           < overlap_of (normalize_phrase raw) key)%Z
          \/ (overlap_of (normalize_phrase raw) k
              = overlap_of (normalize_phrase raw) key
              /\ List.length (normalize_phrase key)
                 < List.length (normalize_phrase k)))
    /\ (forall k, In k l2 ->
          (overlap_of (normalize_phrase raw) k
           < overlap_of (normalize_phrase raw) key)%Z
          \/ (overlap_of (normalize_phrase raw) k
              = overlap_of (normalize_phrase raw) key
              /\ List.length (normalize_phrase key)
                 <= List.length (normalize_phrase k))).
Proof.
  intros H1 [k0 [Hin0 Hpos0]].
  set (n := normalize_phrase raw) in *.
  destruct (sort_desc (candidates_of n (keys aliases))) as [|h r] eqn:Hs.
  { exfalso; apply (sort_desc_not_nil (candidates_of n (keys aliases)));
      [|assumption].
    intros Hc.
    assert (Hin : In (cand_of n k0) (candidates_of n (keys aliases)))
      by (apply candidates_of_In; exists k0; auto).
    rewrite Hc in Hin; contradiction. }
  pose proof (sort_desc_first_max (candidates_of n (keys aliases))) as Hf.
  rewrite Hs in Hf; simpl in Hf; symmetry in Hf.
  destruct (first_max_split _ h Hf) as [a [b [Hc [Ha Hb]]]].
  destruct (candidates_of_split n _ a b h Hc)
    as [l1 [key [l2 [Hks [Hh [Hpos [Hal Hbl]]]]]]].
  assert (Hkey : In key (keys aliases))
    by (rewrite Hks; apply in_or_app; right; now left).
  destruct (getitem_In key aliases Hkey) as [v [Hv Hg]].
  exists l1, key, l2, v; split; [assumption|]; split.
  - rewrite (best_match_tier2 aliases raw h r H1 Hs), Hh; simpl snd.
    now rewrite Hg.
  - subst h a b; unfold cand_of, key_ltb, sort_key in *; simpl in *.
    split; intros k Hk;
      destruct (Z.ltb_spec 0 (overlap_of n k)) as [Hp|Hp];
      try (left; lia).
    + assert (In (overlap_of n k,
                  Z.of_nat (List.length (normalize_phrase k)), k)
                 (candidates_of n l1))
        by (apply candidates_of_In; exists k; auto).
      apply Ha in H; simpl in H; lia.
    + assert (In (overlap_of n k,
                  Z.of_nat (List.length (normalize_phrase k)), k)
                 (candidates_of n l2))
        by (apply candidates_of_In; exists k; auto).
      apply Hb in H; simpl in H; lia.
Qed.

Lemma best_match_first_of_the_best_witness :
  exists l1 key l2 v,
    keys backups = l1 ++ key :: l2
    /\ best_match backups $"fast" = Ok (Some (key, v))
    /\ (forall k, In k l1 ->
          (overlap_of (normalize_phrase $"fast") k
           < overlap_of (normalize_phrase $"fast") key)%Z
          \/ (overlap_of (normalize_phrase $"fast") k
              = overlap_of (normalize_phrase $"fast") key
              /\ List.length (normalize_phrase key)
                 < List.length (normalize_phrase k)))
    /\ (forall k, In k l2 ->
          (overlap_of (normalize_phrase $"fast") k
           < overlap_of (normalize_phrase $"fast") key)%Z
          \/ (overlap_of (normalize_phrase $"fast") k
              = overlap_of (normalize_phrase $"fast") key
              /\ List.length (normalize_phrase key)
                 <= List.length (normalize_phrase k))).
Proof.
  apply (best_match_first_of_the_best backups $"fast").
  - intros k [<- | [<- | [<- | [ ] ] ] ]; vm_compute; discriminate.
  - exists ($"fast backup"); split; [simpl; tauto | reflexivity].
Defined.

(** ** The shape of a normalized phrase *)

Lemma spaced_all (p : str) (b : bool) :
  spaced b p = true -> Forall (fun c => is_space c = true -> c = space) p.
Proof.
  revert b; induction p as [|c t IH]; intros b H; [constructor|].
  simpl in H; destruct (is_space c) eqn:Hc.
  - apply andb_prop in H as [H Ht]; apply andb_prop in H as [He _].
    apply Ascii.eqb_eq in He; constructor; [auto | eapply IH; eauto].
  - constructor; [congruence | eapply IH; eauto].
Qed.

Lemma spaced_no_double (a t : str) (b : bool) :
  spaced b (a ++ space :: space :: t) = false.
Proof.
  revert b; induction a as [|c a IH]; intros b; simpl.
  - now rewrite andb_false_r.
  - destruct (is_space c); [|apply IH].
    rewrite IH; apply andb_false_r.
Qed.

Lemma strip_by_no_lead (f : ascii -> bool) (p : str) (c : ascii) (t : str) :
  f c = true -> strip_by f p <> c :: t.
Proof.
  intros Hc H; unfold strip_by in H.
  pose proof (lstrip_by_head f p) as Hh.
  destruct (lstrip_by f p) as [|c' t']; [discriminate|].
  destruct (rstrip_by_head f c' t' Hh) as [r Hr].
  rewrite Hr in H; injection H as -> _; congruence.
Qed.

Lemma rstrip_by_no_trail (f : ascii -> bool) (p : str) (c : ascii) (t : str) :
  f c = true -> rstrip_by f p <> t ++ [c].
Proof.
  intros Hc; revert t; induction p as [|x p IH]; intros t H; simpl in H.
  - now destruct t.
  - destruct (rstrip_by f p) as [|y r] eqn:Hr.
    + destruct (f x) eqn:Hx; [now destruct t|].
      destruct t as [|z t]; simpl in H; [injection H as ->; congruence|].
      injection H as _ H; now destruct t.
    + destruct t as [|z t]; simpl in H; [discriminate|].
      injection H as _ H; now apply (IH t).
Qed.

(** X6. A normalized phrase is in lower case, its only whitespace is the
    space character, no two spaces follow each other, and it neither
    starts nor ends with a space. *)
Theorem normalize_shape (x : str) :
  lower (normalize_phrase x) = normalize_phrase x
  /\ Forall (fun c => is_space c = true -> c = space) (normalize_phrase x)
  /\ (forall a b, normalize_phrase x <> a ++ space :: space :: b)
  /\ (forall t, normalize_phrase x <> space :: t)
  /\ (forall t, normalize_phrase x <> t ++ [space]).
Proof.
  split; [apply lower_fixed, normalize_lower|].
  split; [apply (spaced_all _ false), normalize_spaced|].
  split; [|split].
  - intros a b H; pose proof (normalize_spaced x) as Hs.
    rewrite H, spaced_no_double in Hs; discriminate.
  - intros t; unfold normalize_phrase; now apply strip_by_no_lead.
  - intros t; unfold normalize_phrase, strip, strip_by.
    now apply rstrip_by_no_trail.
Qed.

(** ** Registration and removal, when they succeed *)

Lemma ensure_python_script_accepted (E : Env) (path : str) (st : State) :
  accepted E path ->
  ensure_python_script E path st
  = (Ok (resolve E (expanduser E path)),
     warned E (resolve E (expanduser E path)) st).
Proof.
  intros [H1 H2]; unfold ensure_python_script, warned.
  rewrite H1, H2; simpl; unfold bind, ret, print, emit.
  match goal with
  | |- context [if ?b then _ else _] => destruct b
  end; reflexivity.
Qed.

Lemma handle_map_accepted (E : Env) (phrase path : str) (rest : list str)
      (st : State) :
  accepted E path ->
  handle_map E (phrase :: path :: rest) st
  = register E phrase (resolve E (expanduser E path))
             (warned E (resolve E (expanduser E path)) st).
Proof.
  intros H; unfold handle_map, validated, try_except, bind at 1 2.
  now rewrite (ensure_python_script_accepted E path st H).
Qed.

Lemma warned_fields (E : Env) (p : str) (st : State) :
  aliases (warned E p st) = aliases st
  /\ config_file (warned E p st) = config_file st
  /\ stdin (warned E p st) = stdin st.
Proof. unfold warned; destruct (str_eqb _ _); simpl; auto. Qed.

Lemma keys_dict_set (k v : str) (d : dict) :
  keys (dict_set k v d)
  = if dict_mem k d then keys d else keys d ++ [k].
Proof.
  unfold dict_mem; induction d as [|[k' v'] d IH]; simpl; [reflexivity|].
  destruct (str_eqb k k') eqn:He; simpl.
  - apply str_eqb_eq in He; now subst.
  - rewrite IH; now destruct (dict_get k d).
Qed.

Lemma register_state (E : Env) (phrase real : str) (st : State) :
  register E phrase real st
  = match write_text E (config_file st)
            (json_dumps E (dict_set phrase real (aliases st))) with
    | None =>
        (Ok tt,
         add_out (Print (OkMapped phrase real))
           {| aliases := dict_set phrase real (aliases st);
              config_file :=
                Text (json_dumps E (dict_set phrase real (aliases st)));
              stdin := stdin st; out := out st; clock := clock st;
              interrupt_at := interrupt_at st; proc := proc st |})
    | Some (e, f) =>
        (Raise e,
         {| aliases := dict_set phrase real (aliases st);
            config_file := f;
            stdin := stdin st; out := out st; clock := clock st;
            interrupt_at := interrupt_at st; proc := proc st |})
    end.
Proof.
  unfold register, save_config, write_config, bind, get_aliases,
    set_aliases, print, emit, set_config_file; simpl.
  destruct (write_text E (config_file st)
              (json_dumps E (dict_set phrase real (aliases st))))
    as [[e f]|]; reflexivity.
Qed.

(** X7. A [map] command with an accepted path registers the phrase in the
    table: the phrase then maps to the resolved path, every other phrase
    maps to what it mapped to before, and the phrases keep their order (a
    new phrase comes last, a phrase that was registered keeps its place).
    The command then writes the file: when the write succeeds the command
    returns and the file holds the new table; when the write raises, the
    exception leaves the command, the table changed all the same. *)
Theorem handle_map_registers (E : Env) (phrase path : str)
        (rest : list str) (st : State) :
  accepted E path ->
  aliases (snd (handle_map E (phrase :: path :: rest) st))
  = dict_set phrase (resolve E (expanduser E path)) (aliases st)
  /\ dict_get phrase (aliases (snd (handle_map E (phrase :: path :: rest) st)))
     = Some (resolve E (expanduser E path))
  /\ (forall k, k <> phrase ->
        dict_get k (aliases (snd (handle_map E (phrase :: path :: rest) st)))
        = dict_get k (aliases st))
  /\ keys (aliases (snd (handle_map E (phrase :: path :: rest) st)))
     = (if dict_mem phrase (aliases st) then keys (aliases st)
        else keys (aliases st) ++ [phrase])
  /\ (writable E (dict_set phrase (resolve E (expanduser E path))
                           (aliases st)) st ->
      fst (handle_map E (phrase :: path :: rest) st) = Ok tt
      /\ config_file (snd (handle_map E (phrase :: path :: rest) st))
         = Text (json_dumps E
                   (dict_set phrase (resolve E (expanduser E path))
                             (aliases st))))
  /\ (forall e f,
        write_text E (config_file st)
          (json_dumps E (dict_set phrase (resolve E (expanduser E path))
                                  (aliases st)))
        = Some (e, f) ->
        fst (handle_map E (phrase :: path :: rest) st) = Raise e
        /\ config_file (snd (handle_map E (phrase :: path :: rest) st)) = f).
Proof.
  intros H; rewrite (handle_map_accepted E phrase path rest st H).
  destruct (warned_fields E (resolve E (expanduser E path)) st)
    as [Ha [Hc Hs]].
  rewrite register_state, Ha, Hc; unfold writable.
  destruct (write_text E (config_file st)
              (json_dumps E (dict_set phrase (resolve E (expanduser E path))
                                      (aliases st))))
    as [[e f]|]; cbn [fst snd aliases config_file add_out].
  - split; [reflexivity|].
    split; [apply dict_get_set_same|].
    split; [intros k Hk; now apply dict_get_set_other|].
    split; [apply keys_dict_set|].
    split; [discriminate|].
    intros e' f' Heq; injection Heq as <- <-; split; reflexivity.
  - split; [reflexivity|].
    split; [apply dict_get_set_same|].
    split; [intros k Hk; now apply dict_get_set_other|].
    split; [apply keys_dict_set|].
    split; [intros _; split; reflexivity | discriminate].
Qed.

Lemma handle_map_registers_witness :
  aliases (snd (handle_map demo_env [$"notes"; $"/scripts/notes.txt"]
                           (demo_state backups Absent [] None)))
  = backups ++ [($"notes", $"/scripts/notes.txt")]
  /\ fst (handle_map demo_env [$"notes"; $"/scripts/notes.txt"]
                     (demo_state backups Absent [] None)) = Ok tt
  /\ fst (handle_map demo_env [$"notes"; $"/scripts/notes.txt"]
                     (demo_state backups Unreadable [] None))
     = Raise (IsADirectoryError $"Is a directory: ~/.script_aliases.json")
  /\ aliases (snd (handle_map demo_env [$"notes"; $"/scripts/notes.txt"]
                              (demo_state backups Unreadable [] None)))
     = backups ++ [($"notes", $"/scripts/notes.txt")].
Proof.
  destruct (handle_map_registers demo_env $"notes" $"/scripts/notes.txt" []
              (demo_state backups Absent [] None))
    as [H1 [_ [_ [_ [H2 _]]]]]; [split; reflexivity|].
  destruct (handle_map_registers demo_env $"notes" $"/scripts/notes.txt" []
              (demo_state backups Unreadable [] None))
    as [H3 [_ [_ [_ [_ H4]]]]]; [split; reflexivity|].
  split; [exact H1|].
  split; [exact (proj1 (H2 eq_refl))|].
  split; [exact (proj1 (H4 _ _ eq_refl)) | exact H3].
Defined.

Lemma dict_get_del_other (k k' : str) (d : dict) :
  k <> k' -> dict_get k (dict_del k' d) = dict_get k d.
Proof.
  intros Hne; induction d as [|[k2 v2] d IH]; simpl; [reflexivity|].
  destruct (str_eqb k' k2) eqn:He; simpl.
  - apply str_eqb_eq in He; subst k2.
    apply str_eqb_neq in Hne; now rewrite Hne.
  - now rewrite IH.
Qed.

Lemma dict_get_not_In (k : str) (d : dict) :
  ~ In k (keys d) -> dict_get k d = None.
Proof.
  induction d as [|[k' v'] d IH]; simpl; [reflexivity|]; intros H.
  destruct (str_eqb k k') eqn:He; [apply str_eqb_eq in He; subst; tauto|].
  apply IH; tauto.
Qed.

Lemma dict_get_del_same (k : str) (d : dict) :
  NoDup (keys d) -> dict_get k (dict_del k d) = None.
Proof.
  induction d as [|[k' v'] d IH]; simpl; [reflexivity|]; intros H.
  inversion H as [|? ? Hnin Hnd]; subst.
  destruct (str_eqb k k') eqn:He; simpl.
  - apply str_eqb_eq in He; subst; now apply dict_get_not_In.
  - rewrite He; now apply IH.
Qed.

Lemma dict_mem_In (k : str) (d : dict) :
  dict_mem k d = true <-> In k (keys d).
Proof.
  unfold dict_mem; split.
  - intros H; destruct (dict_get k d) as [v|] eqn:Hv; [|discriminate].
    apply dict_get_pair in Hv; apply in_map_iff; now exists (k, v).
  - intros H; destruct (dict_get_In k d H) as [v Hv]; now rewrite Hv.
Qed.

Lemma handle_unmap_key (E : Env) (phrase : str) (rest : list str)
      (st : State) :
  dict_mem phrase (aliases st) = true ->
  handle_unmap E (phrase :: rest) st = remove E phrase st.
Proof.
  intros H; unfold handle_unmap, bind at 1, get_aliases; now rewrite H.
Qed.

Lemma remove_key (E : Env) (key : str) (st : State) :
  dict_mem key (aliases st) = true ->
  remove E key st
  = match write_text E (config_file st)
            (json_dumps E (dict_del key (aliases st))) with
    | None =>
        (Ok tt,
         add_out (Print (OkRemoved key))
           {| aliases := dict_del key (aliases st);
              config_file := Text (json_dumps E (dict_del key (aliases st)));
              stdin := stdin st; out := out st; clock := clock st;
              interrupt_at := interrupt_at st; proc := proc st |})
    | Some (e, f) =>
        (Raise e,
         {| aliases := dict_del key (aliases st);
            config_file := f;
            stdin := stdin st; out := out st; clock := clock st;
            interrupt_at := interrupt_at st; proc := proc st |})
    end.
Proof.
  intros H; unfold remove, save_config, write_config, bind, get_aliases,
    set_aliases, print, emit, set_config_file; simpl; rewrite H; simpl.
  destruct (write_text E (config_file st)
              (json_dumps E (dict_del key (aliases st))))
    as [[e f]|]; reflexivity.
Qed.

(** X8. An [unmap] of a phrase that is a key removes that phrase from the
    table and no other: the phrase maps to nothing afterwards and every
    other phrase maps to what it mapped to before.  The command then
    writes the file: when the write succeeds the file holds the new table,
    the removal is printed and the command returns; when the write raises,
    the exception leaves the command, the phrase removed all the same and
    nothing printed. *)
Theorem handle_unmap_removes_key (E : Env) (phrase : str)
        (rest : list str) (st : State) :
  NoDup (keys (aliases st)) ->
  In phrase (keys (aliases st)) ->
  aliases (snd (handle_unmap E (phrase :: rest) st))
  = dict_del phrase (aliases st)
  /\ dict_get phrase (aliases (snd (handle_unmap E (phrase :: rest) st)))
     = None
  /\ (forall k, k <> phrase ->
        dict_get k (aliases (snd (handle_unmap E (phrase :: rest) st)))
        = dict_get k (aliases st))
  /\ (writable E (dict_del phrase (aliases st)) st ->
      fst (handle_unmap E (phrase :: rest) st) = Ok tt
      /\ config_file (snd (handle_unmap E (phrase :: rest) st))
         = Text (json_dumps E (dict_del phrase (aliases st)))
      /\ out (snd (handle_unmap E (phrase :: rest) st))
         = out st ++ [Print (OkRemoved phrase)])
  /\ (forall e f,
        write_text E (config_file st)
          (json_dumps E (dict_del phrase (aliases st))) = Some (e, f) ->
        fst (handle_unmap E (phrase :: rest) st) = Raise e
        /\ config_file (snd (handle_unmap E (phrase :: rest) st)) = f
        /\ out (snd (handle_unmap E (phrase :: rest) st)) = out st).
Proof.
  intros Hnd Hin; apply dict_mem_In in Hin.
  rewrite (handle_unmap_key E phrase rest st Hin), (remove_key E phrase st Hin).
  unfold writable.
  destruct (write_text E (config_file st)
              (json_dumps E (dict_del phrase (aliases st))))
    as [[e f]|]; cbn [fst snd aliases config_file out add_out].
  - split; [reflexivity|].
    split; [now apply dict_get_del_same|].
    split; [intros k Hk; now apply dict_get_del_other|].
    split; [discriminate|].
    intros e' f' Heq; injection Heq as <- <-; repeat split.
  - split; [reflexivity|].
    split; [now apply dict_get_del_same|].
    split; [intros k Hk; now apply dict_get_del_other|].
    split; [intros _; repeat split | discriminate].
Qed.

Lemma handle_unmap_removes_key_witness :
  aliases (snd (handle_unmap demo_env [$"fast backup"]
                             (demo_state backups Absent [] None)))
  = [($"full backup", $"/b/full.py"); ($"old backup", $"/b/old.py")]
  /\ fst (handle_unmap demo_env [$"fast backup"]
                       (demo_state backups Absent [] None)) = Ok tt.
Proof.
  destruct (handle_unmap_removes_key demo_env $"fast backup" []
              (demo_state backups Absent [] None))
    as [H1 [_ [_ [H2 _]]]].
  - repeat constructor; simpl; intros H;
      repeat (destruct H as [H|H]; [discriminate|]); exact H.
  - simpl; tauto.
  - split; [exact H1 | exact (proj1 (H2 eq_refl))].
Defined.

Lemma bind_ok {A B} (m : M A) (f : A -> M B) (st : State) (a : A)
      (st' : State) :
  m st = (Ok a, st') -> bind m f st = f a st'.
Proof. intros H; unfold bind; now rewrite H. Qed.

Lemma dict_del_set_new (k v : str) (d : dict) :
  ~ In k (keys d) -> dict_del k (dict_set k v d) = d.
Proof.
  induction d as [|[k' v'] d IH]; simpl; intros H.
  - now rewrite str_eqb_refl.
  - destruct (str_eqb k k') eqn:He;
      [apply str_eqb_eq in He; subst; tauto|].
    simpl; rewrite He, IH; tauto.
Qed.

(** X9. Registering a phrase that is new and removing it again gives the
    table back as it was and, the two writes succeeding, leaves the file
    written with that table. *)
Theorem map_then_unmap_restores (E : Env) (phrase path : str)
        (rest rest' : list str) (st : State) :
  accepted E path ->
  ~ In phrase (keys (aliases st)) ->
  writable E (dict_set phrase (resolve E (expanduser E path)) (aliases st))
           st ->
  write_text E
    (Text (json_dumps E
             (dict_set phrase (resolve E (expanduser E path)) (aliases st))))
    (json_dumps E (aliases st)) = None ->
  fst ((handle_map E (phrase :: path :: rest) ;;
        handle_unmap E (phrase :: rest')) st) = Ok tt
  /\ aliases (snd ((handle_map E (phrase :: path :: rest) ;;
                    handle_unmap E (phrase :: rest')) st))
     = aliases st
  /\ config_file (snd ((handle_map E (phrase :: path :: rest) ;;
                        handle_unmap E (phrase :: rest')) st))
     = Text (json_dumps E (aliases st)).
Proof.
  intros Hacc Hnew Hw1 Hw2.
  pose proof (handle_map_accepted E phrase path rest st Hacc) as Hmap.
  destruct (warned_fields E (resolve E (expanduser E path)) st)
    as [Ha [Hc Hs]].
  unfold writable in Hw1.
  rewrite register_state, Ha, Hc, Hw1 in Hmap.
  rewrite (bind_ok _ _ _ _ _ Hmap).
  match goal with
  | |- context [handle_unmap E _ ?s] =>
      assert (Hm : dict_mem phrase (aliases s) = true)
        by (unfold dict_mem; simpl; now rewrite dict_get_set_same);
      rewrite (handle_unmap_key E phrase rest' s Hm), (remove_key E phrase s Hm)
  end.
  cbn [fst snd aliases config_file add_out].
  rewrite dict_del_set_new by assumption.
  rewrite Hw2; auto.
Qed.

Lemma map_then_unmap_restores_witness :
  aliases (snd ((handle_map demo_env [$"notes"; $"/scripts/notes.txt"] ;;
                 handle_unmap demo_env [$"notes"])
                  (demo_state backups Absent [] None)))
  = backups.
Proof.
  destruct (map_then_unmap_restores demo_env $"notes" $"/scripts/notes.txt"
              [] [] (demo_state backups Absent [] None))
    as [_ [H _]];
    [split; reflexivity | | reflexivity | reflexivity | exact H].
  simpl; intros H; repeat (destruct H as [H|H]; [discriminate|]); exact H.
Defined.

Lemma handle_unmap_fuzzy (E : Env) (phrase key v : str) (rest : list str)
      (st : State) :
  dict_mem phrase (aliases st) = false ->
  best_match (aliases st) phrase = Ok (Some (key, v)) ->
  handle_unmap E (phrase :: rest) st = remove E key st.
Proof.
  intros Hm Hb; unfold handle_unmap, bind at 1 2, get_aliases, lift.
  now rewrite Hm, Hb.
Qed.

(** A raw phrase of fillers only, on a table without a phrase of fillers
    only, resolves to the first entry. *)
Lemma best_match_fillers_first (k0 v0 : str) (d : dict) (raw : str) :
  normalize_phrase raw = [] ->
  (forall k, In k (keys ((k0, v0) :: d)) -> normalize_phrase k <> []) ->
  best_match ((k0, v0) :: d) raw = Ok (Some (k0, v0)).
Proof.
  intros Hn H1; rewrite best_match_tier3.
  - rewrite Hn; simpl; rewrite substr_nil, orb_true_r.
    unfold getitem; simpl; now rewrite str_eqb_refl.
  - discriminate.
  - now rewrite Hn.
  - intros; rewrite Hn; apply overlap_of_nil.
Qed.

(** X10. An [unmap] of a phrase that is no key falls back on
    [best_match]; given a phrase of filler words only (such as "the"), on
    a table where no registered phrase is of filler words only, it removes
    the first entry of the table; when the write that follows succeeds,
    the file holds the rest of the table and the removal is printed. *)
Theorem handle_unmap_fillers_removes_first (E : Env) (phrase : str)
        (rest : list str) (st : State) (k0 v0 : str) (d : dict) :
  aliases st = (k0, v0) :: d ->
  normalize_phrase phrase = [] ->
  (forall k, In k (keys (aliases st)) -> normalize_phrase k <> []) ->
  aliases (snd (handle_unmap E (phrase :: rest) st)) = d
  /\ (writable E d st ->
      fst (handle_unmap E (phrase :: rest) st) = Ok tt
      /\ config_file (snd (handle_unmap E (phrase :: rest) st))
         = Text (json_dumps E d)
      /\ out (snd (handle_unmap E (phrase :: rest) st))
         = out st ++ [Print (OkRemoved k0)]).
Proof.
  intros Ha Hn H1.
  assert (Hm : dict_mem phrase (aliases st) = false).
  { destruct (dict_mem phrase (aliases st)) eqn:Hm; [|reflexivity].
    apply dict_mem_In in Hm; now apply H1 in Hm. }
  assert (Hb : best_match (aliases st) phrase = Ok (Some (k0, v0)))
    by (rewrite Ha in *; now apply best_match_fillers_first).
  rewrite (handle_unmap_fuzzy E phrase k0 v0 rest st Hm Hb).
  assert (Hk : dict_mem k0 (aliases st) = true)
    by (rewrite Ha; unfold dict_mem; simpl; now rewrite str_eqb_refl).
  assert (Hd : dict_del k0 (aliases st) = d)
    by (rewrite Ha; simpl; now rewrite str_eqb_refl).
  rewrite (remove_key E k0 st Hk), Hd; unfold writable.
  destruct (write_text E (config_file st) (json_dumps E d)) as [[e f]|];
    cbn [fst snd aliases config_file out add_out].
  - split; [reflexivity | discriminate].
  - split; [reflexivity | intros _; repeat split].
Qed.

Lemma handle_unmap_fillers_removes_first_witness :
  aliases (snd (handle_unmap demo_env [$"the"]
                             (demo_state backups Absent [] None)))
  = [($"fast backup", $"/b/fast.py"); ($"old backup", $"/b/old.py")]
  /\ out (snd (handle_unmap demo_env [$"the"]
                            (demo_state backups Absent [] None)))
     = [] ++ [Print (OkRemoved $"full backup")].
Proof.
  destruct (handle_unmap_fillers_removes_first demo_env $"the" []
              (demo_state backups Absent [] None)
              $"full backup" $"/b/full.py"
              [($"fast backup", $"/b/fast.py"); ($"old backup", $"/b/old.py")])
    as [H2 H4]; try reflexivity.
  - intros k [<- | [<- | [<- | [ ] ] ] ]; vm_compute; discriminate.
  - split; [exact H2 | exact (proj2 (proj2 (H4 eq_refl)))].
Defined.

(** ** The stored table *)

Lemma dict_set_new (k v : str) (d : dict) :
  ~ In k (keys d) -> dict_set k v d = d ++ [(k, v)].
Proof.
  induction d as [|[k' v'] d IH]; simpl; intros H; [reflexivity|].
  destruct (str_eqb k k') eqn:He;
    [apply str_eqb_eq in He; subst; tauto|].
  rewrite IH; tauto.
Qed.

Lemma config_of_items (d acc : dict) :
  NoDup (keys (acc ++ d)) ->
  fold_left (fun a kv => dict_set (fst kv) (py_str (snd kv)) a)
            (map (fun kv : str * str => (fst kv, VString (snd kv))) d) acc
  = acc ++ d.
Proof.
  revert acc; induction d as [|[k v] d IH]; intros acc H; simpl.
  - now rewrite app_nil_r.
  - assert (Hk : ~ In k (keys acc)).
    { unfold keys in H; rewrite map_app in H; simpl in H.
      apply NoDup_remove_2 in H; intros Hin; apply H.
      apply in_or_app; now left. }
    rewrite dict_set_new by assumption.
    rewrite IH; rewrite <- app_assoc; [reflexivity | exact H].
Qed.

(** X11. Loading after saving gives the table back, when the write
    succeeds and [json.loads] reads the text of [json.dumps] as the object
    of the table's entries: [load_config] rebuilds the entries in their
    order.  When the write raises, its exception ends the two calls and
    nothing is loaded. *)
Theorem save_then_load (E : Env) (st : State) :
  NoDup (keys (aliases st)) ->
  json_loads E (json_dumps E (aliases st)) = Ok (json_of_dict (aliases st)) ->
  (writable E (aliases st) st ->
   (save_config E ;; load_config E) st
   = (Ok (aliases st),
      {| aliases := aliases st;
         config_file := Text (json_dumps E (aliases st));
         stdin := stdin st; out := out st; clock := clock st;
         interrupt_at := interrupt_at st; proc := proc st |}))
  /\ (forall e f,
        write_text E (config_file st) (json_dumps E (aliases st))
        = Some (e, f) ->
        (save_config E ;; load_config E) st
        = (Raise e, set_config_file f st)).
Proof.
  intros Hnd Hj; unfold writable.
  unfold save_config, write_config, load_config, bind, get_aliases,
    config_exists, try_except, read_config, set_config_file; simpl.
  split.
  - intros Hw; rewrite Hw; simpl.
    rewrite Hj; unfold json_of_dict; simpl.
    now rewrite (config_of_items (aliases st) []).
  - intros e f Hw; now rewrite Hw.
Qed.

Lemma save_then_load_witness :
  fst ((save_config json_env ;; load_config json_env)
         (demo_state backups Absent [] None))
  = Ok backups.
Proof.
  destruct (save_then_load json_env (demo_state backups Absent [] None))
    as [H _].
  - repeat constructor; simpl; intros H;
      repeat (destruct H as [H|H]; [discriminate|]); exact H.
  - reflexivity.
  - rewrite (H eq_refl); reflexivity.
Defined.

(** On a stored file that cannot be written nothing is saved and nothing
    is loaded: the exception of the write ends the two calls. *)
Example save_then_load_unwritable :
  (save_config json_env ;; load_config json_env)
    (demo_state backups Unreadable [] None)
  = (Raise (IsADirectoryError $"Is a directory: ~/.script_aliases.json"),
     demo_state backups Unreadable [] None).
Proof. reflexivity. Qed.

(** ** Launches *)

(** X12. A detached launch never waits: when the process is created it
    prints the start line and returns the pid at once, whatever the child
    does afterwards, in a new session (or, on Windows, as a detached
    process in a new group), with the directory of the script as working
    directory.  The time and the child followed by the supervisor are
    untouched. *)
Theorem detached_launch_returns_pid (E : Env) (path : str) (st : State)
        (ch : Child) :
  popen E [sys_executable E; path] (path_parent E (resolve E path))
        (if os_name_nt E then DetachedNT else NewSession) = Ok ch ->
  run_script E path false st
  = (Ok (child_pid ch),
     add_out (Print (BgStarted (path_name E path) (child_pid ch)))
       (add_out (Popen [sys_executable E; path]
                       (path_parent E (resolve E path))
                       (if os_name_nt E then DetachedNT else NewSession))
                st)).
Proof.
  intros H; unfold run_script, spawn, bind, emit, print, ret.
  now rewrite H.
Qed.

Lemma detached_launch_returns_pid_witness :
  run_script demo_env $"/scripts/forever.py" false
             (demo_state [] Absent [] None)
  = (Ok 4242%Z,
     add_out (Print (BgStarted $"forever.py" 4242%Z))
       (add_out (Popen [$"/usr/bin/python3"; $"/scripts/forever.py"]
                       $"/scripts" NewSession)
                (demo_state [] Absent [] None))).
Proof.
  apply (detached_launch_returns_pid demo_env $"/scripts/forever.py"
           (demo_state [] Absent [] None)
           (demo_child $"/scripts/forever.py")).
  reflexivity.
Defined.

(** X13. An attached launch that is not interrupted blocks until the child
    exits and returns its status: it prints the success line for status 0
    and the failure line for any other status, and does not raise on a
    failure of the child. *)
Theorem attached_launch_returns_status (E : Env) (path : str) (st : State)
        (ch : Child) (d : nat) :
  popen E [sys_executable E; path] (path_parent E (resolve E path)) Plain
  = Ok ch ->
  runs_for ch = Some d ->
  interrupted st (Some (clock st + d)) None = false ->
  run_script E path true st
  = (Ok (exit_code ch),
     {| aliases := aliases st; config_file := config_file st;
        stdin := stdin st;
        out := out st
               ++ [Popen [sys_executable E; path]
                         (path_parent E (resolve E path)) Plain;
                   ThreadStart (path_name E path) (child_pid ch);
                   Wait None; Join;
                   Print (if (exit_code ch =? 0)%Z
                          then OkFinished (path_name E path)
                          else ErrExited (path_name E path) (exit_code ch))];
        clock := clock st + d;
        interrupt_at := interrupt_at st;
        proc := Reaped (exit_code ch) |}).
Proof.
  intros Hp Hd Hi.
  unfold run_script, spawn, track, bind, emit, try_except.
  rewrite Hp; unfold ret, proc_wait, bind, emit.
  cbn -[Nat.max interrupted]; rewrite Hd; cbn -[Nat.max interrupted].
  unfold interrupted in *; cbn -[Nat.max] in *; rewrite Hi.
  cbn -[Nat.max].
  replace (Nat.max (clock st) (clock st + d)) with (clock st + d) by lia.
  destruct (exit_code ch =? 0)%Z; unfold print, emit, add_out; simpl;
    rewrite <- !app_assoc; reflexivity.
Qed.

Lemma attached_launch_returns_status_witness :
  fst (run_script demo_env $"/scripts/missing.py" true
                  (demo_state [] Absent [] None)) = Ok 2%Z
  /\ clock (snd (run_script demo_env $"/scripts/scrape.py" true
                            (demo_state [] Absent [] None))) = 3.
Proof.
  split.
  - rewrite (attached_launch_returns_status demo_env $"/scripts/missing.py"
               (demo_state [] Absent [] None)
               (demo_child $"/scripts/missing.py") 0); reflexivity.
  - rewrite (attached_launch_returns_status demo_env $"/scripts/scrape.py"
               (demo_state [] Absent [] None)
               (demo_child $"/scripts/scrape.py") 3); reflexivity.
Defined.

(** ** What the commands keep *)

Section Keeps.

Variable R : State -> State -> Prop.
Hypothesis R_refl : forall st, R st st.
Hypothesis R_trans : forall a b c, R a b -> R b c -> R a c.

Lemma keeps_ret {A} (a : A) : keeps R (ret a).
Proof. intros st; apply R_refl. Qed.

Lemma keeps_raise {A} (e : exn) : keeps R (@raise A e).
Proof. intros st; apply R_refl. Qed.

Lemma keeps_lift {A} (r : res A) : keeps R (lift r).
Proof. intros st; apply R_refl. Qed.

Lemma keeps_bind {A B} (m : M A) (f : A -> M B) :
  keeps R m -> (forall a, keeps R (f a)) -> keeps R (bind m f).
Proof.
  intros Hm Hf st; unfold bind.
  pose proof (Hm st) as H1.
  destruct (m st) as [[a|e|] st']; simpl in *; try assumption.
  eapply R_trans; [exact H1 | apply Hf].
Qed.

Lemma keeps_try_except {A} (c : exn -> bool) (m : M A) (h : exn -> M A) :
  keeps R m -> (forall e, keeps R (h e)) -> keeps R (try_except c m h).
Proof.
  intros Hm Hh st; unfold try_except.
  pose proof (Hm st) as H1.
  destruct (m st) as [[a|e|] st']; simpl in *; try assumption.
  destruct (c e); simpl; [|assumption].
  eapply R_trans; [exact H1 | apply Hh].
Qed.

End Keeps.

Lemma same_table_refl (st : State) : same_table st st.
Proof. repeat split. Qed.

Lemma same_table_trans (a b c : State) :
  same_table a b -> same_table b c -> same_table a c.
Proof.
  unfold same_table; intros [H1 [H2 H3]] [H4 [H5 H6]]; repeat split;
    congruence.
Qed.

Lemma keeps_emit (e : event) : keeps same_table (emit e).
Proof. intros st; repeat split. Qed.

Lemma keeps_get_aliases : keeps same_table get_aliases.
Proof. intros st; repeat split. Qed.

Lemma keeps_track (ch : Child) : keeps same_table (track ch).
Proof. intros st; repeat split. Qed.

Lemma keeps_spawn (E : Env) (cmd : list str) (cwd : str)
      (flags : spawn_flags) :
  keeps same_table (spawn E cmd cwd flags).
Proof.
  intros st; unfold spawn, bind, emit, ret, raise; simpl.
  destruct (popen E cmd cwd flags); repeat split.
Qed.

Lemma keeps_proc_wait (timeout : option nat) :
  keeps same_table (proc_wait timeout).
Proof.
  intros st; unfold proc_wait, bind, emit; simpl.
  destruct (proc st) as [ea c|c]; [|repeat split].
  destruct (interrupted _ _ _); [repeat split|].
  destruct ea as [T|], timeout as [d|]; simpl;
    try destruct (T <=? clock st + d); repeat split.
Qed.

Lemma keeps_poll (st : State) : same_table st (poll st).
Proof.
  unfold poll; destruct (proc st) as [[T|] c|c]; try apply same_table_refl.
  destruct (T <=? clock st); repeat split.
Qed.

Lemma keeps_proc_send_sigint (ch : Child) :
  keeps same_table (proc_send_sigint ch).
Proof.
  intros st; unfold proc_send_sigint, bind, emit; simpl.
  set (s1 := add_out SendSigint st).
  assert (H1 : same_table st (poll s1))
    by (apply (same_table_trans st s1); [repeat split | apply keeps_poll]).
  destruct (proc (poll s1)) as [ea c|c]; [|exact H1].
  destruct (sigint_raises ch); [exact H1|].
  destruct (on_sigint ch) as [[d c']|]; [|exact H1].
  destruct (le_opt (clock (poll s1) + d) ea); [|exact H1].
  destruct H1 as [Ha [Hc Hs]]; repeat split; assumption.
Qed.

Lemma keeps_proc_kill : keeps same_table proc_kill.
Proof.
  intros st; unfold proc_kill, bind, emit; simpl.
  set (s1 := add_out Kill st).
  assert (H1 : same_table st (poll s1))
    by (apply (same_table_trans st s1); [repeat split | apply keeps_poll]).
  destruct (proc (poll s1)) as [ea c|c]; [|exact H1].
  destruct H1 as [Ha [Hc Hs]]; repeat split; assumption.
Qed.

Ltac keeps_step :=
  lazymatch goal with
  | |- keeps _ (bind _ _) => apply (keeps_bind same_table same_table_trans)
  | |- keeps _ (try_except _ _ _) =>
      apply (keeps_try_except same_table same_table_trans)
  | |- keeps _ (ret _) => apply (keeps_ret same_table same_table_refl)
  | |- keeps _ (raise _) => apply (keeps_raise same_table same_table_refl)
  | |- keeps _ (lift _) => apply (keeps_lift same_table same_table_refl)
  | |- keeps _ (emit _) => apply keeps_emit
  | |- keeps _ get_aliases => apply keeps_get_aliases
  | |- keeps _ (track _) => apply keeps_track
  | |- keeps _ (spawn _ _ _ _) => apply keeps_spawn
  | |- keeps _ (proc_wait _) => apply keeps_proc_wait
  | |- keeps _ (proc_send_sigint _) => apply keeps_proc_send_sigint
  | |- keeps _ proc_kill => apply keeps_proc_kill
  | |- keeps _ (if ?b then _ else _) => destruct b
  | |- forall _, _ => intro
  end.

Lemma keeps_on_interrupt (ch : Child) : keeps same_table (on_interrupt ch).
Proof. unfold on_interrupt, print; repeat keeps_step. Qed.

Lemma keeps_run_script (E : Env) (path : str) (attach : bool) :
  keeps same_table (run_script E path attach).
Proof.
  unfold run_script, print; destruct attach; repeat keeps_step.
  apply keeps_on_interrupt.
Qed.

Lemma keeps_handle_run (E : Env) (rest : str) :
  keeps same_table (handle_run E rest).
Proof.
  unfold handle_run, print.
  destruct (parse_run_command rest) as [phrase bg].
  repeat keeps_step.
  match goal with
  | a : option (str * str) |- _ => destruct a as [[key script]|]
  end; repeat keeps_step.
  - apply keeps_run_script.
  - match goal with
    | e : exn |- _ => destruct e
    end; apply keeps_emit.
Qed.

(** X14. A [run] command, typed or heard, and the launch itself never
    change the table, whatever the phrase, the table and the outcome of
    the launch. *)
Theorem run_keeps_table (E : Env) (st : State) :
  (forall rest, aliases (snd (handle_run E rest st)) = aliases st)
  /\ (forall text,
        aliases (snd (_maybe_run_from_voice E text st)) = aliases st)
  /\ (forall path attach,
        aliases (snd (run_script E path attach st)) = aliases st).
Proof.
  split; [|split].
  - intros rest; apply keeps_handle_run.
  - intros text; unfold _maybe_run_from_voice.
    destruct (voice_request text) as [[phrase_raw bg]|]; [|reflexivity].
    assert (H : keeps same_table
                  (print (VoiceHeard text);;
                   handle_run E ($"run " ++ phrase_raw
                                  ++ (if bg then $" &" else []))))
      by (unfold print; repeat keeps_step; apply keeps_handle_run).
    apply (H st).
  - intros path attach; apply keeps_run_script.
Qed.



(** X16. When the process of a [run] command cannot be created, the error
    is reported - as a script that was not found for a
    [FileNotFoundError], with the error text otherwise - and nothing else
    happens: the command returns and no child is followed. *)
Theorem spawn_failure_is_reported (E : Env) (rest : str) (st : State)
        (phrase key script : str) (bg : bool) (e : exn) :
  parse_run_command rest = (phrase, bg) ->
  is_empty phrase = false ->
  best_match (aliases st) phrase = Ok (Some (key, script)) ->
  popen E [sys_executable E; script] (path_parent E (resolve E script))
        (launch_flags E bg) = Raise e ->
  is_Exception e = true ->
  handle_run E rest st
  = (Ok tt,
     add_out (Print (match e with
                     | FileNotFoundError _ => ErrScriptNotFound script
                     | _ => ErrFailedToRun e
                     end))
       (add_out (Popen [sys_executable E; script]
                       (path_parent E (resolve E script))
                       (launch_flags E bg))
          (add_out (Print (InfoLaunching key script)) st))).
Proof.
  intros Hp Hne Hb Hpop He.
  unfold handle_run; rewrite Hp, Hne.
  unfold bind at 1, get_aliases; unfold bind at 1, lift; rewrite Hb.
  unfold bind at 1, print, emit, try_except.
  unfold run_script, launch_flags in *.
  destruct bg; simpl negb; cbv iota; unfold bind at 1 2, spawn;
    unfold bind at 1, emit; rewrite Hpop; unfold raise; rewrite He;
    destruct e; reflexivity.
Qed.

Lemma spawn_failure_is_reported_witness :
  handle_run no_python_env $"backup now &"
             (demo_state backups Absent [] None)
  = (Ok tt,
     add_out (Print (ErrScriptNotFound $"/b/old.py"))
       (add_out (Popen [$"/usr/bin/python3"; $"/b/old.py"] $"/b" NewSession)
          (add_out (Print (InfoLaunching $"old backup" $"/b/old.py"))
                   (demo_state backups Absent [] None)))).
Proof.
  apply (spawn_failure_is_reported no_python_env $"backup now &"
           (demo_state backups Absent [] None)
           $"backup now" $"old backup" $"/b/old.py" true
           (FileNotFoundError $"No such file: /usr/bin/python3"));
    reflexivity.
Defined.

(** ** From the utterance to the command *)

Lemma lit_starts_with (w : str) (pw : bool) (p : str) (r : bool * str) :
  lit w pw p = Some r -> starts_with w p = true.
Proof.
  revert pw p; induction w as [|a w IH]; intros pw p H; [reflexivity|].
  destruct p as [|c t]; simpl in *; [discriminate|].
  destruct (Ascii.eqb a c); [simpl; eapply IH; eauto | discriminate].
Qed.

Lemma search_run_substr (pw : bool) (p g : str) :
  search_run pw p = Some g -> substr $"run" p = true.
Proof.
  revert pw; induction p as [|c t IH]; intros pw H; [discriminate|].
  cbn [search_run] in H; cbn [substr].
  destruct (run_here pw (c :: t)) as [g'|] eqn:Hr.
  - unfold run_here in Hr.
    destruct (boundary pw (c :: t)); [|discriminate].
    destruct (lit $"run" pw (c :: t)) as [r|] eqn:Hl; [|discriminate].
    now rewrite (lit_starts_with _ _ _ _ Hl).
  - rewrite (IH _ H); apply orb_true_r.
Qed.

(** X17. An utterance in which the letters "run" do not occur does
    nothing: no output, no launch, the state as it was. *)
Theorem utterance_without_run_does_nothing (E : Env) (text : str)
        (st : State) :
  substr $"run" text = false ->
  _maybe_run_from_voice E text st = (Ok tt, st).
Proof.
  intros H; unfold _maybe_run_from_voice, voice_request.
  destruct (is_empty text); [reflexivity|].
  destruct (search_run false text) as [g|] eqn:Hs; [|reflexivity].
  apply search_run_substr in Hs; congruence.
Qed.

Lemma utterance_without_run_does_nothing_witness :
  _maybe_run_from_voice demo_env $"what time is it"
                        (demo_state backups Absent [] None)
  = (Ok tt, demo_state backups Absent [] None).
Proof.
  apply (utterance_without_run_does_nothing demo_env $"what time is it");
    reflexivity.
Defined.

Lemma rstrip_by_app (f : ascii -> bool) (a b : str) :
  rstrip_by f b <> [] -> rstrip_by f (a ++ b) = a ++ rstrip_by f b.
Proof.
  intros Hb; induction a as [|c a IH]; [reflexivity|]; simpl.
  rewrite IH; destruct (a ++ rstrip_by f b) eqn:Hab; [|reflexivity].
  apply app_eq_nil in Hab as [_ Hab]; congruence.
Qed.

Lemma rstrip_by_snoc (f : ascii -> bool) (p : str) (c : ascii) :
  f c = true -> rstrip_by f (p ++ [c]) = rstrip_by f p.
Proof.
  intros Hc; induction p as [|x p IH]; simpl; [now rewrite Hc|].
  now rewrite IH.
Qed.

Lemma lstrip_by_fixed (f : ascii -> bool) (c : ascii) (t : str) :
  f c = false -> lstrip_by f (c :: t) = c :: t.
Proof. intros H; simpl; now rewrite H. Qed.

(** A stripped string that is not empty starts and ends with a character
    that is not whitespace. *)
Lemma strip_fixed_parts (p : str) :
  strip p = p -> p <> [] ->
  lstrip_by is_space p = p /\ rstrip_by is_space p = p.
Proof.
  intros Hs Hne.
  assert (Hl : lstrip_by is_space p = p).
  { destruct p as [|c t]; [congruence|].
    destruct (is_space c) eqn:Hc; [|now apply lstrip_by_fixed].
    exfalso; apply (strip_by_no_lead is_space (c :: t) c t Hc); exact Hs. }
  split; [exact Hl|].
  unfold strip, strip_by in Hs; now rewrite Hl in Hs.
Qed.

Lemma dot_star_end_plain (p : str) : plain p -> dot_star_end p = Some p.
Proof.
  induction 1 as [|c t Hc _ IH]; [reflexivity|]; simpl.
  destruct (Ascii.eqb c newline) eqn:He;
    [apply Ascii.eqb_eq in He; congruence|].
  now rewrite IH.
Qed.

Lemma dot_star_end_is_plain (p g : str) : dot_star_end p = Some g -> plain g.
Proof.
  revert g; induction p as [|c t IH]; intros g H; cbn [dot_star_end] in H.
  - injection H as <-; constructor.
  - destruct (Ascii.eqb c newline) eqn:He.
    + destruct (at_end (c :: t)); [injection H as <-; constructor|].
      discriminate.
    + destruct (dot_star_end t) as [g'|]; [|discriminate].
      injection H as <-; constructor; [|now apply IH].
      now apply Ascii.eqb_neq.
Qed.

Lemma spaces_plus_some {A} (k : str -> option A) (p : str) (r : A) :
  spaces_plus k p = Some r -> exists q, k q = Some r.
Proof.
  induction p as [|c t IH]; intros H; [discriminate|]; simpl in H.
  destruct (is_space c); [|discriminate].
  destruct (spaces_plus k t) as [r'|]; [injection H as <-; now apply IH|].
  eauto.
Qed.

Lemma search_run_plain (pw : bool) (p g : str) :
  search_run pw p = Some g -> plain g.
Proof.
  revert pw; induction p as [|c t IH]; intros pw H; [discriminate|].
  cbn [search_run] in H.
  destruct (run_here pw (c :: t)) as [g'|] eqn:Hr; [|eapply IH; eauto].
  injection H as <-; unfold run_here in Hr.
  destruct (boundary pw (c :: t)); [|discriminate].
  destruct (lit $"run" pw (c :: t)) as [[pw' rest]|]; [|discriminate].
  apply spaces_plus_some in Hr as [q Hq]; unfold dot_plus_end in Hq.
  destruct (dot_star_end q) as [[|x g]|] eqn:Hd; try discriminate.
  injection Hq as <-; now apply (dot_star_end_is_plain q).
Qed.

Lemma lit_suffix (Q : ascii -> Prop) (w : str) (pw : bool) (p : str)
      (pw' : bool) (rest : str) :
  lit w pw p = Some (pw', rest) -> Forall Q p -> Forall Q rest.
Proof.
  revert pw p; induction w as [|a w IH]; intros pw p H Hp; simpl in H.
  - now injection H as _ <-.
  - destruct p as [|c t]; [discriminate|].
    destruct (Ascii.eqb a c); [|discriminate].
    inversion Hp; subst; eapply IH; eauto.
Qed.

Lemma alt_end_suffix (Q : ascii -> Prop) (ws : list str) (p rest : str) :
  alt_end ws p = Some rest -> Forall Q p -> Forall Q rest.
Proof.
  induction ws as [|w ws IH]; intros H Hp; simpl in H; [discriminate|].
  destruct (lit w false p) as [[pw' r]|] eqn:Hl; [|now apply IH].
  destruct (at_end r); [|now apply IH].
  injection H as <-; eapply lit_suffix; eauto.
Qed.

Lemma Forall_sub_end (Q : ascii -> Prop) (ws : list str) (p : str) :
  Forall Q p -> Forall Q (sub_end ws p).
Proof.
  induction 1 as [|c t Hc Ht IH]; simpl; [constructor|].
  destruct (alt_end ws (c :: t)) as [rest|] eqn:Ha; [|now constructor].
  eapply alt_end_suffix; eauto.
Qed.

(** The phrase heard is stripped and has no newline. *)
Lemma voice_request_phrase (text p : str) (bg : bool) :
  voice_request text = Some (p, bg) -> strip p = p /\ plain p.
Proof.
  unfold voice_request; intros H.
  destruct (is_empty text); [discriminate|].
  destruct (search_run false text) as [g|] eqn:Hs; [|discriminate].
  apply search_run_plain in Hs.
  destruct (ends_with $"and" (strip g) || ends_with $"ampersand" (strip g)
            || ends_with $"background" (strip g));
    injection H as <- <-; split; try apply strip_idem.
  - apply Forall_strip, Forall_sub_end, Forall_strip; exact Hs.
  - apply Forall_strip; exact Hs.
Qed.

Lemma ends_with_app (c : ascii) (a p : str) :
  p <> [] -> ends_with [c] (a ++ p) = ends_with [c] p.
Proof.
  intros Hne; unfold ends_with; rewrite rev_app_distr.
  destruct (rev p) as [|x r] eqn:Hr; [|reflexivity].
  apply (f_equal (@rev ascii)) in Hr; rewrite rev_involutive in Hr.
  simpl in Hr; congruence.
Qed.

Lemma firstn_snoc (a : str) (c : ascii) :
  firstn (List.length (a ++ [c]) - 1) (a ++ [c]) = a.
Proof.
  rewrite length_app; simpl.
  replace (List.length a + 1 - 1) with (List.length a + 0) by lia.
  rewrite firstn_app_2; simpl; apply app_nil_r.
Qed.

Lemma ends_with_snoc (a : str) (c : ascii) : ends_with [c] (a ++ [c]) = true.
Proof.
  unfold ends_with; rewrite rev_app_distr; simpl.
  now rewrite (proj2 (Ascii.eqb_eq c c) eq_refl).
Qed.

Lemma removesuffix_snoc (a : str) (c : ascii) :
  removesuffix [c] (a ++ [c]) = a.
Proof.
  unfold removesuffix, ends_with; rewrite rev_app_distr; simpl.
  rewrite (proj2 (Ascii.eqb_eq c c) eq_refl); simpl.
  apply (firstn_snoc a c).
Qed.

(** A command line made of "run", a plain stripped phrase and, or not, the
    ampersand is parsed back into the phrase and the flag. *)
Lemma parse_run_command_built (p : str) (bg : bool) :
  strip p = p -> plain p -> p <> [] ->
  (bg = false -> ends_with $"&" p = false) ->
  parse_run_command ($"run " ++ p ++ (if bg then $" &" else []))
  = (strip_by is_quote p, bg).
Proof.
  intros Hs Hpl Hne Hamp.
  destruct (strip_fixed_parts p Hs Hne) as [Hl Hr].
  assert (Hrne : rstrip_by is_space p <> []) by (rewrite Hr; exact Hne).
  assert (Hrun : strip ($"run " ++ p) = $"run " ++ p).
  { unfold strip, strip_by; cbn [list_ascii_of_string app].
    rewrite lstrip_by_fixed by reflexivity.
    change ("r"%char :: "u"%char :: "n"%char :: " "%char :: p)
      with ($"run " ++ p).
    now rewrite rstrip_by_app, Hr. }
  assert (Hm : match_run ($"run " ++ p) = Some p).
  { unfold match_run; cbn [list_ascii_of_string app lit_ci lower_char].
    cbn; destruct p as [|c t]; [congruence|].
    assert (Hc : is_space c = false).
    { destruct (is_space c) eqn:Hc; [|reflexivity].
      exfalso; apply (strip_by_no_lead is_space (c :: t) c t Hc); exact Hs. }
    cbn [spaces_plus]; rewrite Hc; now apply dot_star_end_plain. }
  unfold parse_run_command; destruct bg.
  - assert (Hf : strip ($"run " ++ p ++ $" &") = $"run " ++ p ++ $" &").
    { unfold strip, strip_by; cbn [list_ascii_of_string app].
      rewrite lstrip_by_fixed by reflexivity.
      change ("r"%char :: "u"%char :: "n"%char :: " "%char :: p
              ++ [" "%char; "&"%char])
        with (($"run " ++ p) ++ $" &").
      now rewrite rstrip_by_app by discriminate. }
    rewrite Hf.
    change ($"run " ++ p ++ $" &")
      with ($"run " ++ p ++ [space] ++ ["&"%char]).
    change ($"&") with ["&"%char].
    rewrite !app_assoc, removesuffix_snoc.
    assert (Hsp : strip (($"run " ++ p) ++ [space]) = $"run " ++ p).
    { unfold strip, strip_by.
      cbn [list_ascii_of_string app]; rewrite lstrip_by_fixed by reflexivity.
      change ("r"%char :: "u"%char :: "n"%char :: " "%char :: p ++ [space])
        with ($"run " ++ (p ++ [space])).
      rewrite rstrip_by_app; rewrite rstrip_by_snoc by reflexivity;
        [now rewrite Hr | exact Hrne]. }
    rewrite Hsp, Hm, Hs, ends_with_snoc; reflexivity.
  - rewrite app_nil_r, Hrun.
    assert (He : ends_with $"&" ($"run " ++ p) = false)
      by (change ($"&") with ["&"%char] in *;
          rewrite ends_with_app by exact Hne; now apply Hamp).
    unfold removesuffix; rewrite He, Hrun, Hm, Hs; reflexivity.
Qed.

(** X18. What the voice path hands to [handle_run] is parsed back into
    what was heard: for a phrase heard that is not empty (and does not
    itself end with an ampersand when no background word was said),
    [parse_run_command] on the command line built from it gives that
    phrase, without quotes around it, and the background flag. *)
Theorem voice_phrase_reaches_handler (text p : str) (bg : bool) :
  voice_request text = Some (p, bg) ->
  p <> [] ->
  (bg = false -> ends_with $"&" p = false) ->
  parse_run_command ($"run " ++ p ++ (if bg then $" &" else []))
  = (strip_by is_quote p, bg).
Proof.
  intros Hv Hne Hamp.
  destruct (voice_request_phrase text p bg Hv) as [Hs Hpl].
  now apply parse_run_command_built.
Qed.

Lemma voice_phrase_reaches_handler_witness :
  parse_run_command ($"run " ++ $"the backup" ++ $" &")
  = (strip_by is_quote $"the backup", true).
Proof.
  apply (voice_phrase_reaches_handler $"please run the backup and"
           $"the backup" true); [reflexivity | discriminate | discriminate].
Defined.

(** ** The listing *)

Lemma str_ltb_asym (a b : str) : str_ltb a b = true -> str_ltb b a = false.
Proof.
  revert b; induction a as [|x a IH]; intros [|y b] H; simpl in *;
    try reflexivity; try discriminate.
  apply orb_prop in H as [H|H].
  - apply N.ltb_lt in H.
    replace (code y <? code x)%N with false by (symmetry; apply N.ltb_ge; lia).
    replace (code y =? code x)%N with false by (symmetry; apply N.eqb_neq; lia).
    reflexivity.
  - apply andb_prop in H as [He H]; apply N.eqb_eq in He.
    rewrite He, N.ltb_irrefl, N.eqb_refl; simpl; now apply IH.
Qed.

Lemma insert_asc_perm (x : str * str) (l : list (str * str)) :
  Permutation (insert_asc x l) (x :: l).
Proof.
  induction l as [|y l IH]; simpl; [reflexivity|].
  destruct (str_ltb (list_key y) (list_key x)); [|reflexivity].
  rewrite IH; apply perm_swap.
Qed.

Lemma sorted_items_perm (l : list (str * str)) :
  Permutation (sorted_items l) l.
Proof.
  induction l as [|x l IH]; simpl; [reflexivity|].
  rewrite insert_asc_perm; now constructor.
Qed.

Lemma insert_asc_sorted (x : str * str) (l : list (str * str)) :
  Sorted list_le l -> Sorted list_le (insert_asc x l).
Proof.
  induction 1 as [|y l Hs IH Hh]; simpl; [repeat constructor|].
  destruct (str_ltb (list_key y) (list_key x)) eqn:Hyx.
  - constructor; [exact IH|].
    destruct l as [|z l]; simpl.
    + constructor; unfold list_le; now apply str_ltb_asym.
    + destruct (str_ltb (list_key z) (list_key x)).
      * inversion Hh; subst; now constructor.
      * constructor; unfold list_le; now apply str_ltb_asym.
  - constructor; [now constructor|].
    constructor; exact Hyx.
Qed.

Lemma sorted_items_sorted (l : list (str * str)) :
  Sorted list_le (sorted_items l).
Proof.
  induction l as [|x l IH]; simpl; [constructor|].
  now apply insert_asc_sorted.
Qed.

Lemma widest_key_bound (aliases : dict) (kv : str * str) :
  In kv aliases -> List.length (fst kv) <= widest_key aliases.
Proof.
  induction aliases as [|e d IH]; [intros []|].
  unfold widest_key in *; cbn [fold_right In].
  intros [Heq|H]; [subst; apply Nat.le_max_l|].
  etransitivity; [now apply IH | apply Nat.le_max_r].
Qed.

Lemma ljust_length (w : nat) (k : str) :
  List.length k <= w -> List.length (ljust w k) = w.
Proof.
  intros H; unfold ljust; rewrite length_app, repeat_length; lia.
Qed.

Lemma str_ltb_irrefl (a : str) : str_ltb a a = false.
Proof.
  destruct (str_ltb a a) eqn:H; [|reflexivity].
  now rewrite (str_ltb_asym a a H) in H.
Qed.

Lemma filter_insert_asc (k : str) (x : str * str) (l : list (str * str)) :
  filter (fun kv => str_eqb (list_key kv) k) (insert_asc x l)
  = filter (fun kv => str_eqb (list_key kv) k) (x :: l).
Proof.
  induction l as [|y l IH]; [reflexivity|].
  cbn [insert_asc].
  destruct (str_ltb (list_key y) (list_key x)) eqn:Hlt; [|reflexivity].
  cbn [filter] in *; rewrite IH.
  destruct (str_eqb (list_key x) k) eqn:Hx; [|reflexivity].
  destruct (str_eqb (list_key y) k) eqn:Hy; [|reflexivity].
  apply str_eqb_eq in Hx, Hy; rewrite Hx, Hy, str_ltb_irrefl in Hlt.
  discriminate.
Qed.

Lemma sorted_items_stable (k : str) (l : list (str * str)) :
  filter (fun kv => str_eqb (list_key kv) k) (sorted_items l)
  = filter (fun kv => str_eqb (list_key kv) k) l.
Proof.
  induction l as [|x l IH]; [reflexivity|].
  cbn [sorted_items]; rewrite filter_insert_asc.
  cbn [filter]; now rewrite IH.
Qed.

(** X19. The listing of a table that is not empty has one line for each
    entry, in the order of the phrases in lower case - the entries whose
    phrases are equal in lower case keep the order they have in the
    table -, and the phrases are padded to one width, that of the longest
    phrase, so that the arrows stand in one column. *)
Theorem handle_list_sorted_aligned (aliases : dict) :
  aliases <> [] ->
  exists l,
    Permutation l aliases
    /\ Sorted list_le l
    /\ (forall k,
          filter (fun kv => str_eqb (list_key kv) k) l
          = filter (fun kv => str_eqb (list_key kv) k) aliases)
    /\ handle_list aliases = map (list_line (widest_key aliases)) l
    /\ Forall (fun kv => List.length (ljust (widest_key aliases) (fst kv))
                         = widest_key aliases) l
    /\ List.length (handle_list aliases) = List.length aliases.
Proof.
  intros Hne; exists (sorted_items aliases).
  pose proof (sorted_items_perm aliases) as Hp.
  split; [exact Hp|]; split; [apply sorted_items_sorted|].
  split; [intros k; apply sorted_items_stable|].
  assert (Hl : handle_list aliases
               = map (list_line (widest_key aliases)) (sorted_items aliases))
    by (destruct aliases; [congruence | reflexivity]).
  split; [exact Hl|]; split.
  - apply Forall_forall; intros kv Hin.
    apply ljust_length, widest_key_bound.
    now apply (Permutation_in kv Hp).
  - rewrite Hl, length_map; now apply Permutation_length.
Qed.

Lemma handle_list_sorted_aligned_witness :
  exists l,
    Permutation l [($"B", $"/1.py"); ($"a", $"/2.py"); ($"b", $"/3.py")]
    /\ Sorted list_le l
    /\ (forall k,
          filter (fun kv => str_eqb (list_key kv) k) l
          = filter (fun kv => str_eqb (list_key kv) k)
                   [($"B", $"/1.py"); ($"a", $"/2.py"); ($"b", $"/3.py")])
    /\ handle_list [($"B", $"/1.py"); ($"a", $"/2.py"); ($"b", $"/3.py")]
       = map (list_line 1) l
    /\ Forall (fun kv => List.length (ljust 1 (fst kv)) = 1) l
    /\ List.length
         (handle_list [($"B", $"/1.py"); ($"a", $"/2.py"); ($"b", $"/3.py")])
       = 3.
Proof.
  apply (handle_list_sorted_aligned
           [($"B", $"/1.py"); ($"a", $"/2.py"); ($"b", $"/3.py")]);
    discriminate.
Defined.

Example handle_list_stable :
  handle_list [($"B", $"/1.py"); ($"a", $"/2.py"); ($"b", $"/3.py")]
  = [$"a  ->  /2.py"; $"B  ->  /1.py"; $"b  ->  /3.py"].
Proof. reflexivity. Qed.

Example handle_list_backups :
  handle_list [($"old backup", $"/b/old.py"); ($"Fast", $"/b/fast.py")]
  = [$"Fast        ->  /b/fast.py"; $"old backup  ->  /b/old.py"].
Proof. reflexivity. Qed.

(** ** What a command does to the table *)

Lemma validated_cases (E : Env) (path : str) (st : State) :
  exists r st',
    validated E path st = (Ok r, st')
    /\ untouched st st' /\ stdin st' = stdin st
    /\ match r with
       | Some real => real = resolve E (expanduser E path)
       | None => True
       end.
Proof.
  unfold validated, try_except, bind at 1, ensure_python_script, raise.
  destruct (path_exists E (resolve E (expanduser E path))); simpl;
    [|do 2 eexists; repeat split].
  destruct (path_is_dir E (resolve E (expanduser E path))); simpl;
    [do 2 eexists; repeat split|].
  unfold bind, ret, print, emit.
  match goal with
  | |- context [if ?b then _ else _] => destruct b
  end; simpl; do 2 eexists; repeat split.
Qed.

Lemma register_touch (E : Env) (phrase real : str) (s0 st : State) :
  untouched s0 st ->
  aliases (snd (register E phrase real st))
  = dict_set phrase real (aliases s0)
  /\ saved_or_raised E s0 (fst (register E phrase real st))
                     (snd (register E phrase real st))
  /\ stdin (snd (register E phrase real st)) = stdin st.
Proof.
  intros [Ha Hc]; rewrite register_state, Ha, Hc; unfold saved_or_raised.
  destruct (write_text E (config_file s0)
              (json_dumps E (dict_set phrase real (aliases s0))))
    as [[e f]|] eqn:Hw;
    cbn [fst snd aliases config_file stdin add_out]; rewrite Hw; auto.
Qed.

(** The tail that the wizard and the [map] command share. *)
Lemma checked_map_cases (E : Env) (phrase path : str) (rest : list str)
      (st : State) :
  stdin (snd (handle_map E (phrase :: path :: rest) st)) = stdin st
  /\ ((untouched st (snd (handle_map E (phrase :: path :: rest) st))
       /\ fst (handle_map E (phrase :: path :: rest) st) = Ok tt)
      \/ (aliases (snd (handle_map E (phrase :: path :: rest) st))
          = dict_set phrase (resolve E (expanduser E path)) (aliases st)
          /\ saved_or_raised E st
               (fst (handle_map E (phrase :: path :: rest) st))
               (snd (handle_map E (phrase :: path :: rest) st)))).
Proof.
  unfold handle_map.
  destruct (validated_cases E path st) as [r [s' [Hv [Hu [Hs Hr]]]]].
  unfold bind; rewrite Hv.
  destruct r as [real|]; [|split; [exact Hs | left; split; auto]].
  destruct (register_touch E phrase real st s' Hu) as [Ha [Hc Hi]].
  subst real; split; [congruence | right; split; assumption].
Qed.

Lemma wizard_answers (E : Env) (l1 l2 : str) (lines : list str)
      (st : State) :
  stdin st = l1 :: l2 :: lines ->
  handle_map E [] st
  = if is_empty (strip l1) || is_empty (strip l2)
    then (Ok tt, add_out (Print ErrRequired) (answered lines st))
    else handle_map E [strip l1; strip l2] (answered lines st).
Proof.
  intros Hin.
  unfold handle_map at 1, interactive_map, bind at 1, input at 1.
  rewrite Hin; unfold bind at 1, input at 1; cbn [stdin].
  match goal with
  | |- context [{| aliases := ?a; config_file := ?c; stdin := lines;
                   out := ?o; clock := ?t; interrupt_at := ?i;
                   proc := ?q |}] =>
      replace {| aliases := a; config_file := c; stdin := lines;
                 out := o; clock := t; interrupt_at := i; proc := q |}
        with (answered lines st)
        by (unfold answered; cbn; now rewrite <- app_assoc)
  end.
  destruct (is_empty (strip l1) || is_empty (strip l2)); reflexivity.
Qed.

Lemma wizard_short_input (E : Env) (st : State) :
  List.length (stdin st) < 2 ->
  fst (handle_map E [] st) = Raise EOFError
  /\ untouched st (snd (handle_map E [] st))
  /\ stdin (snd (handle_map E [] st)) = [].
Proof.
  intros H.
  assert (Heq : exists s', handle_map E [] st = (Raise EOFError, s')
                           /\ untouched st s' /\ stdin s' = []).
  { unfold handle_map, interactive_map, bind at 1, input at 1.
    destruct (stdin st) as [|l1 [|l2 lines]] eqn:Hin; simpl in H; [| |lia].
    - eexists; repeat split; exact Hin.
    - unfold bind at 1, input at 1; cbn [stdin].
      eexists; repeat split. }
  destruct Heq as [s' [Heq [Hu Hs]]]; rewrite Heq; auto.
Qed.

Lemma handle_map_touch (E : Env) (args : list str) (st : State) :
  List.length (stdin (snd (handle_map E args st))) <= List.length (stdin st)
  /\ ((untouched st (snd (handle_map E args st))
       /\ (fst (handle_map E args st) = Ok tt
           \/ (fst (handle_map E args st) = Raise EOFError
               /\ stdin (snd (handle_map E args st)) = [])))
      \/ (exists k v,
             aliases (snd (handle_map E args st)) = dict_set k v (aliases st)
             /\ saved_or_raised E st (fst (handle_map E args st))
                                (snd (handle_map E args st)))).
Proof.
  destruct args as [|phrase [|path rest]].
  - destruct (Nat.lt_ge_cases (List.length (stdin st)) 2) as [Hlt|Hge].
    + destruct (wizard_short_input E st Hlt) as [Hf [Hu Hs]].
      rewrite Hf, Hs; split; [simpl; lia|].
      left; split; [exact Hu | right; split; reflexivity].
    + destruct (stdin st) as [|l1 [|l2 lines]] eqn:Hin;
        [simpl in Hge; lia | simpl in Hge; lia |].
      rewrite (wizard_answers E l1 l2 lines st Hin).
      destruct (is_empty (strip l1) || is_empty (strip l2)).
      * split; [simpl; lia|].
        left; split; [split; reflexivity | left; reflexivity].
      * destruct (checked_map_cases E (strip l1) (strip l2) []
                    (answered lines st)) as [Hs Ht].
        rewrite Hs; split; [simpl; lia|].
        destruct Ht as [[[Ha Hc] Hf]|[Ha Hc]].
        -- left; split; [split; assumption | left; exact Hf].
        -- right; exists (strip l1), (resolve E (expanduser E (strip l2))).
           split; [exact Ha | exact Hc].
  - split; [simpl; lia|].
    left; split; [split; reflexivity | left; reflexivity].
  - destruct (checked_map_cases E phrase path rest st) as [Hs Ht].
    rewrite Hs; split; [lia|].
    destruct Ht as [[Hu Hf]|[Ha Hc]].
    + left; split; [exact Hu | left; exact Hf].
    + right; exists phrase, (resolve E (expanduser E path)).
      split; [exact Ha | exact Hc].
Qed.

Lemma remove_touch (E : Env) (key : str) (st : State) :
  In key (keys (aliases st)) ->
  aliases (snd (remove E key st)) = dict_del key (aliases st)
  /\ saved_or_raised E st (fst (remove E key st)) (snd (remove E key st))
  /\ stdin (snd (remove E key st)) = stdin st.
Proof.
  intros H; apply dict_mem_In in H.
  rewrite (remove_key E key st H); unfold saved_or_raised.
  destruct (write_text E (config_file st)
              (json_dumps E (dict_del key (aliases st))))
    as [[e f]|] eqn:Hw;
    cbn [fst snd aliases config_file stdin add_out]; rewrite Hw; auto.
Qed.

Lemma best_match_key_In (d : dict) (raw key v : str) :
  best_match d raw = Ok (Some (key, v)) -> In key (keys d).
Proof.
  intros Hr.
  destruct (best_match_tiers d raw)
    as [[l1 [K [l2 [v' [_ [_ [_ [Hv Hb]]]]]]]]
       |[[_ [h [r [v' [_ [_ [Hv Hb]]]]]]]|[_ [_ Hb]]]];
    rewrite Hb in Hr.
  - injection Hr as <- <-; apply dict_get_pair in Hv.
    apply in_map_iff; now exists (K, v').
  - injection Hr as <- <-; apply dict_get_pair in Hv.
    apply in_map_iff; now exists (snd h, v').
  - destruct (first_substr_cases d (normalize_phrase raw) (keys d))
      as [[_ Hn]|[l1 [K [l2 [v' [_ [_ [_ [Hv Hf]]]]]]]]]; [auto | |];
      rewrite Hr in *; [discriminate|].
    injection Hf as <- <-; apply dict_get_pair in Hv.
    apply in_map_iff; now exists (key, v).
Qed.

Lemma handle_unmap_touch (E : Env) (args : list str) (st : State) :
  stdin (snd (handle_unmap E args st)) = stdin st
  /\ ((untouched st (snd (handle_unmap E args st))
       /\ fst (handle_unmap E args st) = Ok tt)
      \/ (exists k,
             In k (keys (aliases st))
             /\ aliases (snd (handle_unmap E args st))
                = dict_del k (aliases st)
             /\ saved_or_raised E st (fst (handle_unmap E args st))
                                (snd (handle_unmap E args st)))).
Proof.
  destruct args as [|phrase rest];
    [split; [reflexivity | left; repeat split]|].
  destruct (dict_mem phrase (aliases st)) eqn:Hm.
  - rewrite (handle_unmap_key E phrase rest st Hm).
    apply dict_mem_In in Hm.
    destruct (remove_touch E phrase st Hm) as [Ha [Hc Hs]].
    split; [exact Hs | right; exists phrase; auto].
  - destruct (best_match_returns (aliases st) phrase) as [r Hr].
    destruct r as [[key v]|].
    + rewrite (handle_unmap_fuzzy E phrase key v rest st Hm Hr).
      assert (Hin : In key (keys (aliases st)))
        by now apply (best_match_key_In _ phrase key v).
      destruct (remove_touch E key st Hin) as [Ha [Hc Hs]].
      split; [exact Hs | right; exists key; auto].
    + assert (Heq : handle_unmap E (phrase :: rest) st
                    = (Ok tt, add_out (Print (WarnNoMapping phrase)) st)).
      { unfold handle_unmap, bind, get_aliases, lift; simpl.
        now rewrite Hm, Hr. }
      rewrite Heq; split; [reflexivity | left; repeat split].
Qed.

(** X20. A command changes at most one entry of the table, and saves what
    it changes.  A [map] command leaves the table and the stored file as
    they were, or assigns one phrase and then writes the file; an [unmap]
    command leaves them as they were, or removes one registered phrase and
    then writes the file.  The write done, the file holds the new table
    and the command returns; when the write raises, its exception leaves
    the command, the table changed and not saved. *)
Theorem map_unmap_change_one_entry_and_save (E : Env) (args : list str)
        (st : State) :
  (untouched st (snd (handle_map E args st))
   \/ (exists k v,
          aliases (snd (handle_map E args st)) = dict_set k v (aliases st)
          /\ saved_or_raised E st (fst (handle_map E args st))
                             (snd (handle_map E args st))))
  /\ (untouched st (snd (handle_unmap E args st))
      \/ (exists k,
             In k (keys (aliases st))
             /\ aliases (snd (handle_unmap E args st))
                = dict_del k (aliases st)
             /\ saved_or_raised E st (fst (handle_unmap E args st))
                                (snd (handle_unmap E args st)))).
Proof.
  split.
  - destruct (handle_map_touch E args st) as [_ [[H _]|H]]; auto.
  - destruct (handle_unmap_touch E args st) as [_ [[H _]|H]]; auto.
Qed.

(** On a stored file that cannot be written (here a directory), the
    registration changes the table and the exception of the write leaves
    the command. *)
Example map_on_unwritable_store :
  handle_map demo_env [$"notes"; $"/scripts/notes.txt"]
             (demo_state [] Unreadable [] None)
  = (Raise (IsADirectoryError $"Is a directory: ~/.script_aliases.json"),
     add_out (Print (WarnNotPy $"/scripts/notes.txt"))
       (demo_state [($"notes", $"/scripts/notes.txt")] Unreadable [] None)).
Proof. reflexivity. Qed.









(** ** The wizard *)

(** X22. The wizard is the [map] command on the answers.  With two lines
    of input it asks its two questions and then does what
    [map <phrase> <path>] does with the two answers stripped, or prints
    that both are required when an answer is blank; with fewer than two
    lines it ends in [EOFError], all the input read and the table and the
    file as they were. *)
Theorem wizard_is_map_on_answers (E : Env) (st : State) :
  (forall l1 l2 lines,
      stdin st = l1 :: l2 :: lines ->
      handle_map E [] st
      = if is_empty (strip l1) || is_empty (strip l2)
        then (Ok tt, add_out (Print ErrRequired) (answered lines st))
        else handle_map E [strip l1; strip l2] (answered lines st))
  /\ (List.length (stdin st) < 2 ->
      fst (handle_map E [] st) = Raise EOFError
      /\ untouched st (snd (handle_map E [] st))
      /\ stdin (snd (handle_map E [] st)) = []).
Proof.
  split; [intros l1 l2 lines; apply wizard_answers | apply wizard_short_input].
Qed.

Lemma wizard_is_map_on_answers_witness :
  aliases (snd (handle_map demo_env []
                  (demo_state backups Absent
                     [$"  notes "; $" /scripts/notes.txt"; $"list"] None)))
  = backups ++ [($"notes", $"/scripts/notes.txt")]
  /\ fst (handle_map demo_env []
            (demo_state backups Absent [$"notes"] None)) = Raise EOFError.
Proof.
  destruct (wizard_is_map_on_answers demo_env
              (demo_state backups Absent
                 [$"  notes "; $" /scripts/notes.txt"; $"list"] None))
    as [H1 _].
  destruct (wizard_is_map_on_answers demo_env
              (demo_state backups Absent [$"notes"] None)) as [_ H2].
  split.
  - rewrite (H1 _ _ _ eq_refl); reflexivity.
  - apply H2; simpl; lia.
Defined.

(** ** The session *)

















(** ** The program *)

Lemma load_fails (E : Env) (st : State) :
  fails_to_load E st ->
  load_config E st = (Ok [], add_out (Print WarnParse) st).
Proof.
  unfold load_config, bind, config_exists, try_except, read_config.
  intros [Hu|[t [e [Ht [Hr He]]]]].
  - rewrite Hu; cbv beta iota; rewrite Hu; reflexivity.
  - rewrite Ht; cbv beta iota; rewrite Ht; cbv beta iota.
    rewrite Hr, He; reflexivity.
Qed.

(** X25. A stored file that does not load is lost at the first
    registration.  When the table of the session is loaded from a file
    that cannot be read or does not parse, the session starts on the empty
    table, and a [map] command with an accepted path then leaves the new
    entry alone in the table and writes the file: the write done, the file
    holds the new entry alone; when the write raises (as on a directory),
    its exception leaves the command. *)
Theorem failed_load_then_map_overwrites (E : Env) (st : State)
        (phrase path : str) (rest : list str) :
  fails_to_load E st ->
  accepted E path ->
  aliases (snd ((d <- load_config E ;; set_aliases d ;;
                 handle_map E (phrase :: path :: rest)) st))
  = [(phrase, resolve E (expanduser E path))]
  /\ (writable E [(phrase, resolve E (expanduser E path))] st ->
      fst ((d <- load_config E ;; set_aliases d ;;
            handle_map E (phrase :: path :: rest)) st) = Ok tt
      /\ config_file (snd ((d <- load_config E ;; set_aliases d ;;
                            handle_map E (phrase :: path :: rest)) st))
         = Text (json_dumps E [(phrase, resolve E (expanduser E path))]))
  /\ (forall e f,
        write_text E (config_file st)
          (json_dumps E [(phrase, resolve E (expanduser E path))])
        = Some (e, f) ->
        fst ((d <- load_config E ;; set_aliases d ;;
              handle_map E (phrase :: path :: rest)) st) = Raise e
        /\ config_file (snd ((d <- load_config E ;; set_aliases d ;;
                              handle_map E (phrase :: path :: rest)) st))
           = f).
Proof.
  intros Hl Ha.
  assert (H : (d <- load_config E ;; set_aliases d ;;
               handle_map E (phrase :: path :: rest)) st
              = handle_map E (phrase :: path :: rest)
                  (snd (set_aliases [] (add_out (Print WarnParse) st)))).
  { unfold bind at 1; rewrite (load_fails E st Hl); reflexivity. }
  rewrite H, (handle_map_accepted E phrase path rest _ Ha), register_state.
  destruct (warned_fields E (resolve E (expanduser E path))
              (snd (set_aliases [] (add_out (Print WarnParse) st))))
    as [Hw [Hc _]].
  rewrite Hw, Hc; unfold writable.
  cbn [fst snd aliases config_file add_out set_aliases dict_set].
  destruct (write_text E (config_file st)
              (json_dumps E [(phrase, resolve E (expanduser E path))]))
    as [[e f]|]; cbn [fst snd aliases config_file add_out].
  - split; [reflexivity|]; split; [discriminate|].
    intros e' f' Heq; injection Heq as <- <-; split; reflexivity.
  - split; [reflexivity|]; split; [intros _; split; reflexivity|].
    discriminate.
Qed.

Lemma failed_load_then_map_overwrites_witness :
  config_file
    (snd ((d <- load_config demo_env ;; set_aliases d ;;
           handle_map demo_env [$"notes"; $"/scripts/notes.txt"])
            (demo_state [] (Text $"{not json") [] None)))
  = Text (json_dumps demo_env [($"notes", $"/scripts/notes.txt")])
  /\ fst ((d <- load_config demo_env ;; set_aliases d ;;
           handle_map demo_env [$"notes"; $"/scripts/notes.txt"])
            (demo_state [] Unreadable [] None))
     = Raise (IsADirectoryError $"Is a directory: ~/.script_aliases.json").
Proof.
  split.
  - destruct (failed_load_then_map_overwrites demo_env
                (demo_state [] (Text $"{not json") [] None)
                $"notes" $"/scripts/notes.txt" []) as [_ [H _]].
    + right; exists ($"{not json"), (ValueError $"Expecting value").
      repeat split.
    + split; reflexivity.
    + exact (proj2 (H eq_refl)).
  - destruct (failed_load_then_map_overwrites demo_env
                (demo_state [] Unreadable [] None)
                $"notes" $"/scripts/notes.txt" []) as [_ [_ H]].
    + left; reflexivity.
    + split; reflexivity.
    + exact (proj1 (H _ _ eq_refl)).
Defined.




Example main_after_failed_load :
  option_map (fun x => (fst x, aliases (core (snd x)),
                        config_file (core (snd x))))
    (main demo_env plain_split 3
          (demo_state [] (Text $"{not json")
             [$"map notes /scripts/notes.txt"; $"quit"] None))
  = Some (Ok tt, [($"notes", $"/scripts/notes.txt")],
          Text (json_dumps demo_env [($"notes", $"/scripts/notes.txt")])).
Proof. vm_compute; reflexivity. Qed.

(** ** What a command launches *)

Section Emits.

Variable P : list str -> str -> spawn_flags -> Prop.
Variable L : msg -> Prop.

Lemma emits_refl (st : State) : emits P L st st.
Proof. exists []; split; [now rewrite app_nil_r | constructor]. Qed.

Lemma emits_trans (a b c : State) :
  emits P L a b -> emits P L b c -> emits P L a c.
Proof.
  intros [e1 [H1 F1]] [e2 [H2 F2]]; exists (e1 ++ e2); split.
  - now rewrite H2, H1, app_assoc.
  - apply Forall_app; split; assumption.
Qed.

Lemma emits_emit (e : event) : event_as P L e -> keeps (emits P L) (emit e).
Proof. intros H st; exists [e]; split; [reflexivity | now constructor]. Qed.

Lemma emits_same_out (st st' : State) :
  out st' = out st -> emits P L st st'.
Proof. intros H; exists []; split; [now rewrite app_nil_r | constructor]. Qed.

Lemma emits_get_aliases : keeps (emits P L) get_aliases.
Proof. intros st; apply emits_refl. Qed.

Lemma emits_track (ch : Child) : keeps (emits P L) (track ch).
Proof. intros st; now apply emits_same_out. Qed.

Lemma emits_spawn (E : Env) (cmd : list str) (cwd : str)
      (flags : spawn_flags) :
  P cmd cwd flags -> keeps (emits P L) (spawn E cmd cwd flags).
Proof.
  intros H st; unfold spawn, bind, emit, ret, raise; simpl.
  exists [Popen cmd cwd flags].
  destruct (popen E cmd cwd flags); (split; [reflexivity | now constructor]).
Qed.

Lemma out_poll (st : State) : out (poll st) = out st.
Proof.
  unfold poll; destruct (proc st) as [[T|] c|c]; try reflexivity.
  destruct (T <=? clock st); reflexivity.
Qed.

Lemma emits_proc_wait (timeout : option nat) :
  keeps (emits P L) (proc_wait timeout).
Proof.
  intros st; unfold proc_wait, bind, emit; simpl.
  exists [Wait timeout]; split; [|now constructor].
  destruct (proc st) as [ea c|c]; [|reflexivity].
  destruct (interrupted _ _ _); [reflexivity|].
  destruct ea as [T|], timeout as [d|]; simpl;
    try destruct (T <=? clock st + d); reflexivity.
Qed.

Lemma emits_proc_send_sigint (ch : Child) :
  keeps (emits P L) (proc_send_sigint ch).
Proof.
  intros st; unfold proc_send_sigint, bind, emit; simpl.
  exists [SendSigint]; split; [|now constructor].
  set (s1 := add_out SendSigint st).
  assert (H1 : out (poll s1) = out st ++ [SendSigint]) by apply out_poll.
  destruct (proc (poll s1)) as [ea c|c]; [|exact H1].
  destruct (sigint_raises ch); [exact H1|].
  destruct (on_sigint ch) as [[d c']|]; [|exact H1].
  destruct (le_opt (clock (poll s1) + d) ea); exact H1.
Qed.

Lemma emits_proc_kill : keeps (emits P L) proc_kill.
Proof.
  intros st; unfold proc_kill, bind, emit; simpl.
  exists [Kill]; split; [|now constructor].
  set (s1 := add_out Kill st).
  assert (H1 : out (poll s1) = out st ++ [Kill]) by apply out_poll.
  destruct (proc (poll s1)) as [ea c|c]; exact H1.
Qed.

End Emits.

Ltac emits_step :=
  lazymatch goal with
  | |- keeps (emits ?P ?L) (bind _ _) =>
      apply (keeps_bind (emits P L) (emits_trans P L))
  | |- keeps (emits ?P ?L) (try_except _ _ _) =>
      apply (keeps_try_except (emits P L) (emits_trans P L))
  | |- keeps (emits ?P ?L) (ret _) =>
      apply (keeps_ret (emits P L) (emits_refl P L))
  | |- keeps (emits ?P ?L) (raise _) =>
      apply (keeps_raise (emits P L) (emits_refl P L))
  | |- keeps (emits ?P ?L) (lift _) =>
      apply (keeps_lift (emits P L) (emits_refl P L))
  | |- keeps _ (emit (Popen _ _ _)) => fail
  | |- keeps _ (emit _) =>
      apply emits_emit; first [exact I | intros ?; discriminate]
  | |- keeps _ get_aliases => apply emits_get_aliases
  | |- keeps _ (track _) => apply emits_track
  | |- keeps _ (proc_wait _) => apply emits_proc_wait
  | |- keeps _ (proc_send_sigint _) => apply emits_proc_send_sigint
  | |- keeps _ proc_kill => apply emits_proc_kill
  | |- keeps _ (if ?b then _ else _) => destruct b
  | |- forall _, _ => intro
  end.

Lemma emits_run_script (E : Env) (script : str) (attach : bool) :
  keeps (emits (launch_of E script) no_warning) (run_script E script attach).
Proof.
  unfold run_script, on_interrupt, print; destruct attach.
  - apply (keeps_bind _ (emits_trans _ _));
      [apply emits_spawn; split; reflexivity|].
    repeat emits_step.
  - apply (keeps_bind _ (emits_trans _ _));
      [apply emits_spawn; split; reflexivity|].
    repeat emits_step.
Qed.

Lemma best_match_pair_In (d : dict) (raw key v : str) :
  best_match d raw = Ok (Some (key, v)) -> In (key, v) d.
Proof.
  intros Hr.
  destruct (best_match_tiers d raw)
    as [[l1 [K [l2 [v' [_ [_ [_ [Hv Hb]]]]]]]]
       |[[_ [h [r [v' [_ [_ [Hv Hb]]]]]]]|[_ [_ Hb]]]];
    rewrite Hb in Hr.
  - injection Hr as <- <-; now apply dict_get_pair.
  - injection Hr as <- <-; now apply dict_get_pair.
  - destruct (first_substr_cases d (normalize_phrase raw) (keys d))
      as [[_ Hn]|[l1 [K [l2 [v' [_ [_ [_ [Hv Hf]]]]]]]]]; [auto | |];
      rewrite Hr in *; [discriminate|].
    injection Hf as <- <-; now apply dict_get_pair.
Qed.

Lemma emits_weaken (P Q : list str -> str -> spawn_flags -> Prop)
      (L K : msg -> Prop) (st st' : State) :
  (forall c w f, P c w f -> Q c w f) -> (forall m, L m -> K m) ->
  emits P L st st' -> emits Q K st st'.
Proof.
  intros H HL [evs [Ho Hf]]; exists evs; split; [exact Ho|].
  eapply Forall_impl; [|exact Hf].
  intros [] He; simpl in *; auto.
Qed.

Lemma emits_handle_run (E : Env) (rest : str) (st : State) :
  emits (fun cmd cwd flags =>
           exists key script,
             In (key, script) (aliases st) /\ launch_of E script cmd cwd flags)
        any_line st (snd (handle_run E rest st)).
Proof.
  unfold handle_run.
  destruct (parse_run_command rest) as [phrase bg].
  destruct (is_empty phrase); [apply emits_emit; exact I|].
  unfold bind at 1, get_aliases; unfold bind at 1, lift.
  destruct (best_match_returns (aliases st) phrase) as [r Hr].
  rewrite Hr; destruct r as [[key script]|]; [|apply emits_emit; exact I].
  apply best_match_pair_In in Hr.
  apply (emits_weaken (launch_of E script) _ any_line any_line);
    [intros c w f H; now exists key, script | auto |].
  revert st Hr; intros st _.
  match goal with
  | |- emits ?P ?L st (snd (?m st)) => revert st; fold (keeps (emits P L) m)
  end.
  unfold print; repeat emits_step.
  - intros st; eapply emits_weaken; [| |apply emits_run_script]; auto.
    intros m _; exact I.
  - match goal with
    | e : exn |- _ => destruct e
    end; apply emits_emit; exact I.
Qed.

(** X27. A command launches nothing but registered scripts.  Every
    process that a [run] command, typed or spoken, creates is the
    interpreter on a script that the table holds, started in the
    directory of that script; whatever the phrase, no other program is
    started. *)
Theorem run_launches_only_registered (E : Env) (st : State) :
  (forall rest,
      exists evs,
        out (snd (handle_run E rest st)) = out st ++ evs
        /\ forall cmd cwd flags,
             In (Popen cmd cwd flags) evs ->
             exists key script,
               In (key, script) (aliases st)
               /\ cmd = [sys_executable E; script]
               /\ cwd = path_parent E (resolve E script))
  /\ (forall text,
         exists evs,
           out (snd (_maybe_run_from_voice E text st)) = out st ++ evs
           /\ forall cmd cwd flags,
                In (Popen cmd cwd flags) evs ->
                exists key script,
                  In (key, script) (aliases st)
                  /\ cmd = [sys_executable E; script]
                  /\ cwd = path_parent E (resolve E script)).
Proof.
  assert (H : forall st',
             emits (fun cmd cwd flags =>
                      exists key script,
                        In (key, script) (aliases st)
                        /\ launch_of E script cmd cwd flags)
                   any_line st st' ->
             exists evs,
               out st' = out st ++ evs
               /\ forall cmd cwd flags,
                    In (Popen cmd cwd flags) evs ->
                    exists key script,
                      In (key, script) (aliases st)
                      /\ cmd = [sys_executable E; script]
                      /\ cwd = path_parent E (resolve E script)).
  { intros st' [evs [Ho Hf]]; exists evs; split; [exact Ho|].
    intros cmd cwd flags Hi.
    rewrite Forall_forall in Hf; exact (Hf _ Hi). }
  split.
  - intros rest; apply H, emits_handle_run.
  - intros text; apply H; unfold _maybe_run_from_voice.
    destruct (voice_request text) as [[phrase_raw bg]|];
      [|apply emits_refl].
    unfold bind, print, emit.
    eapply emits_trans;
      [apply (emits_emit _ _ (Print (VoiceHeard text)) I st)|].
    apply (emits_handle_run E _ (add_out (Print (VoiceHeard text)) st)).
Qed.

Lemma run_launches_only_registered_witness :
  exists key script,
    In (key, script) backups
    /\ [$"/usr/bin/python3"; $"/b/old.py"] = [sys_executable demo_env; script]
    /\ $"/b" = path_parent demo_env (resolve demo_env script).
Proof.
  destruct (run_launches_only_registered demo_env
              (demo_state backups Absent [] None)) as [H _].
  destruct (H ($"run old backup &")) as [evs [Ho Hin]].
  apply (Hin [$"/usr/bin/python3"; $"/b/old.py"] ($"/b") NewSession).
  change (out (demo_state backups Absent [] None) ++ evs) with evs in Ho.
  rewrite <- Ho; vm_compute; right; left; reflexivity.
Defined.

(** ** Where the path is checked *)





